(** * openapi-enforcer: the definition normalizer and the Schema enforcer

    A shallow embedding of [definition-validator.js] (the recursive,
    validator-driven normalizer) and of [src/enforcers/Schema.js] (the
    populate injectors, the data type registry, the Schema cross-field
    checks, [discriminate] and the option handling of [populate] and
    [random]), followed by the properties proved about them.

    JavaScript numbers are IEEE 754 doubles: they are embedded as Rocq's
    primitive floats, so that [<] and [===] keep their behaviour on NaN.
    Objects have identity: they live in stores and values refer to them by
    address. *)

From Stdlib Require Import String Ascii List ZArith Lia Bool.
From Stdlib Require Import Floats.PrimFloat Floats.SpecFloat Floats.FloatOps Floats.FloatAxioms.
From Stdlib Require Import Uint63 DecimalString.
From Stdlib Require Import Sorting.Sorted Sorting.Permutation.
From stdpp Require Import base option list gmap strings.

Open Scope string_scope.

(** ** Completions and the state-and-exception monad

    A JavaScript statement list either completes normally or throws, and the
    side effects made before a throw persist: the state is returned in both
    cases.  The thrown value is represented by the text of its [stack]. *)

Inductive completion (A : Type) : Type :=
| Ok (a : A)
| Throw (err : string).

Arguments Ok {A} a.
Arguments Throw {A} err.

Definition M (S A : Type) : Type := S -> completion A * S.

Definition ret {S A} (a : A) : M S A := fun s => (Ok a, s).

Definition throw {S A} (err : string) : M S A := fun s => (Throw err, s).

Definition bind {S A B} (c : M S A) (k : A -> M S B) : M S B :=
  fun s =>
    match c s with
    | (Ok a, s') => k a s'
    | (Throw err, s') => (Throw err, s')
    end.

Notation "'let*' x ':=' c 'in' k" := (bind c (fun x => k))
  (at level 10, x pattern, c at level 100, k at level 200).

(** [forEach]: run the body on every element, in order; a throw stops it. *)
Fixpoint forEach {S A} (l : list A) (body : A -> M S unit) : M S unit :=
  match l with
  | [] => ret tt
  | x :: l' => let* _ := body x in forEach l' body
  end.

(** ** JavaScript values *)

Module JS.

Abbreviation addr := nat.

(** Objects have identity.  A reference names either an object of the raw
    definition handed to the enforcer ([Def]) or an object created while
    enforcing ([Obj]). *)
Inductive ref := Def (a : addr) | Obj (a : addr).

Global Instance ref_eq_dec : EqDecision ref.
Proof. solve_decision. Defined.

Global Instance ref_countable : Countable ref.
Proof.
  refine (inj_countable'
            (fun r => match r with Def a => inl a | Obj a => inr a end)
            (fun x => match x with inl a => Def a | inr a => Obj a end) _).
  now intros [a|a].
Defined.

Inductive prim :=
| PUndefined
| PNull
| PBool (b : bool)
| PNum (n : float)
| PStr (s : string).

Inductive jsval :=
| JPrim (p : prim)
| JRef (r : ref).

Coercion JPrim : prim >-> jsval.

Abbreviation undefined := (JPrim PUndefined).

(** An array, or a plain object with its own enumerable properties in the
    order [Object.keys] lists them. *)
Inductive jsobj :=
| OArray (elems : list jsval)
| OObject (props : list (string * jsval)).

Abbreviation heap := (list jsobj).

Record store := { s_defs : heap; s_objs : heap }.

Definition deref (s : store) (r : ref) : option jsobj :=
  match r with
  | Def a => s_defs s !! a
  | Obj a => s_objs s !! a
  end.

(** ToBoolean *)
Definition truthy (v : jsval) : bool :=
  match v with
  | JPrim PUndefined | JPrim PNull => false
  | JPrim (PBool b) => b
  | JPrim (PNum n) => negb (PrimFloat.eqb n 0 || PrimFloat.is_nan n)
  | JPrim (PStr s) => negb (String.eqb s "")
  | JRef _ => true
  end.

(** [a === b] *)
Definition strict_equal (a b : jsval) : bool :=
  match a, b with
  | JPrim PUndefined, JPrim PUndefined => true
  | JPrim PNull, JPrim PNull => true
  | JPrim (PBool x), JPrim (PBool y) => Bool.eqb x y
  | JPrim (PNum x), JPrim (PNum y) => PrimFloat.eqb x y
  | JPrim (PStr x), JPrim (PStr y) => String.eqb x y
  | JRef x, JRef y => bool_decide (x = y)
  | _, _ => false
  end.

(** SameValueZero, the comparison of [Array.prototype.includes]: strict
    equality, except that NaN equals itself. *)
Definition same_value_zero (a b : jsval) : bool :=
  match a, b with
  | JPrim (PNum x), JPrim (PNum y) =>
      PrimFloat.eqb x y || (PrimFloat.is_nan x && PrimFloat.is_nan y)
  | _, _ => strict_equal a b
  end.

(** [array.includes(v)] *)
Definition includes (l : list jsval) (v : jsval) : bool :=
  existsb (fun x => same_value_zero x v) l.

Fixpoint assoc {A} (k : string) (l : list (string * A)) : option A :=
  match l with
  | [] => None
  | (k', v) :: l' => if String.eqb k k' then Some v else assoc k l'
  end.

(** [o[k] = v] on the own properties: an existing property keeps its place,
    a new one comes last. *)
Fixpoint assoc_set {A} (k : string) (v : A) (l : list (string * A)) : list (string * A) :=
  match l with
  | [] => [(k, v)]
  | (k', v') :: l' =>
      if String.eqb k k' then (k, v) :: l' else (k', v') :: assoc_set k v l'
  end.

(** The property name of an array index, and a length as a number. *)
Definition index_name (i : nat) : string :=
  NilEmpty.string_of_uint (Nat.to_uint i).

Definition number_of_nat (n : nat) : float :=
  PrimFloat.of_uint63 (Uint63.of_Z (Z.of_nat n)).

(** The element of [l] whose index is written [k]. *)
Definition element_named (k : string) (l : list jsval) : option jsval :=
  match List.find (fun i => String.eqb (index_name i) k) (seq 0 (length l)) with
  | Some i => l !! i
  | None => None
  end.

(** The own property [k] of [v]: of a plain object, a property it holds; of
    an array, an element or [length]; of a string, a character or
    [length].  The other primitive values have no own property, and the
    prototype chain is not followed. *)
Definition own_property (s : store) (v : jsval) (k : string) : option jsval :=
  match v with
  | JRef r =>
      match deref s r with
      | Some (OObject props) => assoc k props
      | Some (OArray l) =>
          if String.eqb k "length" then Some (JPrim (PNum (number_of_nat (length l))))
          else element_named k l
      | None => None
      end
  | JPrim (PStr x) =>
      if String.eqb k "length" then Some (JPrim (PNum (number_of_nat (String.length x))))
      else element_named k (map (fun c => JPrim (PStr (String c ""))) (list_ascii_of_string x))
  | JPrim _ => None
  end.

Definition hasOwnProperty (s : store) (v : jsval) (k : string) : bool :=
  match own_property s v k with Some _ => true | None => false end.

(** [v[k]]: reading a property of [undefined] or [null] throws. *)
Definition get_property {S} (s : store) (v : jsval) (k : string) : M S jsval :=
  match v with
  | JPrim PUndefined | JPrim PNull =>
      throw ("TypeError: Cannot read property '" +:+ k +:+ "' of undefined")
  | _ => ret (match own_property s v k with Some x => x | None => undefined end)
  end.

(** [Object.keys(v)] *)
Definition object_keys {S} (s : store) (v : jsval) : M S (list string) :=
  match v with
  | JPrim PUndefined | JPrim PNull =>
      throw "TypeError: Cannot convert undefined or null to object"
  | JPrim (PStr x) => ret (map index_name (seq 0 (String.length x)))
  | JPrim _ => ret []
  | JRef r =>
      match deref s r with
      | Some (OObject props) => ret (map fst props)
      | Some (OArray l) => ret (map index_name (seq 0 (length l)))
      | None => ret []
      end
  end.

(** [typeof v === 'object'] and [v] is not [null]. *)
Definition is_object (v : jsval) : bool :=
  match v with JRef _ => true | JPrim _ => false end.

End JS.

(** ** The populate injectors ([buildInjector], Schema.js)

    Strings are sequences of code units; the three regular expressions only
    distinguish ASCII characters, and with the [i] flag no character beyond
    ASCII is folded onto an ASCII letter. *)

Module Injector.

(** The three expressions have one shape: an opening text, a captured name
    (one character of [_$a-z], then any number of [_$a-z0-9]) and a closing
    text, with the flags [i] and [g]. *)
Record rx := { rx_open : string; rx_close : string }.

Definition colon : rx := {| rx_open := ":"; rx_close := "" |}.
Definition doubleHandlebar : rx := {| rx_open := "{{"; rx_close := "}}" |}.
Definition handlebar : rx := {| rx_open := "{"; rx_close := "}" |}.

Definition in_range (lo hi : N) (c : ascii) : bool :=
  (lo <=? N_of_ascii c)%N && (N_of_ascii c <=? hi)%N.

(** [[a-z]] under the [i] flag. *)
Definition is_letter (c : ascii) : bool :=
  in_range 97 122 c || in_range 65 90 c.

(** [[_$a-z]] *)
Definition is_name_start (c : ascii) : bool :=
  Ascii.eqb c "_" || Ascii.eqb c "$" || is_letter c.

(** [[_$a-z0-9]] *)
Definition is_name_char (c : ascii) : bool :=
  is_name_start c || in_range 48 57 c.

(** The starred class [_$a-z0-9] followed by [close], at the head of [s]:
    the star is greedy and gives characters back when [close] does not
    follow.  Returns the characters the star kept. *)
Fixpoint match_rest (close : string) (s : string) : option string :=
  let stop := if String.prefix close s then Some "" else None in
  match s with
  | "" => stop
  | String c s' =>
      if is_name_char c then
        match match_rest close s' with
        | Some n => Some (String c n)
        | None => stop
        end
      else stop
  end.

(** [strip p s]: [s] without its prefix [p], when it has it. *)
Fixpoint strip (p s : string) : option string :=
  match p, s with
  | "", _ => Some s
  | String a p', String b s' => if Ascii.eqb a b then strip p' s' else None
  | String _ _, "" => None
  end.

(** The whole expression anchored at the head of [s]: [(match[0], match[1])]. *)
Definition match_at (r : rx) (s : string) : option (string * string) :=
  match strip (rx_open r) s with
  | Some (String c s') =>
      if is_name_start c then
        match match_rest (rx_close r) s' with
        | Some n => Some (rx_open r +:+ String c n +:+ rx_close r, String c n)
        | None => None
        end
      else None
  | _ => None
  end.

(** What [rx.exec] returns: [match.index], [match[0]], [match[1]]. *)
Record rmatch := { m_index : nat; m_0 : string; m_1 : string }.

(** The leftmost match in [s], the suffix of the subject at index [i]. *)
Fixpoint exec_from (r : rx) (s : string) (i : nat) : option rmatch :=
  match match_at r s with
  | Some (whole, name) => Some {| m_index := i; m_0 := whole; m_1 := name |}
  | None =>
      match s with
      | "" => None
      | String _ s' => exec_from r s' (S i)
      end
  end.

Fixpoint skipn_string (n : nat) (s : string) : string :=
  match n, s with
  | 0, _ => s
  | S n', String _ s' => skipn_string n' s'
  | S _, "" => ""
  end.

(** [rx.exec(value)] for a global expression whose [lastIndex] is [lastIndex]:
    the match (and the new [lastIndex]), or [null] (and [lastIndex] reset). *)
Definition exec (r : rx) (value : string) (lastIndex : nat) : option rmatch * nat :=
  match exec_from r (skipn_string lastIndex value) lastIndex with
  | Some m => (Some m, m_index m + String.length (m_0 m))
  | None => (None, 0)
  end.

(** [data[property]] read by the injector: [None] when it is [undefined],
    otherwise the text string concatenation makes of it. *)
Definition params := string -> option string.

(** The [while ((match = rx.exec(value)))] loop; every turn costs one unit of
    fuel. *)
Fixpoint loop (fuel : nat) (r : rx) (value : string) (data : params)
    (lastIndex : nat) (result : string) (offset : nat) : option string :=
  match fuel with
  | 0 => None
  | S fuel' =>
      match exec r value lastIndex with
      | (Some m, lastIndex') =>
          let property := m_1 m in
          let result' :=
            result +:+ (String.substring offset (m_index m - offset) value
                          +:+ match data property with
                              | Some v => v
                              | None => m_0 m
                              end) in
          loop fuel' r value data lastIndex' result' (m_index m + String.length (m_0 m))
      | (None, _) => Some (result +:+ skipn_string offset value)
      end
  end.

(** The function [buildInjector] returns.  A match is never empty, so the
    loop makes at most one turn per character and one more to fail. *)
Definition buildInjector (r : rx) (value : string) (data : params) : option string :=
  loop (S (String.length value)) r value data 0 "" 0.

Inductive replacement := Colon | DoubleHandlebar | Handlebar.

Definition rx_of (k : replacement) : rx :=
  match k with
  | Colon => colon
  | DoubleHandlebar => doubleHandlebar
  | Handlebar => handlebar
  end.

Definition populateInjectors (k : replacement) : string -> params -> option string :=
  buildInjector (rx_of k).

(** The injector as the specification words it: one pass over the template,
    left to right; at a parameter reference the parameter's value is written
    out when it is defined and the reference itself when it is not, and the
    scan resumes after the reference in the template.  [skip] counts the
    characters of a reference still to step over. *)
Fixpoint single_pass (r : rx) (data : params) (s : string) (skip : nat) : string :=
  match s with
  | "" => ""
  | String c s' =>
      match skip with
      | S k => single_pass r data s' k
      | 0 =>
          match match_at r s with
          | Some (whole, name) =>
              match data name with
              | Some v => v
              | None => whole
              end +:+ single_pass r data s' (String.length whole - 1)
          | None => String c (single_pass r data s' 0)
          end
      end
  end.

End Injector.

(** ** The definition normalizer ([definition-validator.js]) *)

Module Normalizer.
Import JS.

(** *** Walk contexts, callbacks and validators *)

(** A key leading from a node to a child: an array index or a property name. *)
Inductive jskey := KIndex (i : nat) | KName (s : string).

(** Where an exception collector is scoped: the keys [at] was called with. *)
Abbreviation path := (list jskey).

(** The state one walk shares: the objects created so far, the [map] of the
    definitions already seen to their results, the messages attached to
    the [exception] and [warn] trees, each at its path, in the order they
    were attached, and the arrays of type names that validators hold on to
    (an entry [None] is [undefined]), which [validateType] shortens. *)
Record wstate := {
  w_objs : heap;
  w_map : gmap ref jsval;
  w_errors : list (path * string);
  w_warnings : list (path * string);
  w_types : list (list (option string));
}.

(** A walk context as a callback reads it.  [parent] is a chain of these. *)
Record frame := {
  f_definition : jsval;
  f_definitionType : string;
  f_exception : path;
  f_key : option jskey;
  f_result : jsval;
  f_warn : path;
}.

(** What a callback receives: the context it is called on, its ancestors
    (nearest first), the version being enforced and the state of the walk. *)
Record cbdata := {
  cb_frame : frame;
  cb_parents : list frame;
  cb_major : nat;
  cb_minor : nat;
  cb_patch : nat;
  cb_state : wstate;
}.

(** What a callback may leave behind: messages on exception and warning
    collectors.  (Work pushed on [plugins] runs after the walk and is not
    part of it.) *)
Record report := {
  r_errors : list (path * string);
  r_warnings : list (path * string);
}.

(** A callback reads its context, reports, and returns or throws. *)
Definition callback (A : Type) : Type := cbdata -> M report A.

(** A descriptor field: a literal, or a callback computing it. *)
Inductive field (A : Type) : Type :=
| Literal (a : A)
| Callback (f : callback A).

Arguments Literal {A} a.
Arguments Callback {A} f.

(** What [type] holds or returns: one type name, or an array of them (an
    entry [None] is [undefined]).  [TMany] is an array no later call sees
    again: one made by the call that returns it, or one held by a descriptor
    that is itself made anew whenever it is asked for, as those of Schema.js
    are.  [TShared] is an array that lives on, at an address of [w_types]:
    what is popped off it stays off. *)
Inductive tyspec :=
| TOne (s : string)
| TMany (l : list (option string))
| TShared (a : addr).

(** The fields of a descriptor the normalizer reads.  [None] is an absent
    field.  Weights are the integer literals of the descriptors; every
    [default] of the repository's descriptors is a primitive. *)
Record descriptor_of (V : Type) : Type := {
  d_type : option (field tyspec);
  d_enum : option (field (list jsval));
  d_items : V;
  d_additionalProperties : V;
  d_properties : option (list (string * V));
  d_allowed : option (field bool);
  d_default : option (field prim);
  d_ignored : option (field bool);
  d_required : option (field bool);
  d_errors : option (callback unit);
  d_weight : option Z;
}.

Arguments d_type {V} d.
Arguments d_enum {V} d.
Arguments d_items {V} d.
Arguments d_additionalProperties {V} d.
Arguments d_properties {V} d.
Arguments d_allowed {V} d.
Arguments d_default {V} d.
Arguments d_ignored {V} d.
Arguments d_required {V} d.
Arguments d_errors {V} d.
Arguments d_weight {V} d.

(** The values found where a validator is expected. *)
#[local] Set Warnings "-register-all".
Inductive validator :=
| VUndefined
| VBoolean (b : bool)
| VString (s : string)
| VFunction (f : callback validator)
| VEnforcerRef (value : string) (config : validator)
| VDescriptor (d : descriptor_of validator).

#[local] Set Warnings "register-all".

Abbreviation descriptor := (descriptor_of validator).

(** The walk context [data]. [context], [plugins] and [root] are handed down
    unchanged and [map] is one shared object: they are kept in the
    environment and in the state. *)
Record data := {
  definition : jsval;
  definitionType : string;
  exception : path;
  key : option jskey;
  major : nat;
  minor : nat;
  patch : nat;
  parent : list frame;
  result : jsval;
  validator_of : validator;
  warn : path;
}.

(** What lies outside [definition-validator.js]: the raw definition, the
    component table, and the helpers of [util]. *)
Record Env := {
  (** the objects of the raw definition; the walk reads them and never
      writes them *)
  defs : heap;
  (** [data.context[name]]: the validator of the component class [name] *)
  context : string -> option validator;
  (** [util.smart] *)
  util_smart : jsval -> string;
  (** [util.copy]: a deep copy, made of new objects *)
  util_copy : jsval -> heap -> jsval * heap;
  (** ToString, as [Array.prototype.join] applies it *)
  to_string : jsval -> string;
}.

(** The walker proper is recursive through [runChildValidator]; it is
    defined with fuel, and [None] is a walk that ran out of it. *)
Definition W (A : Type) : Type := wstate -> option (completion A * wstate).

Definition wret {A} (a : A) : W A := fun st => Some (Ok a, st).

Definition wbind {A B} (c : W A) (k : A -> W B) : W B :=
  fun st =>
    match c st with
    | Some (Ok a, st') => k a st'
    | Some (Throw err, st') => Some (Throw err, st')
    | None => None
    end.

Definition lift {A} (c : M wstate A) : W A := fun st => Some (c st).

Notation "'let!' x ':=' c 'in' k" := (wbind c (fun x => k))
  (at level 10, x pattern, c at level 100, k at level 200).

Definition set_objs (h : heap) (st : wstate) : wstate :=
  {| w_objs := h; w_map := w_map st; w_errors := w_errors st; w_warnings := w_warnings st;
     w_types := w_types st |}.

Definition set_map (m : gmap ref jsval) (st : wstate) : wstate :=
  {| w_objs := w_objs st; w_map := m; w_errors := w_errors st; w_warnings := w_warnings st;
     w_types := w_types st |}.

Definition set_types (t : list (list (option string))) (st : wstate) : wstate :=
  {| w_objs := w_objs st; w_map := w_map st; w_errors := w_errors st;
     w_warnings := w_warnings st; w_types := t |}.

Definition add_messages (errs warns : list (path * string)) (st : wstate) : wstate :=
  {| w_objs := w_objs st; w_map := w_map st;
     w_errors := (w_errors st ++ errs)%list;
     w_warnings := (w_warnings st ++ warns)%list;
     w_types := w_types st |}.

(** [exception.message(text)] on the collector scoped at [p] *)
Definition message (p : path) (text : string) : M wstate unit :=
  fun st => (Ok tt, add_messages [(p, text)] [] st).

(** [exception.at(key)] *)
Definition at_key (p : path) (k : jskey) : path := (p ++ [k])%list.

Definition frame_of (d : data) : frame :=
  {| f_definition := definition d;
     f_definitionType := definitionType d;
     f_exception := exception d;
     f_key := key d;
     f_result := result d;
     f_warn := warn d |}.

Definition cbdata_of (d : data) (st : wstate) : cbdata :=
  {| cb_frame := frame_of d;
     cb_parents := parent d;
     cb_major := major d;
     cb_minor := minor d;
     cb_patch := patch d;
     cb_state := st |}.

Definition set_validator (v : validator) (d : data) : data :=
  {| definition := definition d; definitionType := definitionType d;
     exception := exception d; key := key d;
     major := major d; minor := minor d; patch := patch d;
     parent := parent d; result := result d; validator_of := v; warn := warn d |}.

Definition set_result (v : jsval) (d : data) : data :=
  {| definition := definition d; definitionType := definitionType d;
     exception := exception d; key := key d;
     major := major d; minor := minor d; patch := patch d;
     parent := parent d; result := v; validator_of := validator_of d;
     warn := warn d |}.

Definition set_definition (v : jsval) (ty : string) (d : data) : data :=
  {| definition := v; definitionType := ty;
     exception := exception d; key := key d;
     major := major d; minor := minor d; patch := patch d;
     parent := parent d; result := result d; validator_of := validator_of d;
     warn := warn d |}.

(** [value(params)]: the callback runs on the context and the current state;
    what it reported is attached, whether it returned or threw. *)
Definition call {A} (f : callback A) (params : data) : M wstate (completion A) :=
  fun st =>
    let '(o, rep) := f (cbdata_of params st) {| r_errors := []; r_warnings := [] |} in
    (Ok o, add_messages (r_errors rep) (r_warnings rep) st).

Definition unexpected (err : string) : string :=
  "Unexpected error encountered: " +:+ err.

(** [fn(value, params)] on a descriptor field: a function is called, and a
    throw of it is caught, recorded, and answered by [undefined] ([None]);
    any other value is returned as it is. *)
Definition fn {A} (value : field A) (params : data) : M wstate (option A) :=
  match value with
  | Callback f =>
      let* o := call f params in
      match o with
      | Ok a => ret (Some a)
      | Throw err =>
          let* _ := message (exception params) (unexpected err) in
          ret None
      end
  | Literal a => ret (Some a)
  end.

(** [fn(data.validator, data)] *)
Definition fn_validator (value : validator) (params : data) : M wstate validator :=
  match value with
  | VFunction f =>
      let* o := fn (Callback f) params in
      ret (match o with Some v => v | None => VUndefined end)
  | v => ret v
  end.

(** [fn(validator.errors, d)] *)
Definition fn_errors (value : callback unit) (params : data) : M wstate unit :=
  let* _ := fn (Callback value) params in ret tt.

(** *** Reading and writing objects *)

Section Walk.

Variable E : Env.

Definition store_of (st : wstate) : store :=
  {| s_defs := defs E; s_objs := w_objs st |}.

(** Modelled from the spec: [util.getDefinitionType] (util.js is not among
    the sources).  The definition type is one of array, object, boolean,
    number, string, null and undefined. *)
Definition getDefinitionType (s : store) (v : jsval) : string :=
  match v with
  | JPrim PUndefined => "undefined"
  | JPrim PNull => "null"
  | JPrim (PBool _) => "boolean"
  | JPrim (PNum _) => "number"
  | JPrim (PStr _) => "string"
  | JRef r =>
      match deref s r with
      | Some (OArray _) => "array"
      | _ => "object"
      end
  end.

(** [v[key]] *)
Definition get_key (v : jsval) (k : jskey) : M wstate jsval :=
  fun st =>
    match k, v with
    | KIndex i, JRef r =>
        match deref (store_of st) r with
        | Some (OArray l) => (Ok (default undefined (l !! i)), st)
        | _ => get_property (store_of st) v (index_name i) st
        end
    | KIndex i, _ => get_property (store_of st) v (index_name i) st
    | KName n, _ => get_property (store_of st) v n st
    end.

(** [[]] and [{}]: a new object, at the next free address. *)
Definition alloc (o : jsobj) : M wstate jsval :=
  fun st => (Ok (JRef (Obj (length (w_objs st)))), set_objs (w_objs st ++ [o])%list st).

(** [result.push(v)] *)
Definition push (target v : jsval) : M wstate unit :=
  fun st =>
    match target with
    | JRef (Obj a) =>
        match w_objs st !! a with
        | Some (OArray l) => (Ok tt, set_objs (<[a := OArray (l ++ [v])%list]> (w_objs st)) st)
        | _ => (Throw "TypeError: result.push is not a function", st)
        end
    | _ => (Throw "TypeError: result.push is not a function", st)
    end.

(** [result[key] = v].  The file is in strict mode: assigning a property of
    a primitive throws.  The objects of the raw definition are not written
    by the walk; an assignment aimed at one is answered as a frozen object
    answers it.  Arrays are given no named properties. *)
Definition set_property (target : jsval) (k : string) (v : jsval) : M wstate unit :=
  fun st =>
    match target with
    | JRef (Obj a) =>
        match w_objs st !! a with
        | Some (OObject props) =>
            (Ok tt, set_objs (<[a := OObject (assoc_set k v props)]> (w_objs st)) st)
        | _ => (Throw ("TypeError: Cannot set property '" +:+ k +:+ "'"), st)
        end
    | _ => (Throw ("TypeError: Cannot set property '" +:+ k +:+ "'"), st)
    end.

(** [Object.keys(v)] and [Object.assign(target, source)] in the state. *)
Definition keys_of (v : jsval) : M wstate (list string) :=
  fun st => object_keys (store_of st) v st.

Definition object_assign (target source : jsval) : M wstate unit :=
  match source with
  | JPrim PUndefined | JPrim PNull => ret tt
  | _ =>
      let* ks := keys_of source in
      forEach ks (fun k =>
        let* v := get_key source (KName k) in
        set_property target k v)
  end.

(** [validator.p]: reading a property of [undefined] throws; a descriptor
    gives its field; the other values (booleans, strings, functions,
    enforcer references) have none of the properties read by the walk. *)
Definition prop {A} (get : descriptor -> option A) (v : validator) : M wstate (option A) :=
  match v with
  | VUndefined => throw "TypeError: Cannot read property of undefined"
  | VDescriptor d => ret (get d)
  | _ => ret None
  end.

(** The same read on a value already known not to be [undefined]. *)
Definition vprop {A} (get : descriptor -> option A) (v : validator) : option A :=
  match v with
  | VDescriptor d => get d
  | _ => None
  end.

(** [validator.items] and [validator.additionalProperties] *)
Definition prop_validator (get : descriptor -> validator) (v : validator) : M wstate validator :=
  match v with
  | VUndefined => throw "TypeError: Cannot read property of undefined"
  | VDescriptor d => ret (get d)
  | _ => ret VUndefined
  end.

(** ToBoolean of a value found where a validator is expected. *)
Definition validator_truthy (v : validator) : bool :=
  match v with
  | VUndefined => false
  | VBoolean b => b
  | VString s => negb (String.eqb s "")
  | _ => true
  end.

(** [EnforcerRef.isEnforcerRef(validator) ? validator.config || {} : validator] *)
Definition empty_descriptor : descriptor :=
  {| d_type := None; d_enum := None; d_items := VUndefined;
     d_additionalProperties := VUndefined; d_properties := None;
     d_allowed := None; d_default := None; d_ignored := None;
     d_required := None; d_errors := None; d_weight := None |}.

Definition keyValidator_of (v : validator) : validator :=
  match v with
  | VEnforcerRef _ config =>
      if validator_truthy config then config else VDescriptor empty_descriptor
  | _ => v
  end.

(** *** [childData] *)

Definition childData (parent_data : data) (key : jskey) (validator : validator) : M wstate data :=
  let* definition := get_key (definition parent_data) key in
  fun st =>
    let definitionType := getDefinitionType (store_of st) definition in
    (let* result :=
       if String.eqb definitionType "array" then alloc (OArray [])
       else if String.eqb definitionType "object" then alloc (OObject [])
       else ret definition in
     ret {| definition := definition;
            definitionType := definitionType;
            exception := at_key (exception parent_data) key;
            key := Some key;
            major := major parent_data;
            minor := minor parent_data;
            patch := patch parent_data;
            parent := frame_of parent_data :: parent parent_data;
            result := result;
            validator_of := validator;
            warn := at_key (warn parent_data) key |}) st.

(** *** [validateType] *)

Definition expectedTypeMessage (type : option string) : string :=
  match type with
  | Some "array" => "an array"
  | Some "object" => "a plain object"
  | Some t => "a " +:+ t
  | None => "a undefined"
  end.

(** ToBoolean of [validator.type]. *)
Definition type_truthy (t : field tyspec) : bool :=
  match t with
  | Literal (TOne s) => negb (String.eqb s "")
  | _ => true
  end.

(** [matches] after [if (!Array.isArray(matches)) matches = [ matches ]];
    [None] is [undefined], what [fn] answers when the callback threw.  An
    address that holds no array stands for an empty one. *)
Definition type_matches (st : wstate) (m : option tyspec) : list (option string) :=
  match m with
  | Some (TMany l) => l
  | Some (TShared a) => default [] (w_types st !! a)
  | Some (TOne s) => [Some s]
  | None => [None]
  end.

(** [matches.pop()] (line 279), which an array that lives on remembers. *)
Definition pop_type (m : option tyspec) : M wstate unit :=
  fun st =>
    match m with
    | Some (TShared a) => (Ok tt, set_types (alter (fun l => removelast l) a (w_types st)) st)
    | _ => (Ok tt, st)
    end.

(** The text after "Value must be ", from [matches] as it was before the
    last name was popped off. *)
Definition type_message (matches : list (option string)) : string :=
  match matches with
  | [a] => expectedTypeMessage a
  | [a; b] => expectedTypeMessage a +:+ " or " +:+ expectedTypeMessage b
  | _ =>
      String.concat ", " (map expectedTypeMessage (removelast matches))
        +:+ ", or " +:+ expectedTypeMessage (List.last matches None)
  end.

(** [validateType] reads [data.validator], which [normalize] has not
    replaced by the validator it resolved. *)
Definition validateType (definitionType : string) (d : data) : M wstate bool :=
  let* type := prop d_type (validator_of d) in
  match type with
  | Some t =>
      if type_truthy t && negb (strict_equal (definition d) undefined) then
        let* m := fn t d in
        let* matches := fun st => (Ok (type_matches st m), st) in
        if existsb (fun x => bool_decide (x = Some definitionType)) matches then ret true
        else
          let* _ :=
            match matches with
            | [_] | [_; _] => ret tt
            | _ => pop_type m
            end in
          let* _ := message (exception d)
                      ("Value must be " +:+ type_message matches +:+ ". Received: "
                         +:+ util_smart E (definition d)) in
          ret false
      else ret true
  | None => ret true
  end.

(** *** The steps of [normalize] before the dispatch *)

(** Lines 70-74: a definition that is an object is looked up in [map]; one
    already there with a truthy result ends the walk of this node, any other
    is entered with the result of this context. *)
Definition cycle_guard (d : data) : M wstate (option jsval) :=
  fun st =>
    match definition d with
    | JRef r =>
        match w_map st !! r with
        | Some existing =>
            if truthy existing then (Ok (Some existing), st)
            else (Ok None, set_map (<[r := result d]> (w_map st)) st)
        | None => (Ok None, set_map (<[r := result d]> (w_map st)) st)
        end
    | JPrim _ => (Ok None, st)
    end.

(** Lines 77-84: the enum check. *)
Definition enum_message (matches : list jsval) (definition : jsval) : string :=
  match matches with
  | [m0] => "Value must be " +:+ util_smart E m0 +:+ ". Received: " +:+ util_smart E definition
  | _ => "Value must be one of: " +:+ String.concat ", " (map (to_string E) matches)
           +:+ ". Received: " +:+ util_smart E definition
  end.

Definition check_enum (validator : validator) (d : data) : M wstate unit :=
  let* enum := prop d_enum validator in
  match enum with
  | Some e =>
      let* m := fn e d in
      match m with
      | Some matches =>
          if includes matches (definition d) then ret tt
          else message (exception d) (enum_message matches (definition d))
      | None => throw "TypeError: Cannot read property 'includes' of undefined"
      end
  | None => ret tt
  end.

(** *** [runChildValidator] *)

(** Modelled from the spec: the component classes [data.context[name]] and
    their constructor (super.js is not among the sources).  "Construct an
    instance of ctx.context[ref.value], passing a frozen walk-state
    carrier"; each such node "is an instance of a component class with the
    result map's properties defined on it", and the component's descriptor
    is "the descriptor used to normalize" its nodes.  The instance is the
    node normalized under the component's validator; a name the table does
    not hold is not a constructor. *)
Definition construct (normalize : data -> W jsval) (value : string) (d : data) : W jsval :=
  match context E value with
  | Some v => normalize (set_validator v d)
  | None => lift (throw ("TypeError: data.context." +:+ value +:+ " is not a constructor"))
  end.

Definition runChildValidator (normalize : data -> W jsval) (d : data) : W jsval :=
  let! validator := lift (fn_validator (validator_of d) d) in
  let d := set_validator validator d in
  match validator with
  | VEnforcerRef value config =>
      if String.eqb (definitionType d) "boolean" then
        normalize (set_validator config d)
      else if String.eqb (definitionType d) "object" then
        construct normalize value d
      else
        let! _ := lift (message (exception d) "Value must be a plain object") in
        wret undefined
  | _ =>
      if validator_truthy validator then normalize d
      else wret (result d)
  end.

(** *** The array branch *)

Fixpoint wforEach {A} (l : list A) (body : A -> W unit) : W unit :=
  match l with
  | [] => wret tt
  | x :: l' => let! _ := body x in wforEach l' body
  end.

(** The indices [definition.forEach] visits. *)
Definition array_indices (v : jsval) : M wstate (list nat) :=
  fun st =>
    match v with
    | JRef r =>
        match deref (store_of st) r with
        | Some (OArray l) => (Ok (seq 0 (length l)), st)
        | _ => (Throw "TypeError: definition.forEach is not a function", st)
        end
    | _ => (Throw "TypeError: definition.forEach is not a function", st)
    end.

Definition normalize_array (normalize : data -> W jsval) (d : data)
    (validator : validator) : W unit :=
  let! indices := lift (array_indices (definition d)) in
  wforEach indices (fun i =>
    let! items := lift (prop_validator d_items validator) in
    let! child := lift (childData d (KIndex i) items) in
    let! v := runChildValidator normalize child in
    lift (push (result d) v)).

(** *** The object branch *)

(** ToBoolean of [keyValidator.ignored] and of [keyValidator.required]. *)
Definition flag_truthy (f : option (field bool)) : bool :=
  match f with
  | Some (Literal b) => b
  | Some (Callback _) => true
  | None => false
  end.

(** [flag && fn(flag, data)] *)
Definition flag_holds (f : option (field bool)) (d : data) : M wstate bool :=
  match f with
  | Some x =>
      if flag_truthy f then
        let* o := fn x d in ret (default false o)
      else ret false
  | None => ret false
  end.

(** [keyValidator.hasOwnProperty('allowed') ? fn(keyValidator.allowed, data) : true] *)
Definition allowed_of (keyValidator : validator) (d : data) : M wstate bool :=
  let* a := prop d_allowed keyValidator in
  match a with
  | Some x => let* o := fn x d in ret (default false o)
  | None => ret true
  end.

(** The property name [result[key]] is assigned under. *)
Definition key_name (k : option jskey) : string :=
  match k with
  | Some (KName s) => s
  | Some (KIndex i) => index_name i
  | None => "undefined"
  end.

(** [d = Object.assign({}, data); d.definition = v; fn(errors, d)] *)
Definition run_errors (errors : option (callback unit)) (d : data) (v : jsval) : M wstate unit :=
  match errors with
  | Some f => fn_errors f (set_definition v (definitionType d) d)
  | None => ret tt
  end.

(** Lines 104-126: one key of the definition, a child under
    [validator.additionalProperties].  Returns [notAllowed]. *)
Definition normalize_additional_key (normalize : data -> W jsval) (d : data)
    (validator : validator) (key : string) (notAllowed : list string) : W (list string) :=
  let! ap := lift (prop_validator d_additionalProperties validator) in
  let! child := lift (childData d (KName key) ap) in
  let keyValidator := keyValidator_of (validator_of child) in
  let! allowed := lift (allowed_of keyValidator child) in
  if negb (strict_equal (definition child) undefined) then
    if negb allowed then wret (notAllowed ++ [key])%list
    else
      let! skip := lift (flag_holds (vprop d_ignored keyValidator) child) in
      if skip then wret notAllowed
      else
        let! v := runChildValidator normalize child in
        let! _ := lift (set_property (result d) key v) in
        let! stored := lift (get_key (result d) (KName key)) in
        let! _ := lift (run_errors (vprop d_errors keyValidator) child stored) in
        wret notAllowed
  else wret notAllowed.

Fixpoint normalize_additional (normalize : data -> W jsval) (d : data)
    (validator : validator) (keys : list string) (notAllowed : list string)
    : W (list string) :=
  match keys with
  | [] => wret notAllowed
  | key :: keys' =>
      let! notAllowed' := normalize_additional_key normalize d validator key notAllowed in
      normalize_additional normalize d validator keys' notAllowed'
  end.

(** [rxExtension = /^x-.+/]: the dot matches any character but a line
    terminator. *)
Definition rxExtension_test (k : string) : bool :=
  match k with
  | String "x" (String "-" (String c _)) =>
      negb (Ascii.eqb c "010" || Ascii.eqb c "013")
  | _ => false
  end.

(** Modelled from the spec: [util.arrayRemoveItem] (util.js is not among the
    sources): "remove the key from [unknownKeys]". *)
Fixpoint arrayRemoveItem (l : list string) (item : string) : list string :=
  match l with
  | [] => []
  | x :: l' => if String.eqb x item then l' else x :: arrayRemoveItem l' item
  end.

(** Lines 131-137: extension values are copied as they are, the other keys
    are unknown until a property claims them.  Returns [unknownKeys]. *)
Fixpoint organize (d : data) (keys : list string) (unknownKeys : list string)
    : M wstate (list string) :=
  match keys with
  | [] => ret unknownKeys
  | key :: keys' =>
      if rxExtension_test key then
        let* v := get_key (definition d) (KName key) in
        let* _ := set_property (result d) key v in
        organize d keys' unknownKeys
      else organize d keys' (unknownKeys ++ [key])%list
  end.

(** An element of [properties]: [{ data, weight }]. *)
Record property := { p_data : data; p_weight : Z }.

(** Lines 140-148.  The keys of [validator.properties] are distinct, so
    [validator.properties[key]] is the validator listed with [key]. *)
Fixpoint build_properties (d : data) (props : list (string * validator))
    (unknownKeys : list string) : M wstate (list property * list string) :=
  match props with
  | [] => ret ([], unknownKeys)
  | (key, prop_validator) :: props' =>
      let unknownKeys := arrayRemoveItem unknownKeys key in
      let* child := childData d (KName key) prop_validator in
      let* weight := prop d_weight prop_validator in
      let* (properties, unknownKeys) := build_properties d props' unknownKeys in
      ret ({| p_data := child; p_weight := default 0%Z weight |} :: properties, unknownKeys)
  end.

(** [a.data.key < b.data.key] *)
Definition key_lt (a b : option jskey) : bool :=
  match a, b with
  | Some (KName x), Some (KName y) => String.ltb x y
  | Some (KIndex i), Some (KIndex j) => Nat.ltb i j
  | _, _ => false
  end.

(** The comparison function of lines 149-153. *)
Definition compare_properties (a b : property) : Z :=
  if (p_weight a <? p_weight b)%Z then (-1)%Z
  else if (p_weight a >? p_weight b)%Z then 1%Z
  else if key_lt (key (p_data a)) (key (p_data b)) then (-1)%Z else 1%Z.

(** [Array.prototype.sort(compare)].  The language asks for a stable sort
    and leaves the algorithm open; this is insertion sort, each element
    going after those [compare] does not place behind it. *)
Fixpoint sort_insert {A} (compare : A -> A -> Z) (x : A) (l : list A) : list A :=
  match l with
  | [] => [x]
  | y :: l' =>
      if (compare x y <? 0)%Z then x :: y :: l'
      else y :: sort_insert compare x l'
  end.

Definition array_sort {A} (compare : A -> A -> Z) (l : list A) : list A :=
  fold_left (fun sorted x => sort_insert compare x sorted) l [].

(** Lines 156-180: one known property.  [acc] is
    [(missingRequired, notAllowed)]. *)
Definition normalize_property (normalize : data -> W jsval) (target : jsval)
    (p : property) (acc : list string * list string) : W (list string * list string) :=
  let '(missingRequired, notAllowed) := acc in
  let data := p_data p in
  let key := key_name (key data) in
  let validator := validator_of data in
  let keyValidator := keyValidator_of validator in
  let! allowed := lift (allowed_of keyValidator data) in
  (* set default value *)
  let! data :=
    match vprop d_default validator with
    | Some dflt =>
        if strict_equal (definition data) undefined && allowed then
          let! v := lift (fn dflt data) in
          let definition := JPrim (default PUndefined v) in
          fun st => wret (set_definition definition
                            (getDefinitionType (store_of st) definition) data) st
        else wret data
    | None => wret data
    end in
  if negb (strict_equal (definition data) undefined) then
    if negb allowed then wret (missingRequired, (notAllowed ++ [key])%list)
    else
      let! skip := lift (flag_holds (vprop d_ignored keyValidator) data) in
      if skip then wret (missingRequired, notAllowed)
      else
        let! v := runChildValidator normalize data in
        let! _ := lift (set_property target key v) in
        wret (missingRequired, notAllowed)
  else if allowed then
    let! required := lift (flag_holds (vprop d_required keyValidator) data) in
    if required then wret ((missingRequired ++ [key])%list, notAllowed)
    else wret (missingRequired, notAllowed)
  else wret (missingRequired, notAllowed).

Fixpoint normalize_properties (normalize : data -> W jsval) (target : jsval)
    (properties : list property) (acc : list string * list string)
    : W (list string * list string) :=
  match properties with
  | [] => wret acc
  | p :: properties' =>
      let! acc' := normalize_property normalize target p acc in
      normalize_properties normalize target properties' acc'
  end.

(** Lines 128-181, the structured object.  Returns
    [(missingRequired, notAllowed, unknownKeys)]. *)
Definition normalize_structured (normalize : data -> W jsval) (d : data)
    (validator : validator) (keys : list string)
    : W (list string * list string * list string) :=
  let! unknownKeys := lift (organize d keys []) in
  let! (properties, unknownKeys) :=
    lift (build_properties d (default [] (vprop d_properties validator)) unknownKeys) in
  let properties := array_sort compare_properties properties in
  let! (missingRequired, notAllowed) :=
    normalize_properties normalize (result d) properties ([], []) in
  wret (missingRequired, notAllowed, unknownKeys).

(** Lines 183-192. *)
Definition plural (n : nat) (one many : string) : string :=
  if Nat.eqb n 1 then one else many.

Definition report_keys (d : data) (missingRequired notAllowed unknownKeys : list string)
    : M wstate unit :=
  let notAllowed := (notAllowed ++ unknownKeys)%list in
  let* _ :=
    if negb (Nat.eqb (length notAllowed) 0) then
      message (exception d)
        ("Propert" +:+ plural (length notAllowed) "y" "ies" +:+ " not allowed: "
           +:+ String.concat ", " notAllowed)
    else ret tt in
  if negb (Nat.eqb (length missingRequired) 0) then
    message (exception d)
      ("Missing required propert" +:+ plural (length missingRequired) "y" "ies" +:+ ": "
         +:+ String.concat ", " missingRequired)
  else ret tt.

(** Lines 92-192. *)
Definition normalize_object (normalize : data -> W jsval) (d : data)
    (validator : validator) : W unit :=
  let! (missingRequired, notAllowed, unknownKeys) :=
    match validator with
    | VBoolean true =>
        let! copy := lift (fun st =>
                       let '(c, h) := util_copy E (definition d) (w_objs st) in
                       (Ok c, set_objs h st)) in
        let! _ := lift (object_assign (result d) copy) in
        wret ([], [], [])
    | VBoolean false =>
        let! keys := lift (keys_of (definition d)) in
        wret ([], keys, [])
    | _ =>
        let! ap := lift (prop_validator d_additionalProperties validator) in
        let! keys := lift (keys_of (definition d)) in
        if validator_truthy ap then
          let! notAllowed := normalize_additional normalize d validator keys [] in
          wret ([], notAllowed, [])
        else normalize_structured normalize d validator keys
    end in
  lift (report_keys d missingRequired notAllowed unknownKeys).

(** Lines 86-205: the dispatch on [definitionType].  Returns [data.result]
    as the branch leaves it. *)
(** Modelled from the spec: the exception collector called as a function
    (exception.js is not among the sources): for any other type, "attach
    Unknown data type". *)
Definition unknown_data_type (d : data) : M wstate unit :=
  message (exception d) "Unknown data type provided".

Definition dispatch (normalize : data -> W jsval) (d : data) (validator : validator)
    : W jsval :=
  if String.eqb (definitionType d) "array" then
    let! _ := normalize_array normalize d validator in wret (result d)
  else if String.eqb (definitionType d) "object" then
    let! _ := normalize_object normalize d validator in wret (result d)
  else if String.eqb (definitionType d) "boolean"
          || String.eqb (definitionType d) "number"
          || String.eqb (definitionType d) "string" then
    wret (definition d)
  else
    let! _ := lift (unknown_data_type d) in wret (result d).

(** *** [normalize] *)

(** The body of the [try] block.  Its value is what [normalize] returns when
    nothing was thrown: [undefined] after a failed type check, the known
    result of a definition seen before, [data.result] otherwise. *)
Definition normalize_try (normalize : data -> W jsval) (d : data) : W jsval :=
  (* generate the plain validator object *)
  let! validator := lift (fn_validator (validator_of d) d) in
  (* if type is invalid then exit *)
  let! valid := lift (validateType (definitionType d) d) in
  if negb valid then wret undefined
  else
    let! existing := lift (cycle_guard d) in
    match existing with
    | Some known => wret known
    | None =>
        let! _ := lift (check_enum validator d) in
        let! result := dispatch normalize d validator in
        (* run custom error validation check *)
        let! errors := lift (prop d_errors validator) in
        let! _ := lift (run_errors errors (set_result result d) result) in
        wret result
    end.

(** [normalize]: the [try] block, and the [catch] that records what was
    thrown and lets [data.result] be returned.  Nothing can throw between
    the assignment [data.result = definition] and the end of the block
    ([validator.enum] was read on the same validator before, and [fn]
    catches), so what the [catch] returns is the result the context came
    with. *)
Fixpoint normalize (fuel : nat) (d : data) : W jsval :=
  fun st =>
    match fuel with
    | 0 => None
    | S fuel' =>
        match normalize_try (normalize fuel') d st with
        | Some (Ok v, st') => Some (Ok v, st')
        | Some (Throw err, st') =>
            Some (Ok (result d), add_messages [(exception d, unexpected err)] [] st')
        | None => None
        end
    end.

End Walk.

End Normalizer.

(** ** The Schema enforcer ([src/enforcers/Schema.js]) *)

Module Schema.
Import JS Normalizer.

(** The double quote, for the messages that quote a property name. *)
Definition dq : string := String (ascii_of_nat 34) "".

(** What the language does and the sources do not show: ToNumber of a
    string and of an object; ToPropertyKey, with the values it returns on
    ([key_converts]: on an object that has no primitive value it throws a
    [TypeError]); and what a value that does not own a property finds for it
    on its prototype chain ([inherited s v k], as a value of the model;
    [None] when it finds nothing). *)
Record Lang := {
  string_to_number : string -> float;
  object_to_number : store -> ref -> float;
  to_property_key : jsval -> string;
  key_converts : store -> jsval -> bool;
  inherited : store -> jsval -> string -> option jsval;
}.

Section Methods.

Variable L : Lang.

(** ToNumber, the unary [+] *)
Definition to_number (s : store) (v : jsval) : float :=
  match v with
  | JPrim PUndefined => PrimFloat.nan
  | JPrim PNull => PrimFloat.zero
  | JPrim (PBool b) => if b then PrimFloat.one else PrimFloat.zero
  | JPrim (PNum n) => n
  | JPrim (PStr x) => string_to_number L x
  | JRef r => object_to_number L s r
  end.

(** [a > b]: two strings are compared as strings, anything else as
    numbers. *)
Definition js_gt (s : store) (a b : jsval) : bool :=
  match a, b with
  | JPrim (PStr x), JPrim (PStr y) => String.ltb y x
  | _, _ => PrimFloat.ltb (to_number s b) (to_number s a)
  end.

(** [a && b] *)
Definition js_and (a b : jsval) : jsval := if truthy a then b else a.

(** *** [minMaxValid] *)

Definition minMaxValid (s : store) (minimum maximum exclusiveMinimum exclusiveMaximum : jsval)
    : bool :=
  if strict_equal minimum undefined || strict_equal maximum undefined then true
  else
    let minimum := to_number s minimum in
    let maximum := to_number s maximum in
    PrimFloat.ltb minimum maximum
    || (negb (truthy exclusiveMinimum) && negb (truthy exclusiveMaximum)
        && PrimFloat.eqb minimum maximum).

(** *** The [errors] callback of the Schema validator (lines 607-648) *)

(** [exception.message(text)] inside a callback *)
Definition emit (p : path) (text : string) : M report unit :=
  fun r => (Ok tt, {| r_errors := (r_errors r ++ [(p, text)])%list;
                      r_warnings := r_warnings r |}).

Definition min_max_message (name : string) : string :=
  "Property " +:+ dq +:+ "min" +:+ name +:+ dq +:+ " must be less than or equal to "
    +:+ dq +:+ "max" +:+ name +:+ dq.

(** [if (!minMaxValid(result.minX, result.maxX)) exception.message(...)] *)
Definition check_min_max (s : store) (exception : path) (result : jsval) (name : string)
    : M report unit :=
  let* minimum := get_property s result ("min" +:+ name) in
  let* maximum := get_property s result ("max" +:+ name) in
  if negb (minMaxValid s minimum maximum undefined undefined) then
    emit exception (min_max_message name)
  else ret tt.

Definition check_required (s : store) (exception : path) (result : jsval) : M report unit :=
  let* required := get_property s result "required" in
  if truthy required && hasOwnProperty s result "maxProperties" then
    let* length := get_property s required "length" in
    let* maxProperties := get_property s result "maxProperties" in
    if js_gt s length maxProperties then
      emit exception
        ("There are more required properties than is allows by " +:+ dq +:+ "maxProperties"
           +:+ dq +:+ " contraint")
    else ret tt
  else ret tt.

Definition minimum_message (exclusiveMinimum exclusiveMaximum : jsval) : string :=
  let msg := if truthy exclusiveMinimum || truthy exclusiveMaximum then "" else "or equal to " in
  "Property " +:+ dq +:+ "minimum" +:+ dq +:+ " must be less than " +:+ msg
    +:+ dq +:+ "maximum" +:+ dq.

Definition check_minimum (s : store) (exception : path) (result : jsval) : M report unit :=
  let* minimum := get_property s result "minimum" in
  let* maximum := get_property s result "maximum" in
  let* exclusiveMinimum := get_property s result "exclusiveMinimum" in
  let* exclusiveMaximum := get_property s result "exclusiveMaximum" in
  if negb (minMaxValid s minimum maximum exclusiveMinimum exclusiveMaximum) then
    emit exception (minimum_message exclusiveMinimum exclusiveMaximum)
  else ret tt.

Definition check_properties (s : store) (exception : path) (result : jsval) : M report unit :=
  if hasOwnProperty s result "properties" then
    let* properties := get_property s result "properties" in
    let* keys := object_keys s properties in
    forEach keys (fun key =>
      let* v := get_property s properties key in
      let* readOnly := get_property s v "readOnly" in
      if truthy readOnly then
        let* writeOnly := get_property s v "writeOnly" in
        if truthy writeOnly then
          emit (at_key (at_key exception (KName "properties")) (KName key))
            "Cannot be marked as both readOnly and writeOnly"
        else ret tt
      else ret tt)
  else ret tt.

(** validate that zero or one composite has been defined *)
Definition composites_of (s : store) (result : jsval) : list string :=
  List.filter (fun composite => hasOwnProperty s result composite)
    ["allOf"; "anyOf"; "oneOf"; "not"].

Definition composites_message (composites : list string) : string :=
  "Cannot have multiple composites: " +:+ String.concat ", " composites.

Definition check_composites (s : store) (exception : path) (result : jsval) : M report unit :=
  let composites := composites_of s result in
  if Nat.ltb 1 (length composites) then emit exception (composites_message composites)
  else ret tt.

(** [errors: (data) => { ... }].  [defs] are the objects of the raw
    definition, which the result may still refer to. *)
Definition schema_errors (defs : heap) : callback unit :=
  fun data =>
    let s := {| s_defs := defs; s_objs := w_objs (cb_state data) |} in
    let exception := f_exception (cb_frame data) in
    let result := f_result (cb_frame data) in
    let* _ := check_min_max s exception result "Items" in
    let* _ := check_min_max s exception result "Length" in
    let* _ := check_min_max s exception result "Properties" in
    let* _ := check_required s exception result in
    let* _ := check_minimum s exception result in
    let* _ := check_properties s exception result in
    check_composites s exception result.

(** *** [discriminate] (lines 57-85) *)

(** What [discriminate] reads of the schema node it is called on:
    [this.enforcerData.major], [this.enforcerData.root.result] and
    [this.discriminator] ([undefined] when the schema declares none). *)
Record schema_node := {
  sn_major : jsval;
  sn_openapi : jsval;
  sn_discriminator : jsval;
}.

(** [details ? { key, name, schema } : schema] *)
Inductive discriminated :=
| Schema_only (schema : jsval)
| Details (key name schema : jsval).

(** [o[k]] on a value that is neither [undefined] nor [null]: the own
    property, or else what the prototype chain has. *)
Definition read_property (s : store) (o : jsval) (k : string) : jsval :=
  match own_property s o k with
  | Some v => v
  | None => default undefined (inherited L s o k)
  end.

(** [o.k]: reading a property of [undefined] or [null] throws. *)
Definition read {S} (s : store) (o : jsval) (k : string) : M S jsval :=
  match o with
  | JPrim PUndefined | JPrim PNull =>
      throw ("TypeError: Cannot read property '" +:+ k +:+ "' of undefined")
  | _ => ret (read_property s o k)
  end.

(** The text of the [TypeError] of a call [x.hasOwnProperty(...)] where
    [x.hasOwnProperty] is no function. *)
Definition not_a_function (x : string) : string :=
  "TypeError: " +:+ x +:+ ".hasOwnProperty is not a function".

(** ToPropertyKey of [k], as a property read [o[k]] or a call
    [o.hasOwnProperty(k)] applies it. *)
Definition property_key {S} (s : store) (k : jsval) : M S string :=
  if key_converts L s k then ret (to_property_key L k)
  else throw "TypeError: Cannot convert object to primitive value".

(** [x.hasOwnProperty(k)] on a truthy value [o] of the variable [x]: a
    method call.  The values of the model are data, and its objects are
    plain objects and arrays; so an own property [hasOwnProperty] holds
    nothing that can be called, and the call throws, while a value that
    owns none finds the method of [Object.prototype], which converts [k]
    to a property key. *)
Definition call_hasOwnProperty {S} (x : string) (s : store) (o k : jsval) : M S bool :=
  match own_property s o "hasOwnProperty" with
  | Some _ => throw (not_a_function x)
  | None =>
      let* name := property_key s k in
      ret (hasOwnProperty s o name)
  end.

(** [o[k]] on a value that is neither [undefined] nor [null] *)
Definition read_at {S} (s : store) (o k : jsval) : M S jsval :=
  let* name := property_key s k in
  ret (read_property s o name).

(** [discriminator && value && value.hasOwnProperty(k) ? value[k] : undefined] *)
Definition discriminator_name {S} (s : store) (discriminator value k : jsval) : M S jsval :=
  if truthy discriminator && truthy value then
    let* has := call_hasOwnProperty "value" s value k in
    if has then read_at s value k else ret undefined
  else ret undefined.

(** [o && o.k] *)
Definition and_property (s : store) (o : jsval) (k : string) : jsval :=
  if truthy o then read_property s o k else o.

(** [o && o[k]] *)
Definition and_at {S} (s : store) (o k : jsval) : M S jsval :=
  if truthy o then read_at s o k else ret o.

Definition discriminate (s : store) (this : schema_node) (value details : jsval)
    : M unit discriminated :=
  let major := sn_major this in
  let discriminator := sn_discriminator this in
  let openapi := sn_openapi this in
  if negb (truthy discriminator) then ret (Schema_only undefined)
  else
    let* (key, name, schema) :=
      if strict_equal major (JPrim (PNum 2)) then
        let key := discriminator in
        let* name := discriminator_name s discriminator value discriminator in
        let* schema :=
          if truthy name then
            let* definitions := read s openapi "definitions" in
            and_at s definitions name
          else ret undefined in
        ret (key, name, schema)
      else if strict_equal major (JPrim (PNum 3)) then
        let* key := read s discriminator "propertyName" in
        let* name := discriminator_name s discriminator value key in
        let* schema :=
          if truthy name then
            let* mapping := read s discriminator "mapping" in
            let* mapped :=
              if truthy mapping then call_hasOwnProperty "mapping" s mapping name
              else ret false in
            if mapped then read_at s mapping name
            else
              let* components := read s openapi "components" in
              let schemas := and_property s components "schemas" in
              and_at s schemas name
          else ret undefined in
        ret (key, name, schema)
      else ret (undefined, undefined, undefined) in
    ret (if truthy details then Details key name schema else Schema_only schema).

End Methods.

(** *** The data type registry ([statics], lines 251-293) *)

(** What a property of a data type definition holds: a function (functions
    have identity), or some other value. *)
Inductive handler :=
| HFunction (id : nat)
| HValue (v : jsval).

Definition is_function (h : handler) : bool :=
  match h with HFunction _ => true | HValue _ => false end.

Definition handler_truthy (h : handler) : bool :=
  match h with HFunction _ => true | HValue v => truthy v end.

(** [definition.constructors]: a falsy value, an array, or a truthy value
    without a [forEach] method. *)
Inductive constructors_field :=
| CFalsy
| CArray (fns : list handler)
| COther.

(** A data type definition that is an object (an absent property is
    [HValue undefined]). *)
Record dt_object := {
  dt_deserialize : handler;
  dt_serialize : handler;
  dt_validate : handler;
  dt_random : handler;
  dt_constructors : constructors_field;
}.

(** The third argument of [defineDataTypeFormat]. *)
Inductive dt_definition :=
| DNull
| DNotObject
| DObject (o : dt_object).

(** [Object.assign({}, definition, { type, format })] *)
Record dt_stored := {
  st_definition : option dt_object;
  st_type : string;
  st_format : string;
}.

(** The closure of [statics]: [dataTypes] (its four keys in the order of the
    literal, each with the own properties of its object: the formats defined
    so far), the prototypes that the objects of [dataTypes] were given (an
    object without an entry still has [Object.prototype]), the set
    [constructors], the object [warnings], and what was written to the
    console. *)
Record registry := {
  dataTypes : list (string * gmap string dt_stored);
  prototypes : gmap string dt_stored;
  constructors : list nat;
  warnings : gset string;
  console : list string;
}.

Definition initial_registry : registry :=
  {| dataTypes := [("boolean", ∅); ("integer", ∅); ("number", ∅); ("string", ∅)];
     prototypes := ∅;
     constructors := [];
     warnings := ∅;
     console := [] |}.

(** [dataTypes.hasOwnProperty(k)] *)
Definition dataTypes_has (r : registry) (k : string) : bool :=
  match assoc k (dataTypes r) with Some _ => true | None => false end.

(** The own property [format] of [dataTypes[type]]: what
    [dataTypes[type][format]] reads when there is one.  (When there is none
    the read goes on to the prototype, which [prototypes] records.) *)
Definition lookup_format (r : registry) (type format : string) : option dt_stored :=
  match assoc type (dataTypes r) with
  | Some formats => formats !! format
  | None => None
  end.

(** [constructors.add(fn)] on a [Set] *)
Definition set_add (id : nat) (l : list nat) : list nat :=
  if existsb (Nat.eqb id) l then l else (l ++ [id])%list.

Definition add_constructor (fn : handler) : M registry unit :=
  fun r =>
    match fn with
    | HFunction id =>
        (Ok tt, {| dataTypes := dataTypes r; prototypes := prototypes r;
                   constructors := set_add id (constructors r);
                   warnings := warnings r; console := console r |})
    | HValue _ =>
        (* the text of [fn], which the code appends, is left out *)
        (Throw "Invalid constructor specified. Expected a function, received: ", r)
    end.

Definition warn_missing_constructors (type format : string) : M registry unit :=
  fun r =>
    let key := type +:+ "-" +:+ format in
    if bool_decide (key ∈ warnings r) then (Ok tt, r)
    else
      (Ok tt,
       {| dataTypes := dataTypes r; prototypes := prototypes r;
          constructors := constructors r;
          warnings := {[ key ]} ∪ warnings r;
          console :=
            (console r ++
               ["WARNING: Data type definition missing recommended " +:+ dq +:+ "constructors"
                  +:+ dq +:+ " property for type " +:+ dq +:+ type +:+ dq +:+ " and format "
                  +:+ dq +:+ format +:+ dq +:+ "."])%list |}).

(** [dataTypes[type][format] = stored].  The objects of [dataTypes] are
    made by object literals, so the name [__proto__] finds the accessor of
    [Object.prototype]: assigning an object to it replaces the prototype
    and stores no property.  Every other name becomes an own property (the
    prototypes that can be reached hold plain data properties, and no
    setters but that one). *)
Definition store_definition (type format : string) (stored : dt_stored) : M registry unit :=
  fun r =>
    match assoc type (dataTypes r) with
    | Some formats =>
        if String.eqb format "__proto__" then
          (Ok tt, {| dataTypes := dataTypes r;
                     prototypes := <[type := stored]> (prototypes r);
                     constructors := constructors r; warnings := warnings r;
                     console := console r |})
        else
          (Ok tt, {| dataTypes := assoc_set type (<[format := stored]> formats) (dataTypes r);
                     prototypes := prototypes r;
                     constructors := constructors r; warnings := warnings r;
                     console := console r |})
    | None => (Throw "TypeError: Cannot set property of undefined", r)
    end.

Definition invalid_definition : string :=
  "Invalid data type definition. Must be an object that defines handlers for "
    +:+ dq +:+ "deserialize" +:+ dq +:+ ", " +:+ dq +:+ "serialize" +:+ dq +:+ ", and "
    +:+ dq +:+ "validate" +:+ dq +:+ " with optional " +:+ dq +:+ "random" +:+ dq
    +:+ " handler.".

(** [defineDataTypeFormat(type, format, definition)] *)
Definition defineDataTypeFormat (type : string) (format : jsval) (definition : dt_definition)
    : M registry unit :=
  fun r =>
    (* validate input parameters *)
    if negb (dataTypes_has r type) then
      (Throw ("Invalid type specified. Must be one of: "
                +:+ String.concat ", " (map fst (dataTypes r))), r)
    else
      match format with
      | JPrim (PStr fmt) =>
          if negb (truthy format) then
            (Throw "Invalid format specified. Must be a non-empty string", r)
          else if dataTypes_has r fmt then
            (Throw ("Format " +:+ dq +:+ fmt +:+ dq +:+ " is already defined"), r)
          else
            (let* _ :=
               match definition with
               | DNull => ret tt
               | DNotObject => throw invalid_definition
               | DObject o =>
                   if negb (is_function (dt_deserialize o))
                      || negb (is_function (dt_serialize o))
                      || negb (is_function (dt_validate o))
                      || (handler_truthy (dt_random o) && negb (is_function (dt_random o)))
                   then throw invalid_definition
                   else
                     match dt_constructors o with
                     | CArray fns => forEach fns add_constructor
                     | COther =>
                         throw "TypeError: definition.constructors.forEach is not a function"
                     | CFalsy => warn_missing_constructors type fmt
                     end
               end in
             (* store the definition *)
             store_definition type fmt
               {| st_definition :=
                    match definition with DObject o => Some o | _ => None end;
                  st_type := type; st_format := fmt |}) r
      | _ => (Throw "Invalid format specified. Must be a non-empty string", r)
      end.

End Schema.

(** * Part II: properties *)

(** ** The populate injectors *)

Section InjectorProofs.
Import Injector.

Lemma append_cons (x : ascii) (a b : string) : String x a +:+ b = String x (a +:+ b).
Proof. reflexivity. Qed.

Lemma append_nil_l (b : string) : "" +:+ b = b.
Proof. reflexivity. Qed.

Lemma append_assoc (a b c : string) : (a +:+ b) +:+ c = a +:+ (b +:+ c).
Proof.
  induction a as [|x a IH]; [reflexivity|]. rewrite !append_cons. now rewrite IH.
Qed.

Lemma append_length (a b : string) :
  String.length (a +:+ b) = String.length a + String.length b.
Proof.
  induction a as [|x a IH]; [reflexivity|]. rewrite append_cons. simpl. now rewrite IH.
Qed.

Lemma skipn_string_nil n : skipn_string n "" = "".
Proof. destruct n; reflexivity. Qed.

Lemma skipn_string_add n m s :
  skipn_string n (skipn_string m s) = skipn_string (m + n) s.
Proof.
  revert s; induction m as [|m IH]; intros s; simpl; [reflexivity|].
  destruct s as [|c s]; [apply skipn_string_nil | apply IH].
Qed.

Lemma skipn_string_length n s :
  String.length (skipn_string n s) = String.length s - n.
Proof.
  revert s; induction n as [|n IH]; intros [|c s]; simpl; try lia. apply IH.
Qed.

Lemma substring_skipn off j s :
  String.substring off j s = String.substring 0 j (skipn_string off s).
Proof.
  revert s; induction off as [|off IH]; intros s; simpl; [reflexivity|].
  destruct s as [|c s]; simpl; [now destruct j | apply IH].
Qed.

Lemma substring_0_cons j c s :
  String.substring 0 (S j) (String c s) = String c (String.substring 0 j s).
Proof. reflexivity. Qed.

(** Stepping over [k] characters is dropping them. *)
Lemma single_pass_skip r data s k :
  single_pass r data s k = single_pass r data (skipn_string k s) 0.
Proof.
  revert k; induction s as [|c s IH]; intros k.
  - now rewrite skipn_string_nil.
  - destruct k as [|k]; [reflexivity|]. simpl. apply IH.
Qed.

Lemma strip_app p s t : strip p s = Some t -> s = p +:+ t.
Proof.
  revert s; induction p as [|a p IH]; intros s H; simpl in *.
  - now inversion H.
  - destruct s as [|b s]; [discriminate|].
    destruct (Ascii.eqb a b) eqn:E; [|discriminate].
    apply Ascii.eqb_eq in E; subst b. rewrite append_cons. f_equal. now apply IH.
Qed.

Lemma prefix_app p s : String.prefix p s = true -> exists t, s = p +:+ t.
Proof.
  revert s; induction p as [|a p IH]; intros s H; simpl in *.
  - now exists s.
  - destruct s as [|b s]; [discriminate|]. simpl in H.
    destruct (Ascii.ascii_dec a b) as [E|E]; [subst b|discriminate].
    destruct (IH _ H) as [t Ht]. exists t. rewrite append_cons. now f_equal.
Qed.


Lemma match_rest_app close s n :
  match_rest close s = Some n -> exists t, s = n +:+ close +:+ t.
Proof.
  assert (Hstop : forall s n,
            (if String.prefix close s then Some "" else None) = Some n ->
            exists t, s = n +:+ close +:+ t).
  { intros s' n'. destruct (String.prefix close s') eqn:P; [|discriminate].
    intros [= <-]. now apply prefix_app. }
  revert n; induction s as [|c s IH]; intros n H; cbn [match_rest] in H.
  - now apply Hstop.
  - destruct (is_name_char c); [|now apply Hstop].
    destruct (match_rest close s) as [n'|] eqn:R; [|now apply Hstop].
    inversion H; subst. destruct (IH _ eq_refl) as [t Ht].
    exists t. rewrite append_cons. now f_equal.
Qed.

(** A match is a non-empty prefix of the text it is anchored at. *)
Lemma match_at_app r s whole name :
  match_at r s = Some (whole, name) ->
  (exists t, s = whole +:+ t) /\ 0 < String.length whole.
Proof.
  unfold match_at. intros H.
  destruct (strip (rx_open r) s) as [[|c s']|] eqn:S; try discriminate.
  destruct (is_name_start c); [|discriminate].
  destruct (match_rest (rx_close r) s') as [n|] eqn:R; [|discriminate].
  inversion H; subst; clear H.
  apply strip_app in S. apply match_rest_app in R as [t ->].
  split.
  - exists t. rewrite S. now rewrite ?append_assoc, ?append_cons, ?append_assoc.
  - rewrite !append_length. simpl. lia.
Qed.

Lemma skipn_string_app a t : skipn_string (String.length a) (a +:+ t) = t.
Proof. induction a as [|x a IH]; [now destruct t | rewrite append_cons; apply IH]. Qed.

Definition subst (data : params) (m : rmatch) : string :=
  match data (m_1 m) with Some v => v | None => m_0 m end.

(** What one search of the suffix [s] tells about the single pass over it. *)
Lemma exec_from_single_pass r data s i :
  match exec_from r s i with
  | None => single_pass r data s 0 = s
  | Some m =>
      exists j, m_index m = i + j /\
        j + String.length (m_0 m) <= String.length s /\
        0 < String.length (m_0 m) /\
        single_pass r data s 0 =
          String.substring 0 j s +:+ subst data m
            +:+ single_pass r data (skipn_string (j + String.length (m_0 m)) s) 0
  end.
Proof.
  revert i; induction s as [|c s IH]; intros i.
  - simpl. destruct (match_at r "") as [[whole name]|] eqn:E; [|reflexivity].
    apply match_at_app in E as [[t Ht] Hl]. destruct whole; simpl in *; [lia | discriminate].
  - cbn [exec_from single_pass].
    destruct (match_at r (String c s)) as [[whole name]|] eqn:E.
    + pose proof (match_at_app _ _ _ _ E) as [[t Ht] Hl].
      exists 0. cbn [m_index m_0 m_1 subst]. repeat split; try lia.
      * rewrite Ht, append_length. lia.
      * simpl String.substring.
        rewrite single_pass_skip. simpl skipn_string at 2.
        destruct whole as [|w whole]; [simpl in Hl; lia|]. simpl. now rewrite Nat.sub_0_r.
    + specialize (IH (S i)). destruct (exec_from r s (S i)) as [m|].
      * destruct IH as (j & Hi & Hle & Hl & Hsp). exists (S j). repeat split; try lia.
        -- simpl. lia.
        -- rewrite substring_0_cons. simpl. now rewrite Hsp.
      * now rewrite IH.
Qed.

Lemma loop_single_pass r data value fuel off result :
  off <= String.length value ->
  String.length value - off < fuel ->
  loop fuel r value data off result off
  = Some (result +:+ single_pass r data (skipn_string off value) 0).
Proof.
  revert off result; induction fuel as [|fuel IH]; intros off result Hoff Hfuel; [lia|].
  cbn [loop]. unfold exec.
  pose proof (exec_from_single_pass r data (skipn_string off value) off) as H.
  destruct (exec_from r (skipn_string off value) off) as [m|].
  - destruct H as (j & Hi & Hle & Hl & Hsp).
    rewrite skipn_string_length in Hle.
    rewrite IH by lia. f_equal.
    rewrite Hsp, skipn_string_add, substring_skipn.
    replace (m_index m - off) with j by lia.
    replace (m_index m + String.length (m_0 m)) with (off + (j + String.length (m_0 m))) by lia.
    unfold subst. now rewrite !append_assoc.
  - now rewrite H.
Qed.

(** C7: for every template, parameter map and injector (colon, handlebar,
    doubleHandlebar), the injector returns what one left-to-right pass over
    the template writes: each parameter reference replaced by the
    parameter's value when it is defined and left as it stands when it is
    not, the scan resuming in the template after the reference, so that a
    value written out is never scanned. *)
Theorem injector_is_single_pass (k : replacement) (value : string) (data : params) :
  populateInjectors k value data = Some (single_pass (rx_of k) data value 0).
Proof.
  unfold populateInjectors, buildInjector.
  rewrite loop_single_pass by lia. reflexivity.
Qed.

End InjectorProofs.

Import JS Normalizer Schema.

(** ** The data type registry *)

Section Registry.

Lemma assoc_assoc_set {A} k (v : A) l :
  assoc k l <> None -> assoc k (assoc_set k v l) = Some v.
Proof.
  induction l as [|[k' v'] l IH]; simpl; [congruence|].
  destruct (String.eqb k k') eqn:K; simpl.
  - now rewrite String.eqb_refl.
  - rewrite K. exact IH.
Qed.

Lemma add_constructors_dataTypes fns r o r' :
  forEach fns add_constructor r = (o, r') ->
  dataTypes r' = dataTypes r
  /\ (Forall (fun h => is_function h = true) fns -> o = Ok tt).
Proof.
  revert r. induction fns as [|fn fns IH]; intros r; simpl.
  - unfold ret. intros [= <- <-]. auto.
  - unfold bind. destruct fn as [id|v]; simpl.
    + intros H. destruct (IH _ H) as [Hd Ho]. split; [exact Hd|].
      intros Hall. inversion Hall; subst. now apply Ho.
    + intros [= <- <-]. split; [reflexivity|]. intros Hall. inversion Hall; subst. discriminate.
Qed.

(** What the code does about an existing definition: nothing.  A valid
    definition is stored whether or not the pair already has one. *)
Lemma defineDataTypeFormat_overwrites (r : registry) (type fmt : string) (o : dt_object) :
  dataTypes_has r type = true ->
  fmt <> "" ->
  fmt <> "__proto__" ->
  dataTypes_has r fmt = false ->
  is_function (dt_deserialize o) = true ->
  is_function (dt_serialize o) = true ->
  is_function (dt_validate o) = true ->
  handler_truthy (dt_random o) = false \/ is_function (dt_random o) = true ->
  match dt_constructors o with
  | CFalsy => True
  | CArray fns => Forall (fun h => is_function h = true) fns
  | COther => False
  end ->
  exists r',
    defineDataTypeFormat type (JPrim (PStr fmt)) (DObject o) r = (Ok tt, r')
    /\ lookup_format r' type fmt
       = Some {| st_definition := Some o; st_type := type; st_format := fmt |}.
Proof.
  intros Ht Hf Hp Hn Hd Hs Hv Hr Hc. unfold defineDataTypeFormat.
  apply String.eqb_neq in Hp.
  rewrite Ht. simpl negb. cbv iota.
  assert (Hne : String.eqb fmt "" = false) by now apply String.eqb_neq.
  simpl truthy. rewrite Hne, Hn. simpl negb. cbv iota.
  rewrite Hd, Hs, Hv. simpl orb.
  assert (Hrand : handler_truthy (dt_random o) && negb (is_function (dt_random o)) = false).
  { destruct Hr as [-> | ->]; [reflexivity | apply andb_false_r]. }
  rewrite Hrand. unfold bind.
  assert (Hstore : forall r1, dataTypes r1 = dataTypes r ->
            exists r', store_definition type fmt
                         {| st_definition := Some o; st_type := type; st_format := fmt |} r1
                       = (Ok tt, r')
                       /\ lookup_format r' type fmt
                          = Some {| st_definition := Some o; st_type := type; st_format := fmt |}).
  { intros r1 E1. unfold store_definition, lookup_format, dataTypes_has in *. rewrite E1.
    destruct (assoc type (dataTypes r)) as [formats|] eqn:A; [|discriminate].
    rewrite Hp. eexists. split; [reflexivity|]. simpl.
    rewrite assoc_assoc_set by congruence. apply lookup_insert_eq. }
  destruct (dt_constructors o) as [|fns|]; [| |contradiction].
  - unfold warn_missing_constructors. destruct (bool_decide _); now apply Hstore.
  - destruct (forEach fns add_constructor r) as [x r1] eqn:F.
    destruct (add_constructors_dataTypes _ _ _ _ F) as [E1 Hx].
    rewrite (Hx Hc). now apply Hstore.
Qed.

(** A format that bears the name of a type is refused, defined or not. *)
Lemma defineDataTypeFormat_type_name (r : registry) (type fmt : string) definition :
  dataTypes_has r type = true -> fmt <> "" -> dataTypes_has r fmt = true ->
  defineDataTypeFormat type (JPrim (PStr fmt)) definition r
  = (Throw ("Format " +:+ dq +:+ fmt +:+ dq +:+ " is already defined"), r).
Proof.
  intros Ht Hf Hn. unfold defineDataTypeFormat.
  assert (Hne : String.eqb fmt "" = false) by now apply String.eqb_neq.
  rewrite Ht. simpl. now rewrite Hne, Hn.
Qed.

Definition date_codec (id : nat) : dt_object :=
  {| dt_deserialize := HFunction id;
     dt_serialize := HFunction (id + 1);
     dt_validate := HFunction (id + 2);
     dt_random := HValue undefined;
     dt_constructors := CArray [HFunction (id + 3)] |}.

(** C3 (the code departs from the claim): the second registration of
    (string, date) is accepted and replaces the first. *)
Example duplicate_registration_accepted :
  exists r1 r2,
    defineDataTypeFormat "string" (JPrim (PStr "date")) (DObject (date_codec 0)) initial_registry
    = (Ok tt, r1)
    /\ lookup_format r1 "string" "date"
       = Some {| st_definition := Some (date_codec 0); st_type := "string"; st_format := "date" |}
    /\ defineDataTypeFormat "string" (JPrim (PStr "date")) (DObject (date_codec 10)) r1
       = (Ok tt, r2)
    /\ lookup_format r2 "string" "date"
       = Some {| st_definition := Some (date_codec 10); st_type := "string"; st_format := "date" |}.
Proof.
  destruct (defineDataTypeFormat_overwrites initial_registry "string" "date" (date_codec 0))
    as (r1 & H1 & L1); try reflexivity; try discriminate; [now left | now repeat constructor|].
  assert (Hd : dataTypes_has r1 "string" = true /\ dataTypes_has r1 "date" = false).
  { vm_compute in H1. inversion H1; subst. split; reflexivity. }
  destruct Hd as [Hs Hn].
  destruct (defineDataTypeFormat_overwrites r1 "string" "date" (date_codec 10))
    as (r2 & H2 & L2); try reflexivity; try discriminate; try assumption;
    [now left | now repeat constructor|].
  now exists r1, r2.
Qed.

(** A fresh pair whose format is the name of a type is refused as "already
    defined". *)
Example fresh_format_refused :
  lookup_format initial_registry "string" "number" = None
  /\ defineDataTypeFormat "string" (JPrim (PStr "number")) (DObject (date_codec 0))
       initial_registry
     = (Throw ("Format " +:+ dq +:+ "number" +:+ dq +:+ " is already defined"),
        initial_registry).
Proof. split; reflexivity. Qed.

End Registry.

(** ** The Schema validator's [errors] callback *)

Section SchemaErrors.

Variable L : Lang.

(** A callback step that only adds error messages, each satisfying [Q]. *)
Definition appends (Q : path * string -> Prop) {A} (c : M report A) : Prop :=
  forall r, exists l,
    r_errors (snd (c r)) = (r_errors r ++ l)%list /\ Forall Q l.

Lemma appends_ret Q {A} (a : A) : appends Q (ret a).
Proof. intros r. exists []. simpl. now rewrite app_nil_r. Qed.

Lemma appends_throw Q {A} err : appends Q (@throw report A err).
Proof. intros r. exists []. simpl. now rewrite app_nil_r. Qed.

Lemma appends_bind Q {A B} (c : M report A) (k : A -> M report B) :
  appends Q c -> (forall a, appends Q (k a)) -> appends Q (bind c k).
Proof.
  intros Hc Hk r. unfold bind. destruct (Hc r) as (l & Hl & HQ).
  destruct (c r) as [[a|err] r1] eqn:Ec; simpl in *.
  - destruct (Hk a r1) as (l' & Hl' & HQ'). exists (l ++ l')%list.
    rewrite Hl', Hl, app_assoc. split; [reflexivity | now apply Forall_app].
  - exists l. now split.
Qed.

Lemma appends_emit (Q : path * string -> Prop) p text : Q (p, text) -> appends Q (emit p text).
Proof. intros H r. exists [(p, text)]. simpl. split; [reflexivity | now constructor]. Qed.

Lemma appends_get_property Q s v k : appends Q (@get_property report s v k).
Proof.
  unfold get_property. destruct v as [[| | | |]|]; auto using appends_ret, appends_throw.
Qed.

Lemma appends_object_keys Q s v : appends Q (@object_keys report s v).
Proof.
  unfold object_keys. destruct v as [[| | | |]|r]; auto using appends_ret, appends_throw.
  destruct (deref s r) as [[]|]; auto using appends_ret.
Qed.

Lemma appends_forEach Q {A} (l : list A) (body : A -> M report unit) :
  (forall x, appends Q (body x)) -> appends Q (forEach l body).
Proof.
  intros H. induction l as [|x l IH]; simpl; [apply appends_ret|].
  apply appends_bind; auto.
Qed.

Lemma appends_if Q {A} (b : bool) (c1 c2 : M report A) :
  appends Q c1 -> appends Q c2 -> appends Q (if b then c1 else c2).
Proof. now destruct b. Qed.

(** The messages of the minimum/maximum check start like this. *)
Definition is_minimum_message (m : path * string) : Prop :=
  String.prefix ("Property " +:+ dq +:+ "minimum") (snd m) = true.

Definition other (m : path * string) : Prop := ~ is_minimum_message m.

Lemma other_intro p text :
  String.prefix ("Property " +:+ dq +:+ "minimum") text = false -> other (p, text).
Proof. unfold other, is_minimum_message. simpl. intros ->. discriminate. Qed.

Lemma check_min_max_other s p result name :
  (name = "Items" \/ name = "Length" \/ name = "Properties") ->
  appends other (check_min_max L s p result name).
Proof.
  intros Hname. unfold check_min_max.
  repeat (apply appends_bind; [apply appends_get_property | intros ?]).
  apply appends_if; [|apply appends_ret].
  apply appends_emit, other_intro.
  destruct Hname as [->|[->| ->]]; reflexivity.
Qed.

Lemma check_required_other s p result : appends other (check_required L s p result).
Proof.
  unfold check_required.
  apply appends_bind; [apply appends_get_property | intros ?].
  apply appends_if; [|apply appends_ret].
  repeat (apply appends_bind; [apply appends_get_property | intros ?]).
  apply appends_if; [|apply appends_ret].
  apply appends_emit, other_intro. reflexivity.
Qed.

Lemma check_properties_other s p result : appends other (check_properties s p result).
Proof.
  unfold check_properties.
  apply appends_if; [|apply appends_ret].
  apply appends_bind; [apply appends_get_property | intros ?].
  apply appends_bind; [apply appends_object_keys | intros ?].
  apply appends_forEach. intros key.
  repeat (apply appends_bind; [apply appends_get_property | intros ?]).
  apply appends_if; [|apply appends_ret].
  apply appends_bind; [apply appends_get_property | intros ?].
  apply appends_if; [|apply appends_ret].
  apply appends_emit, other_intro. reflexivity.
Qed.

Lemma check_composites_other s p result : appends other (check_composites s p result).
Proof.
  unfold check_composites.
  apply appends_if; [|apply appends_ret].
  apply appends_emit, other_intro. reflexivity.
Qed.


(** A step that returns, having only added error messages satisfying [Q]. *)
Definition runs (Q : path * string -> Prop) (c : M report unit) : Prop :=
  forall r, exists l,
    c r = (Ok tt, {| r_errors := (r_errors r ++ l)%list; r_warnings := r_warnings r |})
    /\ Forall Q l.

Lemma runs_ret Q : runs Q (ret tt).
Proof. intros [e w]. exists []. simpl. now rewrite app_nil_r. Qed.

Lemma runs_emit (Q : path * string -> Prop) p text : Q (p, text) -> runs Q (emit p text).
Proof. intros H r. exists [(p, text)]. split; [reflexivity | now constructor]. Qed.

Lemma runs_if Q (b : bool) (c1 c2 : M report unit) :
  runs Q c1 -> runs Q c2 -> runs Q (if b then c1 else c2).
Proof. now destruct b. Qed.

Lemma get_property_ref {S} s r k (st : S) :
  get_property s (JRef r) k st = (Ok (default undefined (own_property s (JRef r) k)), st).
Proof. unfold get_property, ret. now destruct (own_property s (JRef r) k). Qed.

Lemma get_property_truthy {S} s v k (st : S) :
  truthy v = true ->
  get_property s v k st = (Ok (default undefined (own_property s v k)), st).
Proof.
  intros H. unfold get_property, ret.
  destruct v as [[| | | |]|]; try discriminate; now destruct (own_property _ _ k).
Qed.

Lemma check_min_max_runs s p r0 name :
  (name = "Items" \/ name = "Length" \/ name = "Properties") ->
  runs other (check_min_max L s p (JRef r0) name).
Proof.
  intros Hname r. unfold check_min_max, bind. rewrite !get_property_ref.
  apply runs_if; [|apply runs_ret].
  apply runs_emit, other_intro. destruct Hname as [->|[->| ->]]; reflexivity.
Qed.

Lemma check_required_runs s p r0 : runs other (check_required L s p (JRef r0)).
Proof.
  intros r. unfold check_required, bind. rewrite get_property_ref.
  destruct (truthy (default undefined (own_property s (JRef r0) "required"))) eqn:T;
    cbn [andb]; [|apply runs_ret].
  destruct (hasOwnProperty s (JRef r0) "maxProperties"); cbn [andb]; [|apply runs_ret].
  cbv beta iota.
  rewrite (get_property_truthy _ _ _ _ T), get_property_ref.
  apply runs_if; [|apply runs_ret].
  apply runs_emit, other_intro. reflexivity.
Qed.

Lemma runs_bind Q (c : M report unit) (k : unit -> M report unit) r :
  runs Q c ->
  exists l,
    bind c k r = k tt {| r_errors := (r_errors r ++ l)%list; r_warnings := r_warnings r |}
    /\ Forall Q l.
Proof.
  intros H. destruct (H r) as (l & E & HQ). exists l. unfold bind. now rewrite E.
Qed.

(** Run the first step of a sequence that is known to return. *)
Ltac run_step H l Hl :=
  lazymatch goal with
  | |- context [bind ?c ?k ?r] =>
      destruct (runs_bind other c k r H) as (l & -> & Hl)
  end.

Definition strict_message : string :=
  "Property " +:+ dq +:+ "minimum" +:+ dq +:+ " must be less than " +:+ dq +:+ "maximum" +:+ dq.

Definition loose_message : string :=
  "Property " +:+ dq +:+ "minimum" +:+ dq +:+ " must be less than or equal to "
    +:+ dq +:+ "maximum" +:+ dq.

Lemma in_others p text l :
  Forall other l -> is_minimum_message (p, text) -> In (p, text) l -> False.
Proof.
  intros H Hm Hin. rewrite Forall_forall in H.
  apply list_elem_of_In in Hin. exact (H _ Hin Hm).
Qed.

(** With [minimum] and [maximum] both present, the callback reports what
    the four checks before the cross-check report, then the cross-check's
    message when the bounds are refused, then what the two checks after it
    report; none of the surrounding messages is a cross-check message. *)
Lemma schema_errors_shape (defs : heap) (data : cbdata) (r0 : ref) (mn mx : jsval) :
  let s := {| s_defs := defs; s_objs := w_objs (cb_state data) |} in
  let p := f_exception (cb_frame data) in
  let exclusiveMinimum := default undefined (own_property s (JRef r0) "exclusiveMinimum") in
  let exclusiveMaximum := default undefined (own_property s (JRef r0) "exclusiveMaximum") in
  f_result (cb_frame data) = JRef r0 ->
  own_property s (JRef r0) "minimum" = Some mn ->
  own_property s (JRef r0) "maximum" = Some mx ->
  exists before after,
    Forall other before /\ Forall other after
    /\ r_errors (snd (schema_errors L defs data {| r_errors := []; r_warnings := [] |}))
       = (before
          ++ (if minMaxValid L s mn mx exclusiveMinimum exclusiveMaximum then []
              else [(p, minimum_message exclusiveMinimum exclusiveMaximum)])
          ++ after)%list.
Proof.
  intros s p exMin exMax Hres Hmin Hmax.
  unfold schema_errors. rewrite Hres. fold s. fold p.
  set (r := {| r_errors := []; r_warnings := [] |}).
  run_step (check_min_max_runs s p r0 "Items" (or_introl eq_refl)) l1 H1.
  run_step (check_min_max_runs s p r0 "Length" (or_intror (or_introl eq_refl))) l2 H2.
  run_step (check_min_max_runs s p r0 "Properties" (or_intror (or_intror eq_refl))) l3 H3.
  run_step (check_required_runs s p r0) l4 H4.
  subst r. cbn [r_errors r_warnings app].
  set (before := (((l1 ++ l2) ++ l3) ++ l4)%list).
  assert (Hbefore : Forall other before).
  { subst before. rewrite !Forall_app. auto. }
  clearbody before. clear H1 H2 H3 H4 l1 l2 l3 l4.
  set (r := {| r_errors := before; r_warnings := [] |}).
  assert (Hrest : forall r1, exists l,
             r_errors (snd (bind (check_properties s p (JRef r0))
                              (fun _ => check_composites s p (JRef r0)) r1))
             = (r_errors r1 ++ l)%list /\ Forall other l).
  { apply (appends_bind other); [apply check_properties_other|].
    intros _. apply check_composites_other. }
  assert (Hmin' : check_minimum L s p (JRef r0) r
                  = (Ok tt,
                     {| r_errors :=
                          (before ++ (if minMaxValid L s mn mx exMin exMax then []
                                      else [(p, minimum_message exMin exMax)]))%list;
                        r_warnings := [] |})).
  { unfold check_minimum, bind. rewrite !get_property_ref, Hmin, Hmax.
    change (default undefined (Some mn)) with mn.
    change (default undefined (Some mx)) with mx.
    fold exMin exMax.
    destruct (minMaxValid L s mn mx exMin exMax); cbn [negb].
    - unfold ret, r. now rewrite app_nil_r.
    - reflexivity. }
  unfold bind at 1. rewrite Hmin'.
  match goal with |- context [bind _ _ ?r1] => destruct (Hrest r1) as (after & -> & Hafter) end.
  cbn [r_errors]. exists before, after. rewrite <- app_assoc. auto.
Qed.


End SchemaErrors.

(** ** [discriminate] *)

Section Discriminate.

Variable L : Lang.

(** C10: for every value and every details flag, [discriminate] on a schema
    node whose discriminator is falsy, as it is when the schema declares
    none, returns [undefined]: neither a record nor an error, and nothing
    of the value or of the document is read. *)
Theorem discriminate_without_discriminator
    (s : store) (this : schema_node) (value details : jsval) :
  truthy (sn_discriminator this) = false ->
  discriminate L s this value details tt = (Ok (Schema_only undefined), tt).
Proof. intros H. unfold discriminate. rewrite H. reflexivity. Qed.

End Discriminate.

(** ** [runChildValidator] *)

Section ChildValidator.

Variable E : Env.

(** What [childData] makes of a child: its [result] is the definition
    itself unless the definition is an array or an object, and then it is a
    new, empty array or object. *)
Lemma childData_result parent_data k v st d st' :
  childData E parent_data k v st = (Ok d, st') ->
  (is_object (definition d) = false -> result d = definition d)
  /\ (is_object (definition d) = true ->
      result d = JRef (Obj (length (w_objs st)))
      /\ (w_objs st' !! length (w_objs st) = Some (OArray [])
          \/ w_objs st' !! length (w_objs st) = Some (OObject []))).
Proof.
  unfold childData, bind.
  destruct (get_key E (definition parent_data) k st) as [[x|err] st1] eqn:G; [|discriminate].
  assert (st1 = st) as ->.
  { unfold get_key, get_property, ret, throw in G.
    repeat match type of G with
           | context [match ?t with _ => _ end] => destruct t
           end; inversion G; reflexivity. }
  destruct x as [p|r].
  - assert (T : String.eqb (getDefinitionType (store_of E st) (JPrim p)) "array" = false
                /\ String.eqb (getDefinitionType (store_of E st) (JPrim p)) "object" = false)
      by (destruct p; split; reflexivity).
    destruct T as [-> ->]. unfold ret. cbv beta iota. intros [= <- <-]. simpl.
    split; [reflexivity | discriminate].
  - assert (T : getDefinitionType (store_of E st) (JRef r) = "array"
                \/ getDefinitionType (store_of E st) (JRef r) = "object").
    { simpl. destruct (deref (store_of E st) r) as [[l|props]|]; auto. }
    destruct T as [T|T]; rewrite T; unfold ret, alloc; cbn;
      intros [= <- <-]; cbn [definition result is_object w_objs set_objs];
      (split; [discriminate|]); intros _;
      (split; [reflexivity|]); rewrite lookup_app_r, Nat.sub_diag by lia; auto.
Qed.

(** C4, amended: for every child context whose validator resolves to a
    falsy value, [runChildValidator] returns the child's [result]: for a
    child made by [childData] that is the raw definition itself when the
    definition is a primitive, and a new empty array or object when the
    definition is an array or an object. *)
Theorem runChildValidator_falsy_validator
    (normalize : data -> W jsval) (parent_data : data) (k : jskey) (v0 : validator)
    (st0 : wstate) (d : data) (st : wstate) (v : validator) (st1 : wstate) :
  childData E parent_data k v0 st0 = (Ok d, st) ->
  fn_validator (validator_of d) d st = (Ok v, st1) ->
  validator_truthy v = false ->
  runChildValidator E normalize d st = Some (Ok (result d), st1)
  /\ (is_object (definition d) = false -> result d = definition d)
  /\ (is_object (definition d) = true ->
      result d = JRef (Obj (length (w_objs st0)))
      /\ (w_objs st !! length (w_objs st0) = Some (OArray [])
          \/ w_objs st !! length (w_objs st0) = Some (OObject []))).
Proof.
  intros Hc Hf Hv. split; [|exact (childData_result _ _ _ _ _ _ Hc)].
  unfold runChildValidator, wbind, lift. rewrite Hf.
  destruct v as [| [] | s | f | value config | desc]; try discriminate Hv;
    cbv beta iota; rewrite ?Hv; reflexivity.
Qed.

End ChildValidator.

(** ** The enum check and the catch *)

(** Member-wise equality, as the specification words the enum check: two
    primitives are equal when they are the same value, two arrays when their
    elements are member-wise equal in order, two objects when they hold the
    same keys with member-wise equal values.  Fuel bounds the depth. *)
Fixpoint deep_equal (fuel : nat) (s : store) (a b : jsval) : bool :=
  match fuel with
  | 0 => false
  | S fuel' =>
      match a, b with
      | JPrim _, JPrim _ => same_value_zero a b
      | JRef x, JRef y =>
          match deref s x, deref s y with
          | Some (OArray l1), Some (OArray l2) =>
              Nat.eqb (length l1) (length l2)
              && forallb (fun xy => deep_equal fuel' s xy.1 xy.2) (combine l1 l2)
          | Some (OObject p1), Some (OObject p2) =>
              Nat.eqb (length p1) (length p2)
              && forallb (fun kv =>
                            match assoc kv.1 p2 with
                            | Some v2 => deep_equal fuel' s kv.2 v2
                            | None => false
                            end) p1
          | _, _ => false
          end
      | _, _ => false
      end
  end.

Section EnumAndCatch.

Variable E : Env.

Lemma includes_Exists matches v :
  includes matches v = true <-> Exists (fun m => same_value_zero m v = true) matches.
Proof.
  unfold includes. rewrite existsb_exists, Exists_exists. 
  split; intros (m & Hin & Hm); exists m; split; auto; now apply list_elem_of_In.
Qed.

(** C6: [normalize] never propagates an exception: whatever the walk of
    the node throws is caught, recorded as "Unexpected error encountered"
    at the current path, and the result of the context is returned; an
    exception of a descriptor callback is caught inside [fn], recorded the
    same way at the path of the context it was called on, and answered by
    [undefined]. *)
Theorem normalize_never_throws :
  (forall fuel d st err st', normalize E fuel d st <> Some (Throw err, st'))
  /\ (forall fuel d st err st1,
        normalize_try E (normalize E fuel) d st = Some (Throw err, st1) ->
        normalize E (S fuel) d st
        = Some (Ok (result d),
                add_messages [(exception d, "Unexpected error encountered: " +:+ err)] [] st1))
  /\ (forall (A : Type) (f : callback A) d st err rep,
        f (cbdata_of d st) {| r_errors := []; r_warnings := [] |} = (Throw err, rep) ->
        fn (Callback f) d st
        = (Ok None,
           add_messages [(exception d, "Unexpected error encountered: " +:+ err)] []
             (add_messages (r_errors rep) (r_warnings rep) st))).
Proof.
  repeat split.
  - intros [|fuel] d st err st'; simpl; [discriminate|].
    destruct (normalize_try E (normalize E fuel) d st) as [[[v|e] st1]|]; discriminate.
  - intros fuel d st err st1 H. simpl. now rewrite H.
  - intros A f d st err rep H. unfold fn, call, bind. now rewrite H.
Qed.

End EnumAndCatch.

(** ** The order of the declared properties *)

Section PropertyOrder.

(** *** The order of strings *)

Lemma string_compare_refl x : String.compare x x = Eq.
Proof.
  pose proof (String.compare_antisym x x) as H.
  destruct (String.compare x x); simpl in H; congruence.
Qed.

Lemma string_ltb_le x y : String.ltb x y = true <-> String.le x y /\ x <> y.
Proof.
  unfold String.le, String.leb, String.ltb.
  destruct (String.compare x y) eqn:C; simpl.
  - apply String.compare_eq_iff in C. split; [discriminate | intros [_ N]; contradiction].
  - split; [|reflexivity]. intros _. split; [exact I|]. intros ->.
    rewrite string_compare_refl in C. discriminate.
  - split; [discriminate | intros [[] _]].
Qed.

Lemma string_ltb_irrefl x : String.ltb x x = false.
Proof.
  destruct (String.ltb x x) eqn:E; [|reflexivity].
  apply string_ltb_le in E as [_ E]. contradiction.
Qed.

Lemma string_ltb_trans x y z :
  String.ltb x y = true -> String.ltb y z = true -> String.ltb x z = true.
Proof.
  rewrite !string_ltb_le. intros [Hxy Nxy] [Hyz Nyz]. split.
  - etransitivity; eassumption.
  - intros ->. apply Nxy. now apply (anti_symm String.le).
Qed.

Lemma string_ltb_total x y :
  x <> y -> String.ltb x y = false -> String.ltb y x = true.
Proof.
  intros N H. apply string_ltb_le. split; [|congruence].
  destruct (total String.le x y) as [Hle|Hle]; [|exact Hle].
  assert (String.ltb x y = true) by (apply string_ltb_le; now split). congruence.
Qed.

(** *** The order the specification names *)

(** What the order looks at: the weight and the key name of a property. *)
Definition kw (p : property) : Z * string :=
  (p_weight p, key_name (key (p_data p))).

(** Ascending by weight, ties in weight resolved by key name. *)
Definition kw_before (a b : Z * string) : Prop :=
  (a.1 < b.1)%Z \/ (a.1 = b.1 /\ String.ltb a.2 b.2 = true).

Lemma kw_before_irrefl a : ~ kw_before a a.
Proof. intros [H|[_ H]]; [lia | now rewrite string_ltb_irrefl in H]. Qed.

Lemma kw_before_trans a b c : kw_before a b -> kw_before b c -> kw_before a c.
Proof.
  unfold kw_before. intros [H1|[E1 L1]] [H2|[E2 L2]]; try (left; lia).
  right. split; [lia | eapply string_ltb_trans; eassumption].
Qed.

Lemma kw_before_asym a b : kw_before a b -> ~ kw_before b a.
Proof. intros H1 H2. exact (kw_before_irrefl a (kw_before_trans _ _ _ H1 H2)). Qed.

(** A property made by [childData] for a property name. *)
Definition named (p : property) : Prop :=
  exists s, key (p_data p) = Some (KName s).

(** The comparison function decides the order of the specification. *)
Lemma compare_properties_before a b :
  named a -> named b ->
  (compare_properties a b <? 0)%Z = true <-> kw_before (kw a) (kw b).
Proof.
  intros [x Ha] [y Hb]. unfold compare_properties, kw_before, kw, key_lt.
  rewrite Ha, Hb. simpl.
  destruct (Z.ltb_spec (p_weight a) (p_weight b)) as [Hlt|Hge].
  - split; [now left | reflexivity].
  - destruct (Z.gtb_spec (p_weight a) (p_weight b)) as [Hgt|Hle].
    + split; [discriminate | intros [?|[? _]]; lia].
    + destruct (String.ltb x y) eqn:L.
      * split; [intros _; right; split; [lia | reflexivity] | reflexivity].
      * split; [discriminate | intros [?|[_ ?]]; [lia | discriminate]].
Qed.

Lemma compare_properties_after a b :
  named a -> named b -> (kw a).2 <> (kw b).2 ->
  (compare_properties a b <? 0)%Z = false -> kw_before (kw b) (kw a).
Proof.
  intros [x Ha] [y Hb]. unfold compare_properties, kw_before, kw, key_lt.
  rewrite Ha, Hb. simpl. intros N.
  destruct (Z.ltb_spec (p_weight a) (p_weight b)) as [Hlt|Hge]; [discriminate|].
  destruct (Z.gtb_spec (p_weight a) (p_weight b)) as [Hgt|Hle]; [intros _; left; lia|].
  destruct (String.ltb x y) eqn:L; [discriminate|]. intros _.
  right. split; [lia | now apply string_ltb_total].
Qed.

(** *** Insertion sort *)

Lemma sort_insert_perm {A} (cmp : A -> A -> Z) x l :
  Permutation (sort_insert cmp x l) (x :: l).
Proof.
  induction l as [|y l IH]; simpl; [reflexivity|].
  destruct (cmp x y <? 0)%Z; [reflexivity|].
  rewrite IH. apply perm_swap.
Qed.

Lemma fold_insert_perm {A} (cmp : A -> A -> Z) l acc :
  Permutation (fold_left (fun sorted x => sort_insert cmp x sorted) l acc) (acc ++ l).
Proof.
  revert acc; induction l as [|x l IH]; intros acc; simpl.
  - now rewrite app_nil_r.
  - rewrite IH, sort_insert_perm. simpl.
    rewrite (Permutation_middle acc l x). reflexivity.
Qed.

Lemma array_sort_perm {A} (cmp : A -> A -> Z) l : Permutation (array_sort cmp l) l.
Proof. unfold array_sort. now rewrite fold_insert_perm. Qed.

Lemma sort_insert_sorted x l :
  named x -> Forall named l ->
  Forall (fun y => (kw x).2 <> (kw y).2) l ->
  StronglySorted kw_before (map kw l) ->
  StronglySorted kw_before (map kw (sort_insert compare_properties x l)).
Proof.
  intros Hx. induction l as [|y l IH]; intros Hl Hne Hs; simpl.
  - constructor; constructor.
  - inversion Hl as [|? ? Hy Hl']; subst. inversion Hne as [|? ? Hxy Hne']; subst.
    simpl in Hs. apply StronglySorted_inv in Hs as [Hs Hall].
    destruct (compare_properties x y <? 0)%Z eqn:C.
    + apply compare_properties_before in C; auto.
      simpl. constructor; [constructor; assumption|].
      constructor; [assumption|].
      eapply Forall_impl; [exact Hall|]. intros z Hz. eapply kw_before_trans; eassumption.
    + apply compare_properties_after in C; auto.
      simpl. constructor; [now apply IH|].
      rewrite Forall_map. 
      assert (P : Permutation (sort_insert compare_properties x l) (x :: l))
        by apply sort_insert_perm.
      rewrite P. constructor; [exact C|]. now rewrite <- Forall_map.
Qed.

Lemma fold_insert_sorted l acc :
  Forall named (acc ++ l) -> NoDup (map (fun p => (kw p).2) (acc ++ l)) ->
  StronglySorted kw_before (map kw acc) ->
  StronglySorted kw_before
    (map kw (fold_left (fun sorted x => sort_insert compare_properties x sorted) l acc)).
Proof.
  revert acc; induction l as [|x l IH]; intros acc Hn Hd Hs; simpl; [exact Hs|].
  assert (P : Permutation (sort_insert compare_properties x acc ++ l) (acc ++ x :: l)).
  { rewrite sort_insert_perm. simpl. apply Permutation_middle. }
  apply IH.
  - now rewrite P.
  - now rewrite P.
  - rewrite Forall_app in Hn. destruct Hn as [Ha Hx]. inversion Hx; subst.
    apply sort_insert_sorted; auto.
    rewrite map_app, NoDup_app in Hd. destruct Hd as (_ & Hd & _).
    rewrite Forall_forall. intros y Hy E.
    apply (Hd (kw y).2).
    + apply list_elem_of_fmap. now exists y.
    + rewrite <- E. simpl. left.
Qed.

Lemma array_sort_sorted l :
  Forall named l -> NoDup (map (fun p => (kw p).2) l) ->
  StronglySorted kw_before (map kw (array_sort compare_properties l)).
Proof. intros. apply fold_insert_sorted; auto. constructor. Qed.

(** Two arrangements of the same elements that both follow a strict order
    are the same arrangement. *)
Lemma sorted_perm_unique (l1 l2 : list (Z * string)) :
  StronglySorted kw_before l1 -> StronglySorted kw_before l2 ->
  Permutation l1 l2 -> l1 = l2.
Proof.
  revert l2; induction l1 as [|a l1 IH]; intros l2 H1 H2 P.
  - apply Permutation_nil in P. now subst.
  - destruct l2 as [|b l2]; [apply Permutation_sym, Permutation_nil in P; discriminate|].
    apply StronglySorted_inv in H1 as [H1 A1]. apply StronglySorted_inv in H2 as [H2 A2].
    assert (a = b) as ->.
    { assert (Ia : In a (b :: l2)) by (eapply Permutation_in; [exact P | now left]).
      assert (Ib : In b (a :: l1))
        by (eapply Permutation_in; [symmetry; exact P | now left]).
      destruct Ia as [->|Ia]; [reflexivity|]. destruct Ib as [->|Ib]; [reflexivity|].
      rewrite Forall_forall in A1, A2.
      apply list_elem_of_In in Ia, Ib.
      exfalso. exact (kw_before_asym _ _ (A1 _ Ib) (A2 _ Ia)). }
    f_equal. apply IH; auto. eapply Permutation_cons_inv; exact P.
Qed.


(** *** What [build_properties] builds *)

Lemma childData_key E d k v st child st' :
  childData E d k v st = (Ok child, st') -> key child = Some k.
Proof.
  unfold childData, bind. destruct (get_key E (definition d) k st) as [[x|err] st1]; [|discriminate].
  destruct (String.eqb _ "array"); [|destruct (String.eqb _ "object")]; simpl;
    intros [= <- _]; reflexivity.
Qed.

Lemma build_properties_kw E d props unknownKeys st entries unknownKeys' st' :
  build_properties E d props unknownKeys st = (Ok (entries, unknownKeys'), st') ->
  map kw entries = map (fun kv => (default 0%Z (vprop d_weight kv.2), kv.1)) props
  /\ Forall named entries.
Proof.
  revert unknownKeys st entries unknownKeys' st'.
  induction props as [|[k v] props IH]; intros u st entries u' st' H; simpl in H.
  - inversion H; subst. split; constructor.
  - unfold bind in H.
    destruct (childData E d (KName k) v st) as [[child|err] st1] eqn:C; [|discriminate].
    apply childData_key in C.
    destruct (prop d_weight v st1) as [[w|err] st2] eqn:W; [|discriminate].
    destruct (build_properties E d props (arrayRemoveItem u k) st2)
      as [[[es u2]|err] st3] eqn:B; [|discriminate].
    inversion H; subst; clear H.
    destruct (IH _ _ _ _ _ B) as [IH1 IH2]. split.
    + simpl. f_equal; [|exact IH1]. unfold kw. simpl. rewrite C. simpl. f_equal.
      destruct v; simpl in W; inversion W; reflexivity.
    + constructor; [|exact IH2]. exists k. exact C.
Qed.

End PropertyOrder.

(** ** Fuel *)

Section Fuel.

Variable E : Env.

(** *** More fuel changes no result *)

(** Whatever [c] returns, [c'] returns too. *)
Definition extends {A} (c c' : W A) : Prop :=
  forall st r, c st = Some r -> c' st = Some r.

Lemma extends_refl {A} (c : W A) : extends c c.
Proof. now intros st r. Qed.

Lemma extends_wbind {A B} (c c' : W A) (k k' : A -> W B) :
  extends c c' -> (forall a, extends (k a) (k' a)) ->
  extends (wbind c k) (wbind c' k').
Proof.
  intros Hc Hk st r. unfold wbind.
  destruct (c st) as [[[a|err] st1]|] eqn:Ec; [| |discriminate];
    rewrite (Hc _ _ Ec); [apply Hk | trivial].
Qed.

Section Step.

Variables normalize_rec normalize_rec' : data -> W jsval.
Hypothesis Hrec : forall d, extends (normalize_rec d) (normalize_rec' d).

(** Follow the shape of the walk down to the recursive calls. *)
Ltac extends_auto :=
  first
    [ apply extends_refl
    | apply Hrec
    | solve [auto]
    | apply extends_wbind; [extends_auto | intros ?; extends_auto]
    | lazymatch goal with
      | |- extends (if ?b then _ else _) (if ?b then _ else _) => destruct b; extends_auto
      | |- extends (match ?x with _ => _ end) (match ?x with _ => _ end) =>
          destruct x; extends_auto
      end
    | idtac ].

Lemma extends_runChildValidator d :
  extends (runChildValidator E normalize_rec d) (runChildValidator E normalize_rec' d).
Proof. unfold runChildValidator, construct. extends_auto. Qed.

Lemma extends_wforEach {A} (l : list A) (body body' : A -> W unit) :
  (forall x, extends (body x) (body' x)) -> extends (wforEach l body) (wforEach l body').
Proof.
  intros H. induction l as [|x l IH]; simpl; [apply extends_refl|].
  apply extends_wbind; [apply H | intros _; exact IH].
Qed.

Lemma extends_normalize_array d v :
  extends (normalize_array E normalize_rec d v) (normalize_array E normalize_rec' d v).
Proof.
  unfold normalize_array. apply extends_wbind; [apply extends_refl|]. intros indices.
  apply extends_wforEach. intros i.
  pose proof extends_runChildValidator. extends_auto.
Qed.

Lemma extends_normalize_additional d v keys notAllowed :
  extends (normalize_additional E normalize_rec d v keys notAllowed)
          (normalize_additional E normalize_rec' d v keys notAllowed).
Proof.
  revert notAllowed. induction keys as [|k keys IH]; intros notAllowed; simpl;
    [apply extends_refl|].
  apply extends_wbind; [|intros n; apply IH].
  unfold normalize_additional_key. pose proof extends_runChildValidator. extends_auto.
Qed.

Lemma extends_normalize_properties target properties acc :
  extends (normalize_properties E normalize_rec target properties acc)
          (normalize_properties E normalize_rec' target properties acc).
Proof.
  revert acc. induction properties as [|p properties IH]; intros acc; simpl;
    [apply extends_refl|].
  apply extends_wbind; [|intros acc'; apply IH].
  unfold normalize_property. destruct acc as [m n].
  pose proof extends_runChildValidator. extends_auto.
Qed.

Lemma extends_normalize_object d v :
  extends (normalize_object E normalize_rec d v) (normalize_object E normalize_rec' d v).
Proof.
  unfold normalize_object, normalize_structured.
  pose proof extends_normalize_additional. pose proof extends_normalize_properties.
  extends_auto.
Qed.

Lemma extends_normalize_try d :
  extends (normalize_try E normalize_rec d) (normalize_try E normalize_rec' d).
Proof.
  unfold normalize_try, dispatch.
  pose proof extends_normalize_array. pose proof extends_normalize_object.
  extends_auto.
Qed.

End Step.

Lemma extends_normalize_succ fuel d : extends (normalize E fuel d) (normalize E (S fuel) d).
Proof.
  revert d. induction fuel as [|fuel IH]; intros d st r; [discriminate|].
  change (normalize E (S fuel) d st) with
    (match normalize_try E (normalize E fuel) d st with
     | Some (Ok v, st') => Some (Ok v, st')
     | Some (Throw err, st') =>
         Some (Ok (result d), add_messages [(exception d, unexpected err)] [] st')
     | None => None
     end).
  change (normalize E (S (S fuel)) d st) with
    (match normalize_try E (normalize E (S fuel)) d st with
     | Some (Ok v, st') => Some (Ok v, st')
     | Some (Throw err, st') =>
         Some (Ok (result d), add_messages [(exception d, unexpected err)] [] st')
     | None => None
     end).
  destruct (normalize_try E (normalize E fuel) d st) as [t|] eqn:T; [|discriminate].
  now rewrite (extends_normalize_try _ _ IH d st t T).
Qed.

Lemma extends_normalize fuel fuel' d :
  fuel <= fuel' -> extends (normalize E fuel d) (normalize E fuel' d).
Proof.
  induction 1 as [|fuel' _ IH]; [apply extends_refl|].
  intros st r H. now apply extends_normalize_succ, IH.
Qed.

End Fuel.

(** ** Termination and the cycle guard *)

Section Termination.

Variable E : Env.

(** *** The measure: definition objects not yet in [map] *)

(** [map.get(r)] is truthy. *)
Definition cached (st : wstate) (r : ref) : bool :=
  match w_map st !! r with
  | Some v => truthy v
  | None => false
  end.

(** The objects of the raw definition the walk has not entered yet. *)
Definition unseen (st : wstate) : nat :=
  length (List.filter (fun a => negb (cached st (Def a))) (seq 0 (length (defs E)))).

(** No truthy entry of [map] is ever replaced. *)
Definition grows (st st' : wstate) : Prop :=
  forall r v, w_map st !! r = Some v -> truthy v = true -> w_map st' !! r = Some v.

Lemma grows_refl st : grows st st.
Proof. intros r v H _. exact H. Qed.

Lemma grows_trans st1 st2 st3 : grows st1 st2 -> grows st2 st3 -> grows st1 st3.
Proof. intros H1 H2 r v H T. apply H2; auto. Qed.

Lemma grows_same_map st st' : w_map st' = w_map st -> grows st st'.
Proof. intros H r v. now rewrite H. Qed.

Lemma grows_cached st st' r : grows st st' -> cached st r = true -> cached st' r = true.
Proof.
  unfold cached. intros H C. destruct (w_map st !! r) as [v|] eqn:L; [|discriminate].
  now rewrite (H _ _ L C).
Qed.

Lemma filter_length_le {A} (f g : A -> bool) l :
  (forall x, f x = true -> g x = true) ->
  length (List.filter f l) <= length (List.filter g l).
Proof.
  intros H. induction l as [|x l IH]; simpl; [lia|].
  destruct (f x) eqn:F; [rewrite (H _ F); simpl; lia|].
  destruct (g x); simpl; lia.
Qed.

Lemma filter_length_lt {A} (f g : A -> bool) l x :
  (forall y, f y = true -> g y = true) ->
  In x l -> f x = false -> g x = true ->
  length (List.filter f l) < length (List.filter g l).
Proof.
  intros H. induction l as [|y l IH]; simpl; [contradiction|].
  intros [->|Hin] Fx Gx.
  - rewrite Fx, Gx. simpl. pose proof (filter_length_le f g l H). lia.
  - specialize (IH Hin Fx Gx). destruct (f y) eqn:F; [rewrite (H _ F); simpl; lia|].
    destruct (g y); simpl; lia.
Qed.

Lemma unseen_grows st st' : grows st st' -> unseen st' <= unseen st.
Proof.
  intros H. apply filter_length_le. intros a.
  destruct (cached st (Def a)) eqn:C; [|reflexivity].
  now rewrite (grows_cached _ _ _ H C).
Qed.

Lemma unseen_same_map st st' : w_map st' = w_map st -> unseen st' = unseen st.
Proof. intros H. unfold unseen, cached. now rewrite H. Qed.

(** Entering a definition object that was not cached. *)
Lemma grows_enter st r v :
  cached st r = false -> grows st (set_map (<[r := v]> (w_map st)) st).
Proof.
  intros C r' v' L T. simpl. destruct (decide (r = r')) as [<-|N].
  - unfold cached in C. rewrite L in C. congruence.
  - now rewrite lookup_insert_ne.
Qed.

Lemma unseen_enter st a v :
  a < length (defs E) -> cached st (Def a) = false -> truthy v = true ->
  unseen (set_map (<[Def a := v]> (w_map st)) st) < unseen st.
Proof.
  intros Ha C T. apply (filter_length_lt _ _ _ a).
  - intros b. destruct (cached st (Def b)) eqn:Cb; [|reflexivity].
    now rewrite (grows_cached _ _ _ (grows_enter st (Def a) v C) Cb).
  - apply in_seq. lia.
  - unfold cached. simpl. rewrite lookup_insert_eq. now rewrite T.
  - now rewrite C.
Qed.

(** *** Raw values and well-formed contexts *)

(** A value of the raw definition: a primitive, or one of its objects. *)
Definition raw (v : jsval) : Prop :=
  match v with
  | JPrim _ => True
  | JRef (Def a) => a < length (defs E)
  | JRef (Obj _) => False
  end.

(** The raw definition refers to nothing but itself. *)
Definition closed : Prop :=
  forall a o, defs E !! a = Some o ->
    match o with
    | OArray l => Forall raw l
    | OObject props => Forall (fun kv => raw kv.2) props
    end.

Definition raw_store : store := {| s_defs := defs E; s_objs := [] |}.

(** A context as [childData] makes them: the definition is raw,
    [definitionType] is its type, and an object comes with a result. *)
Definition good (d : data) : Prop :=
  raw (definition d)
  /\ definitionType d = getDefinitionType raw_store (definition d)
  /\ (is_object (definition d) = true -> truthy (result d) = true).

Lemma getDefinitionType_raw st v :
  raw v -> getDefinitionType (store_of E st) v = getDefinitionType raw_store v.
Proof. destruct v as [p|[a|a]]; simpl; [reflexivity | reflexivity | contradiction]. Qed.

Lemma good_set_validator v d : good d -> good (set_validator v d).
Proof. exact id. Qed.


(** *** Steps that leave [map] alone *)

(** The step does not touch [map], and what it returns satisfies [Q]. *)
Definition quiet {A} (c : M wstate A) (Q : A -> Prop) : Prop :=
  forall st, w_map (c st).2 = w_map st /\ forall a, (c st).1 = Ok a -> Q a.

Definition any {A} : A -> Prop := fun _ => True.

Lemma quiet_ret {A} (a : A) (Q : A -> Prop) : Q a -> quiet (ret a) Q.
Proof. intros H st. split; [reflexivity|]. now intros ? [= <-]. Qed.

Lemma quiet_throw {A} err (Q : A -> Prop) : quiet (throw err) Q.
Proof. intros st. split; [reflexivity | discriminate]. Qed.

Lemma quiet_bind {A B} (c : M wstate A) (k : A -> M wstate B) Q Q' :
  quiet c Q -> (forall a, Q a -> quiet (k a) Q') -> quiet (bind c k) Q'.
Proof.
  intros Hc Hk st. unfold bind. destruct (Hc st) as [Hm Hq].
  destruct (c st) as [[a|err] st1]; simpl in *.
  - destruct (Hk a (Hq a eq_refl) st1) as [Hm' Hq']. split; [congruence | exact Hq'].
  - split; [exact Hm | discriminate].
Qed.

Lemma quiet_weaken {A} (c : M wstate A) (Q Q' : A -> Prop) :
  quiet c Q -> (forall a, Q a -> Q' a) -> quiet c Q'.
Proof. intros H HQ st. destruct (H st) as [Hm Hq]. split; auto. Qed.

Lemma quiet_any {A} (c : M wstate A) Q : quiet c Q -> quiet c any.
Proof. intros H. apply (quiet_weaken _ _ _ H). now intros. Qed.

Lemma quiet_state {A} (c : wstate -> M wstate A) (Q : A -> Prop) :
  (forall st0, quiet (c st0) Q) -> quiet (fun st => c st st) Q.
Proof. intros H st. exact (H st st). Qed.

Lemma quiet_message p text : quiet (message p text) any.
Proof. intros st. split; [reflexivity | now intros]. Qed.

Lemma quiet_forEach {A} (l : list A) (body : A -> M wstate unit) :
  (forall x, quiet (body x) any) -> quiet (forEach l body) any.
Proof.
  intros H. induction l as [|x l IH]; simpl; [now apply quiet_ret|].
  eapply quiet_bind; [apply H | intros _ _; exact IH].
Qed.

(** Close a [quiet] goal by following the shape of the step. *)
Ltac quiet_auto :=
  first
    [ assumption
    | apply quiet_throw
    | apply quiet_message
    | apply quiet_ret; first [exact I | assumption | idtac]
    | eapply quiet_bind; [quiet_auto | intros ? ?; quiet_auto]
    | lazymatch goal with
      | |- quiet (if ?b then _ else _) _ => destruct b; quiet_auto
      | |- quiet (match ?x with _ => _ end) _ => destruct x; quiet_auto
      end
    | solve [eauto using quiet_any]
    | idtac ].

Lemma quiet_call {A} (f : callback A) d : quiet (call f d) any.
Proof.
  intros st. unfold call.
  destruct (f (cbdata_of d st) _) as [o rep]. split; [reflexivity | now intros].
Qed.

Lemma quiet_fn {A} (value : field A) d : quiet (fn value d) any.
Proof.
  unfold fn. destruct value as [a|f]; [now apply quiet_ret|].
  eapply quiet_bind; [apply quiet_call|]. intros [a|err] _; quiet_auto.
Qed.

Lemma quiet_fn_validator v d : quiet (fn_validator v d) any.
Proof.
  unfold fn_validator. destruct v; try (now apply quiet_ret).
  eapply quiet_bind; [apply quiet_fn|]. intros; now apply quiet_ret.
Qed.

Lemma quiet_prop {A} (get : descriptor -> option A) v : quiet (prop get v) any.
Proof. unfold prop. destruct v; quiet_auto. Qed.

Lemma quiet_prop_validator get v : quiet (prop_validator get v) any.
Proof. unfold prop_validator. destruct v; quiet_auto. Qed.

Lemma quiet_pop_type m : quiet (pop_type m) any.
Proof.
  intros st. unfold pop_type. destruct m as [[| |a]|]; (split; [reflexivity | now intros]).
Qed.

Lemma quiet_validateType ty d : quiet (validateType E ty d) any.
Proof.
  unfold validateType.
  eapply quiet_bind; [apply quiet_prop|]. intros [t|] _; [|quiet_auto].
  destruct (type_truthy t && _); [|quiet_auto].
  eapply quiet_bind; [apply quiet_fn|]. intros m _.
  eapply (quiet_bind _ _ any); [intros st; split; [reflexivity | now intros]|].
  intros matches _. pose proof (quiet_pop_type m). quiet_auto.
Qed.

Lemma quiet_check_enum v d : quiet (check_enum E v d) any.
Proof.
  unfold check_enum.
  eapply quiet_bind; [apply quiet_prop|]. intros [e|] _; [|quiet_auto].
  eapply quiet_bind; [apply quiet_fn|]. intros [m|] _; quiet_auto.
Qed.

Lemma quiet_flag_holds f d : quiet (flag_holds f d) any.
Proof.
  unfold flag_holds. destruct f as [x|]; [|quiet_auto].
  destruct (flag_truthy _); [|quiet_auto].
  eapply quiet_bind; [apply quiet_fn|]. intros; quiet_auto.
Qed.

Lemma quiet_allowed_of v d : quiet (allowed_of v d) any.
Proof.
  unfold allowed_of.
  eapply quiet_bind; [apply quiet_prop|]. intros [x|] _; [|quiet_auto].
  eapply quiet_bind; [apply quiet_fn|]. intros; quiet_auto.
Qed.

Lemma quiet_run_errors errors d v : quiet (run_errors errors d v) any.
Proof.
  unfold run_errors, fn_errors. destruct errors; [|quiet_auto].
  eapply quiet_bind; [apply quiet_fn|]. intros; quiet_auto.
Qed.

Lemma quiet_report_keys d m n u : quiet (report_keys d m n u) any.
Proof. unfold report_keys. quiet_auto. Qed.

Lemma quiet_unknown_data_type d : quiet (unknown_data_type d) any.
Proof. apply quiet_message. Qed.


(** State functions: they change [w_objs] or the messages only. *)
Ltac quiet_state_fn :=
  intros st;
  repeat lazymatch goal with
         | |- context [match ?x with _ => _ end] => destruct x
         end;
  (split; [reflexivity | first [discriminate | now intros]]).

Lemma quiet_alloc o : quiet (alloc o) (fun v => truthy v = true).
Proof. intros st. split; [reflexivity|]. now intros a [= <-]. Qed.

Lemma quiet_push target v : quiet (push target v) any.
Proof. unfold push. quiet_state_fn. Qed.

Lemma quiet_set_property target k v : quiet (set_property target k v) any.
Proof. unfold set_property. quiet_state_fn. Qed.

Lemma quiet_array_indices v : quiet (array_indices E v) any.
Proof. unfold array_indices. quiet_state_fn. Qed.

Lemma quiet_keys_of v : quiet (keys_of E v) any.
Proof.
  unfold keys_of, object_keys, ret, throw. quiet_state_fn.
Qed.

Lemma quiet_get_key_any v k : quiet (get_key E v k) any.
Proof.
  unfold get_key, get_property, ret, throw. quiet_state_fn.
Qed.

Lemma quiet_object_assign target source : quiet (object_assign E target source) any.
Proof.
  unfold object_assign.
  assert (H : quiet (let* ks := keys_of E source in
                     forEach ks (fun k =>
                       let* v := get_key E source (KName k) in
                       set_property target k v)) any).
  { eapply quiet_bind; [apply quiet_keys_of|]. intros ks _.
    apply quiet_forEach. intros k.
    eapply quiet_bind; [apply quiet_get_key_any|]. intros; apply quiet_set_property. }
  destruct source as [[| | | |]|]; auto; now apply quiet_ret.
Qed.

Lemma quiet_util_copy v :
  quiet (fun st => let '(c, h) := util_copy E v (w_objs st) in (Ok c, set_objs h st)) any.
Proof.
  intros st. destruct (util_copy E v (w_objs st)). split; [reflexivity | now intros].
Qed.

(** *** What the walk reads of a raw definition is raw *)

Lemma assoc_raw k props x :
  Forall (fun kv : string * jsval => raw kv.2) props -> assoc k props = Some x -> raw x.
Proof.
  induction 1 as [|[k' v'] props Hv _ IH]; simpl; [discriminate|].
  destruct (String.eqb k k'); [now intros [= <-] | exact IH].
Qed.

Lemma lookup_raw (l : list jsval) i x : Forall raw l -> l !! i = Some x -> raw x.
Proof. intros H L. rewrite Forall_forall in H. apply H. eapply list_elem_of_lookup_2, L. Qed.

Lemma element_named_raw k l x : Forall raw l -> element_named k l = Some x -> raw x.
Proof.
  unfold element_named. intros H. destruct (find _ _); [|discriminate]. now apply lookup_raw.
Qed.

Lemma chars_raw x : Forall raw (map (fun c => JPrim (PStr (String c ""))) (list_ascii_of_string x)).
Proof. apply Forall_forall. intros v Hv. apply list_elem_of_fmap in Hv as (c & -> & _). exact I. Qed.

Lemma own_property_raw st v k x :
  closed -> raw v -> own_property (store_of E st) v k = Some x -> raw x.
Proof.
  intros Hc Hv. destruct v as [p|[a|a]]; simpl in *; [|..|contradiction].
  - destruct p; try discriminate.
    destruct (String.eqb k "length"); [now intros [= <-]|].
    apply element_named_raw, chars_raw.
  - destruct (defs E !! a) as [[l|props]|] eqn:D; [| |discriminate].
    + specialize (Hc _ _ D). simpl in Hc.
      destruct (String.eqb k "length"); [now intros [= <-]|]. now apply element_named_raw.
    + specialize (Hc _ _ D). simpl in Hc. now apply assoc_raw.
Qed.

Lemma quiet_get_property st0 v k :
  closed -> raw v -> quiet (@get_property wstate (store_of E st0) v k) raw.
Proof.
  intros Hc Hv st. unfold get_property.
  assert (Hown : raw match own_property (store_of E st0) v k with
                     | Some x => x
                     | None => undefined
                     end).
  { destruct (own_property (store_of E st0) v k) eqn:O; [|exact I].
    eapply own_property_raw; eassumption. }
  destruct v as [[| | | |]|r]; unfold ret, throw;
    (split; [reflexivity|]); try discriminate; intros a [= <-]; exact Hown.
Qed.

Lemma quiet_get_key v k : closed -> raw v -> quiet (get_key E v k) raw.
Proof.
  intros Hc Hv st. unfold get_key.
  destruct k as [i|n]; [|now apply quiet_get_property].
  destruct v as [p|r]; [now apply quiet_get_property|].
  destruct (deref (store_of E st) r) as [[l|props]|] eqn:D;
    try (now apply quiet_get_property).
  split; [reflexivity|]. intros a [= <-].
  destruct (l !! i) as [x|] eqn:L; [|exact I]. simpl.
  destruct r as [a|a]; [|contradiction]. simpl in D.
  specialize (Hc _ _ D). simpl in Hc. eapply lookup_raw; eassumption.
Qed.

(** [childData] makes well-formed children. *)
Lemma quiet_childData d k v : closed -> raw (definition d) -> quiet (childData E d k v) good.
Proof.
  intros Hc Hd. unfold childData.
  eapply quiet_bind; [now apply quiet_get_key|]. intros x Hx.
  intros st. rewrite (getDefinitionType_raw st x Hx). revert st.
  change (quiet
            (let* result :=
               if String.eqb (getDefinitionType raw_store x) "array" then alloc (OArray [])
               else if String.eqb (getDefinitionType raw_store x) "object" then alloc (OObject [])
               else ret x in
             ret {| definition := x;
                    definitionType := getDefinitionType raw_store x;
                    exception := at_key (exception d) k;
                    key := Some k;
                    major := major d;
                    minor := minor d;
                    patch := patch d;
                    parent := frame_of d :: parent d;
                    result := result;
                    validator_of := v;
                    warn := at_key (warn d) k |}) good).
  assert (Hobj : is_object x = true ->
                 getDefinitionType raw_store x = "array" \/ getDefinitionType raw_store x = "object").
  { destruct x as [p|r]; [discriminate|]. intros _. simpl.
    destruct (deref raw_store r) as [[]|]; auto. }
  assert (Hprim : is_object x = false ->
                  String.eqb (getDefinitionType raw_store x) "array" = false
                  /\ String.eqb (getDefinitionType raw_store x) "object" = false).
  { destruct x as [[| | | |]|r]; try discriminate; intros _; split; reflexivity. }
  destruct (is_object x) eqn:O.
  - destruct (Hobj eq_refl) as [T|T]; rewrite T; simpl;
      (eapply quiet_bind; [apply quiet_alloc|]); intros r Hr; apply quiet_ret;
      (split; [exact Hx | split; [simpl; now rewrite T | now intros]]).
  - destruct (Hprim eq_refl) as [-> ->].
    eapply quiet_bind; [apply quiet_ret; exact I|]. intros r _. apply quiet_ret.
    split; [exact Hx | split; [reflexivity | simpl; congruence]].
Qed.

Lemma quiet_organize d keys u : quiet (organize E d keys u) any.
Proof.
  revert u. induction keys as [|k keys IH]; intros u; simpl; [now apply quiet_ret|].
  destruct (rxExtension_test k); [|apply IH].
  eapply quiet_bind; [apply quiet_get_key_any|]. intros v _.
  eapply quiet_bind; [apply quiet_set_property|]. intros _ _. apply IH.
Qed.

Lemma quiet_build_properties d props u :
  closed -> raw (definition d) ->
  quiet (build_properties E d props u)
        (fun r => Forall (fun p => good (p_data p)) r.1).
Proof.
  intros Hc Hd. revert u. induction props as [|[k v] props IH]; intros u; simpl.
  - apply quiet_ret. constructor.
  - eapply quiet_bind; [now apply quiet_childData|]. intros child Hchild.
    eapply quiet_bind; [apply quiet_prop|]. intros w _.
    eapply quiet_bind; [apply IH|]. intros [entries u'] Hentries.
    apply quiet_ret. simpl. now constructor.
Qed.


Lemma normalize_never_throws_aux fuel d st :
  match normalize E fuel d st with
  | Some (Throw _, _) => False
  | _ => True
  end.
Proof.
  destruct fuel as [|fuel]; simpl; [exact I|].
  now destruct (normalize_try E (normalize E fuel) d st) as [[[v|e] st1]|].
Qed.

(** *** Walks that end *)

(** From [st] the walk [c] ends, with or without a throw, and leaves the
    truthy entries of [map] as they were; what it returns satisfies [Q]. *)
Definition halts {A} (st : wstate) (c : W A) (Q : A -> Prop) : Prop :=
  exists o st', c st = Some (o, st') /\ grows st st' /\ forall a, o = Ok a -> Q a.

(** [c] ends from every state with fewer than [f] objects unseen. *)
Definition safe {A} (f : nat) (c : W A) (Q : A -> Prop) : Prop :=
  forall st, unseen st < f -> halts st c Q.

Lemma halts_wret {A} st (a : A) (Q : A -> Prop) : Q a -> halts st (wret a) Q.
Proof.
  intros H. exists (Ok a), st. split; [reflexivity|].
  split; [apply grows_refl | now intros ? [= <-]].
Qed.

Lemma halts_wbind {A B} st (c : W A) (k : A -> W B) Q Q' :
  halts st c Q ->
  (forall a st', Q a -> grows st st' -> halts st' (k a) Q') ->
  halts st (wbind c k) Q'.
Proof.
  intros (o & st1 & Hc & Hg & Hq) Hk. unfold halts, wbind. rewrite Hc.
  destruct o as [a|err].
  - destruct (Hk a st1 (Hq a eq_refl) Hg) as (o' & st2 & Hk' & Hg' & Hq').
    exists o', st2. split; [exact Hk'|]. split; [eapply grows_trans; eassumption | exact Hq'].
  - exists (Throw err), st1. split; [reflexivity|]. split; [exact Hg | discriminate].
Qed.

Lemma halts_lift {A} st (c : M wstate A) Q : quiet c Q -> halts st (lift c) Q.
Proof.
  intros H. destruct (H st) as [Hm Hq]. unfold halts, lift.
  destruct (c st) as [o st1] eqn:Ec. simpl in *.
  exists o, st1. split; [reflexivity|]. split; [now apply grows_same_map|].
  intros a ->. now apply Hq.
Qed.

Lemma halts_weaken {A} st (c : W A) (Q Q' : A -> Prop) :
  halts st c Q -> (forall a, Q a -> Q' a) -> halts st c Q'.
Proof. intros (o & st' & Hc & Hg & Hq) H. exists o, st'. repeat split; auto. Qed.

Lemma safe_wret {A} f (a : A) (Q : A -> Prop) : Q a -> safe f (wret a) Q.
Proof. intros H st _. now apply halts_wret. Qed.

Lemma safe_lift {A} f (c : M wstate A) Q : quiet c Q -> safe f (lift c) Q.
Proof. intros H st _. now apply halts_lift. Qed.

Lemma safe_wbind {A B} f (c : W A) (k : A -> W B) Q Q' :
  safe f c Q -> (forall a, Q a -> safe f (k a) Q') -> safe f (wbind c k) Q'.
Proof.
  intros Hc Hk st Hst. eapply halts_wbind; [now apply Hc|].
  intros a st' Ha Hg. apply Hk; [exact Ha|].
  pose proof (unseen_grows _ _ Hg). lia.
Qed.

Lemma safe_weaken {A} f (c : W A) (Q Q' : A -> Prop) :
  safe f c Q -> (forall a, Q a -> Q' a) -> safe f c Q'.
Proof. intros H HQ st Hst. eapply halts_weaken; [now apply H | exact HQ]. Qed.

Lemma safe_wforEach {A} f (l : list A) (body : A -> W unit) :
  (forall x, safe f (body x) any) -> safe f (wforEach l body) any.
Proof.
  intros H. induction l as [|x l IH]; simpl; [now apply safe_wret|].
  eapply safe_wbind; [apply H | intros _ _; exact IH].
Qed.

(** Close a [safe] goal by following the shape of the walk. *)
Ltac safe_auto :=
  first
    [ assumption
    | apply safe_wret; first [exact I | assumption | idtac]
    | apply safe_lift; quiet_auto
    | eapply safe_wbind; [safe_auto | intros ? ?; safe_auto]
    | lazymatch goal with
      | |- safe _ (if ?b then _ else _) _ => destruct b; safe_auto
      | |- safe _ (match ?x with _ => _ end) _ => destruct x; safe_auto
      end
    | idtac ].

Section Recursion.

(** The recursive call ends on well-formed contexts, from states with fewer
    than [f] objects unseen. *)
Variable f : nat.
Variable normalize_rec : data -> W jsval.
Hypothesis Hclosed : closed.
Hypothesis Hrec : forall d, good d -> safe f (normalize_rec d) any.

Lemma safe_runChildValidator d :
  good d -> safe f (runChildValidator E normalize_rec d) any.
Proof.
  intros Hd. unfold runChildValidator.
  eapply safe_wbind; [apply safe_lift, quiet_fn_validator|]. intros v _.
  destruct v as [| b | s | g | value config | desc];
    try (destruct (validator_truthy _); [now apply Hrec | now apply safe_wret]).
  destruct (String.eqb _ "boolean"); [now apply Hrec|].
  destruct (String.eqb _ "object").
  - unfold construct. destruct (context E value); [now apply Hrec|].
    apply safe_lift, quiet_throw.
  - eapply safe_wbind; [apply safe_lift, quiet_message|]. intros; now apply safe_wret.
Qed.

Lemma safe_normalize_array d v :
  good d -> safe f (normalize_array E normalize_rec d v) any.
Proof.
  intros [Hraw _]. unfold normalize_array.
  eapply safe_wbind; [apply safe_lift, quiet_array_indices|]. intros indices _.
  apply safe_wforEach. intros i.
  eapply safe_wbind; [apply safe_lift, quiet_prop_validator|]. intros items _.
  eapply safe_wbind; [apply safe_lift, quiet_childData; assumption|]. intros child Hchild.
  eapply safe_wbind; [now apply safe_runChildValidator|]. intros x _.
  apply safe_lift. eapply quiet_any, quiet_push.
Qed.

Lemma safe_normalize_additional_key d v k notAllowed :
  good d -> safe f (normalize_additional_key E normalize_rec d v k notAllowed) any.
Proof.
  intros [Hraw _]. unfold normalize_additional_key.
  eapply safe_wbind; [apply safe_lift, quiet_prop_validator|]. intros ap _.
  eapply safe_wbind; [apply safe_lift, quiet_childData; assumption|]. intros child Hchild.
  eapply safe_wbind; [apply safe_lift, quiet_allowed_of|]. intros allowed _.
  destruct (negb (strict_equal _ _)); [|now apply safe_wret].
  destruct (negb allowed); [now apply safe_wret|].
  eapply safe_wbind; [apply safe_lift, quiet_flag_holds|]. intros skip _.
  destruct skip; [now apply safe_wret|].
  eapply safe_wbind; [now apply safe_runChildValidator|]. intros x _.
  eapply safe_wbind; [apply safe_lift, quiet_set_property|]. intros _ _.
  eapply safe_wbind; [apply safe_lift, quiet_get_key_any|]. intros stored _.
  eapply safe_wbind; [apply safe_lift, quiet_run_errors|]. intros _ _.
  now apply safe_wret.
Qed.

Lemma safe_normalize_additional d v keys notAllowed :
  good d -> safe f (normalize_additional E normalize_rec d v keys notAllowed) any.
Proof.
  intros Hd. revert notAllowed.
  induction keys as [|k keys IH]; intros notAllowed; simpl; [now apply safe_wret|].
  eapply safe_wbind; [now apply safe_normalize_additional_key|]. intros n _. apply IH.
Qed.

Lemma safe_normalize_property target p acc :
  good (p_data p) ->
  safe f (normalize_property E normalize_rec target p acc) any.
Proof.
  intros Hp. unfold normalize_property. destruct acc as [missingRequired notAllowed].
  eapply safe_wbind; [apply safe_lift, quiet_allowed_of|]. intros allowed _.
  eapply (safe_wbind _ _ _ good).
  - destruct (vprop d_default _) as [dflt|]; [|now apply safe_wret].
    destruct (strict_equal _ _ && allowed); [|now apply safe_wret].
    eapply safe_wbind; [apply safe_lift, quiet_fn|]. intros v _.
    intros st _. apply halts_wret.
    split; [exact I | split; [reflexivity | discriminate]].
  - intros d Hd.
    destruct (negb (strict_equal _ _)).
    + destruct (negb allowed); [now apply safe_wret|].
      eapply safe_wbind; [apply safe_lift, quiet_flag_holds|]. intros skip _.
      destruct skip; [now apply safe_wret|].
      eapply safe_wbind; [now apply safe_runChildValidator|]. intros x _.
      eapply safe_wbind; [apply safe_lift, quiet_set_property|]. intros; now apply safe_wret.
    + destruct allowed; [|now apply safe_wret].
      eapply safe_wbind; [apply safe_lift, quiet_flag_holds|]. intros required _.
      destruct required; now apply safe_wret.
Qed.

Lemma safe_normalize_properties target properties acc :
  Forall (fun p => good (p_data p)) properties ->
  safe f (normalize_properties E normalize_rec target properties acc) any.
Proof.
  intros H. revert acc. induction H as [|p properties Hp _ IH]; intros acc; simpl;
    [now apply safe_wret|].
  eapply safe_wbind; [now apply safe_normalize_property|]. intros acc' _. apply IH.
Qed.

Lemma Forall_sort_insert {A} (P : A -> Prop) cmp x l :
  P x -> Forall P l -> Forall P (sort_insert cmp x l).
Proof.
  intros Hx Hl. induction Hl as [|y l Hy Hl IH]; simpl.
  - now repeat constructor.
  - destruct (cmp x y <? 0)%Z; repeat constructor; auto.
Qed.

Lemma Forall_array_sort {A} (P : A -> Prop) cmp l :
  Forall P l -> Forall P (array_sort cmp l).
Proof.
  unfold array_sort. assert (Hacc : Forall P (@nil A)) by constructor.
  revert Hacc. generalize (@nil A) as acc.
  induction l as [|x l IH]; intros acc Hacc Hl; simpl; [exact Hacc|].
  inversion Hl; subst. apply IH; [|assumption]. now apply Forall_sort_insert.
Qed.

Lemma safe_normalize_structured d v keys :
  good d -> safe f (normalize_structured E normalize_rec d v keys) any.
Proof.
  intros [Hraw _]. unfold normalize_structured.
  eapply safe_wbind; [apply safe_lift, quiet_organize|]. intros u _.
  eapply safe_wbind; [apply safe_lift, quiet_build_properties; assumption|].
  intros [properties u'] Hprops. simpl in Hprops.
  eapply safe_wbind; [apply safe_normalize_properties, Forall_array_sort, Hprops|].
  intros [m n] _. now apply safe_wret.
Qed.

Lemma safe_normalize_object d v :
  good d -> safe f (normalize_object E normalize_rec d v) any.
Proof.
  intros Hd. unfold normalize_object.
  eapply (safe_wbind _ _ _ any).
  - destruct v as [| [] | s | g | value config | desc].
    all: try (eapply safe_wbind; [apply safe_lift, quiet_prop_validator|]; intros ap _;
              eapply safe_wbind; [apply safe_lift, quiet_keys_of|]; intros keys _;
              destruct (validator_truthy ap);
              [eapply safe_wbind; [now apply safe_normalize_additional|];
               intros; now apply safe_wret
              | now apply safe_normalize_structured]).
    + eapply safe_wbind; [apply safe_lift, quiet_util_copy|]. intros copy _.
      eapply safe_wbind; [apply safe_lift, quiet_object_assign|]. intros; now apply safe_wret.
    + eapply safe_wbind; [apply safe_lift, quiet_keys_of|]. intros; now apply safe_wret.
  - intros [[m n] u] _. apply safe_lift, quiet_report_keys.
Qed.

Lemma safe_dispatch d v :
  good d -> safe f (dispatch E normalize_rec d v) any.
Proof.
  intros Hd. unfold dispatch.
  destruct (String.eqb _ "array").
  { eapply safe_wbind; [now apply safe_normalize_array|]. intros; now apply safe_wret. }
  destruct (String.eqb _ "object").
  { eapply safe_wbind; [now apply safe_normalize_object|]. intros; now apply safe_wret. }
  destruct (_ || _); [now apply safe_wret|].
  eapply safe_wbind; [apply safe_lift, quiet_unknown_data_type|]. intros; now apply safe_wret.
Qed.

End Recursion.

(** A context whose definition is a primitive is dispatched without a
    recursive call. *)
Lemma halts_dispatch_primitive normalize_rec d v st :
  good d -> is_object (definition d) = false ->
  halts st (dispatch E normalize_rec d v) any.
Proof.
  intros (_ & Hty & _) Hprim. unfold dispatch. rewrite Hty.
  destruct (definition d) as [[| | | |]|r]; try discriminate; simpl;
    try (now apply halts_wret);
    (eapply halts_wbind; [apply halts_lift, quiet_unknown_data_type|]);
    intros; now apply halts_wret.
Qed.


Lemma halts_step {A B} st st1 (c : M wstate A) a (k : A -> W B) Q :
  c st = (Ok a, st1) -> grows st st1 -> halts st1 (k a) Q ->
  halts st (wbind (lift c) k) Q.
Proof.
  intros Hc Hg (o & st2 & Hk & Hg' & Hq). unfold halts, wbind, lift. rewrite Hc.
  exists o, st2. split; [exact Hk|]. split; [eapply grows_trans; eassumption | exact Hq].
Qed.

(** The three ways through the cycle guard. *)
Lemma cycle_guard_cases d st :
  good d ->
  (exists known, cycle_guard d st = (Ok (Some known), st)
                 /\ exists r, definition d = JRef r /\ w_map st !! r = Some known
                               /\ truthy known = true)
  \/ (cycle_guard d st = (Ok None, st) /\ is_object (definition d) = false)
  \/ (exists r, definition d = JRef r /\ cached st r = false
                /\ cycle_guard d st = (Ok None, set_map (<[r := result d]> (w_map st)) st)
                /\ grows st (set_map (<[r := result d]> (w_map st)) st)
                /\ unseen (set_map (<[r := result d]> (w_map st)) st) < unseen st).
Proof.
  intros (Hraw & _ & Hres). unfold cycle_guard.
  destruct (definition d) as [p|r] eqn:D; [right; left; now split|].
  destruct r as [a|a]; [|contradiction]. simpl in Hraw.
  specialize (Hres eq_refl).
  destruct (w_map st !! Def a) as [existing|] eqn:L.
  - destruct (truthy existing) eqn:T.
    + left. exists existing. split; [reflexivity|]. now exists (Def a).
    + right; right. exists (Def a).
      assert (C : cached st (Def a) = false) by (unfold cached; now rewrite L).
      repeat split; auto using grows_enter, unseen_enter.
  - right; right. exists (Def a).
    assert (C : cached st (Def a) = false) by (unfold cached; now rewrite L).
    repeat split; auto using grows_enter, unseen_enter.
Qed.

(** After the cycle guard. *)
Definition after_guard (normalize_rec : data -> W jsval) (d : data) (validator : validator)
    : W jsval :=
  let! _ := lift (check_enum E validator d) in
  let! result := dispatch E normalize_rec d validator in
  let! errors := lift (prop d_errors validator) in
  let! _ := lift (run_errors errors (set_result result d) result) in
  wret result.

Lemma safe_after_guard f normalize_rec d v :
  closed -> (forall d, good d -> safe f (normalize_rec d) any) -> good d ->
  safe f (after_guard normalize_rec d v) any.
Proof.
  intros Hc Hrec Hd. unfold after_guard.
  eapply safe_wbind; [apply safe_lift, quiet_check_enum|]. intros _ _.
  eapply safe_wbind; [now apply safe_dispatch|]. intros res _.
  eapply safe_wbind; [apply safe_lift, quiet_prop|]. intros errors _.
  eapply safe_wbind; [apply safe_lift, quiet_run_errors|]. intros; now apply safe_wret.
Qed.

Lemma halts_after_guard_primitive normalize_rec d v st :
  good d -> is_object (definition d) = false ->
  halts st (after_guard normalize_rec d v) any.
Proof.
  intros Hd Hp. unfold after_guard.
  eapply halts_wbind; [apply halts_lift, quiet_check_enum|]. intros _ st1 _ _.
  eapply halts_wbind; [now apply halts_dispatch_primitive|]. intros res st2 _ _.
  eapply halts_wbind; [apply halts_lift, quiet_prop|]. intros errors st3 _ _.
  eapply halts_wbind; [apply halts_lift, quiet_run_errors|]. intros; now apply halts_wret.
Qed.

Lemma halts_normalize_try f normalize_rec d st :
  closed -> (forall d, good d -> safe f (normalize_rec d) any) -> good d ->
  unseen st < S f ->
  halts st (normalize_try E normalize_rec d) any.
Proof.
  intros Hc Hrec Hd Hst. unfold normalize_try.
  eapply halts_wbind; [apply halts_lift, quiet_fn_validator|]. intros v st1 _ G1.
  eapply halts_wbind; [apply halts_lift, quiet_validateType|]. intros valid st2 _ G2.
  destruct valid; simpl; [|now apply halts_wret].
  fold (after_guard normalize_rec d v).
  destruct (cycle_guard_cases d st2 Hd)
    as [(known & Hg & _) | [(Hg & Hp) | (r & _ & _ & Hg & Hgrow & Hlt)]].
  - eapply halts_step; [exact Hg | apply grows_refl | now apply halts_wret].
  - eapply halts_step; [exact Hg | apply grows_refl|].
    now apply halts_after_guard_primitive.
  - eapply halts_step; [exact Hg | exact Hgrow|].
    apply (safe_after_guard f); auto.
    pose proof (unseen_grows _ _ G1). pose proof (unseen_grows _ _ G2). lia.
Qed.

Lemma safe_normalize fuel d :
  closed -> good d -> safe fuel (normalize E fuel d) any.
Proof.
  intros Hc. revert d. induction fuel as [|fuel IH]; intros d Hd st Hst; [lia|].
  destruct (halts_normalize_try fuel (normalize E fuel) d st Hc IH Hd Hst)
    as (o & st' & Ht & Hg & _).
  unfold halts. simpl. rewrite Ht. destruct o as [v|err].
  - exists (Ok v), st'. repeat split; auto.
  - eexists (Ok (result d)), _. split; [reflexivity|]. split; [|now intros].
    eapply grows_trans; [exact Hg | now apply grows_same_map].
Qed.


Lemma wbind_Ok_inv {A B} (c : W A) (k : A -> W B) st b st' :
  wbind c k st = Some (Ok b, st') ->
  exists a st1, c st = Some (Ok a, st1) /\ k a st1 = Some (Ok b, st').
Proof.
  unfold wbind. destruct (c st) as [[[a|err] st1]|]; try discriminate.
  intros H. now exists a, st1.
Qed.

(** An array or an object is dispatched to its own result. *)
Lemma dispatch_result normalize_rec d v st res st' :
  good d -> is_object (definition d) = true ->
  dispatch E normalize_rec d v st = Some (Ok res, st') -> res = result d.
Proof.
  intros (_ & Hty & _) Hobj. unfold dispatch. rewrite Hty.
  destruct (definition d) as [p|r]; [discriminate|]. simpl.
  destruct (deref raw_store r) as [[l|props]|]; simpl; intros H;
    apply wbind_Ok_inv in H as (? & ? & _ & [= <- _]); reflexivity.
Qed.

Lemma after_guard_result normalize_rec d v st res st' :
  good d -> is_object (definition d) = true ->
  after_guard normalize_rec d v st = Some (Ok res, st') -> res = result d.
Proof.
  intros Hd Hobj H. unfold after_guard in H.
  apply wbind_Ok_inv in H as (? & st1 & _ & H).
  apply wbind_Ok_inv in H as (res' & st2 & Hdis & H).
  apply (dispatch_result _ _ _ _ _ _ Hd Hobj) in Hdis. subst res'.
  apply wbind_Ok_inv in H as (? & st3 & _ & H).
  apply wbind_Ok_inv in H as (? & st4 & _ & H).
  now inversion H.
Qed.

(** A type check that answers [false] has attached its message last. *)
Lemma validateType_false ty d st st' :
  validateType E ty d st = (Ok false, st') ->
  exists errors text,
    w_errors st'
    = (errors ++ [(exception d, "Value must be " +:+ text +:+ ". Received: "
                                  +:+ util_smart E (definition d))])%list.
Proof.
  unfold validateType, bind at 1.
  destruct (prop d_type (validator_of d) st) as [[[t|]|err] st0]; try discriminate.
  destruct (type_truthy t && negb (strict_equal (definition d) undefined)); [|discriminate].
  unfold bind at 1. destruct (fn t d st0) as [[m|err] st1]; [|discriminate].
  unfold bind at 1.
  destruct (existsb _ (type_matches st1 m)); [discriminate|].
  unfold bind at 1.
  destruct (match type_matches st1 m with
            | [_] | [_; _] => ret tt
            | _ => pop_type m
            end st1) as [[[]|err] st2]; [|discriminate].
  unfold bind, message, ret. intros [= <-]. simpl. eauto.
Qed.


End Termination.

(** ** The declared properties, one after another *)

Section ProcessingOrder.

Variable E : Env.
Variable normalize_rec : data -> W jsval.

(** Follows the specification's words, "iterate through all known
    properties": the properties taken in the order given, each evaluated
    from the state and the lists the one before it left. *)
Definition evaluate_in_order (target : jsval) (order : list property)
    : W (list string * list string) :=
  fold_left (fun walk p => let! acc := walk in normalize_property E normalize_rec target p acc)
    order (wret ([], [])).

Lemma evaluate_from target order (walk : W (list string * list string)) st :
  fold_left (fun walk p => let! acc := walk in normalize_property E normalize_rec target p acc)
    order walk st
  = wbind walk (fun acc => normalize_properties E normalize_rec target order acc) st.
Proof.
  revert walk st. induction order as [|p order IH]; intros walk st; cbn [fold_left].
  - unfold wbind. cbn [normalize_properties]. unfold wret.
    now destruct (walk st) as [[[a|e] s]|].
  - rewrite IH. cbn [normalize_properties]. unfold wbind.
    now destruct (walk st) as [[[a|e] s]|].
Qed.

(** The key a property is processed under. *)
Definition key_of (p : property) : string := key_name (key (p_data p)).

(** One property adds its key to one of the two lists, or to neither. *)
Lemma normalize_property_adds target p m n st m' n' st' :
  normalize_property E normalize_rec target p (m, n) st = Some (Ok (m', n'), st') ->
  (m' = m \/ m' = (m ++ [key_of p])%list) /\ (n' = n \/ n' = (n ++ [key_of p])%list).
Proof.
  unfold normalize_property, key_of. intros H.
  apply wbind_Ok_inv in H as (allowed & s1 & _ & H).
  apply wbind_Ok_inv in H as (data & s2 & _ & H).
  destruct (negb (strict_equal (definition data) undefined)).
  - destruct (negb allowed); [injection H as <- <- _; auto|].
    apply wbind_Ok_inv in H as (skip & s3 & _ & H).
    destruct skip; [injection H as <- <- _; auto|].
    apply wbind_Ok_inv in H as (v & s4 & _ & H).
    apply wbind_Ok_inv in H as (? & s5 & _ & H).
    injection H as <- <- _; auto.
  - destruct allowed; [|injection H as <- <- _; auto].
    apply wbind_Ok_inv in H as (required & s3 & _ & H).
    destruct required; injection H as <- <- _; auto.
Qed.

Lemma normalize_properties_adds target order m n st m' n' st' :
  normalize_properties E normalize_rec target order (m, n) st = Some (Ok (m', n'), st') ->
  exists dm dn,
    m' = (m ++ dm)%list /\ n' = (n ++ dn)%list
    /\ sublist dm (map key_of order) /\ sublist dn (map key_of order).
Proof.
  revert m n st. induction order as [|p order IH]; intros m n st; cbn [normalize_properties].
  - intros [= <- <- _]. exists [], []. rewrite !app_nil_r. repeat split; constructor.
  - intros H. apply wbind_Ok_inv in H as ([m1 n1] & s1 & Hp & H).
    apply normalize_property_adds in Hp as [Hm Hn].
    apply IH in H as (dm & dn & -> & -> & Sm & Sn). cbn [map].
    destruct Hm as [-> | ->], Hn as [-> | ->].
    + exists dm, dn. repeat split; now apply sublist_cons.
    + exists dm, (key_of p :: dn). rewrite <- app_assoc.
      repeat split; [now apply sublist_cons | now apply sublist_skip].
    + exists (key_of p :: dm), dn. rewrite <- app_assoc.
      repeat split; [now apply sublist_skip | now apply sublist_cons].
    + exists (key_of p :: dm), (key_of p :: dn). rewrite <- !app_assoc.
      repeat split; now apply sublist_skip.
Qed.

(** A declared property that the definition does not have, with no
    [allowed] and no [default], and required by a literal [true]. *)
Definition required_and_absent (p : property) : Prop :=
  definition (p_data p) = undefined
  /\ exists d0, validator_of (p_data p) = VDescriptor d0
                /\ d_allowed d0 = None /\ d_default d0 = None
                /\ d_required d0 = Some (Literal true).

Lemma normalize_property_missing target p m n st :
  required_and_absent p ->
  normalize_property E normalize_rec target p (m, n) st
  = Some (Ok ((m ++ [key_of p])%list, n), st).
Proof.
  intros (Hdef & d0 & Hv & Ha & Hdf & Hr). unfold normalize_property, key_of.
  rewrite Hv. cbn [keyValidator_of vprop]. rewrite Hdf, Hr.
  unfold allowed_of, prop, bind at 1, ret. rewrite Ha.
  unfold wbind, lift, wret. rewrite Hdef. reflexivity.
Qed.

Lemma normalize_properties_missing target order m n st :
  Forall required_and_absent order ->
  normalize_properties E normalize_rec target order (m, n) st
  = Some (Ok ((m ++ map key_of order)%list, n), st).
Proof.
  intros H. revert m. induction H as [|p order Hp _ IH]; intros m; cbn [normalize_properties map].
  - unfold wret. now rewrite app_nil_r.
  - unfold wbind. rewrite (normalize_property_missing _ _ _ _ _ Hp), IH.
    now rewrite <- app_assoc.
Qed.

(** C5: in the walk of a structured object the declared properties are
    evaluated one after another, in ascending order of weight (an absent
    weight counting as 0), ties in weight resolved by ascending key name.
    The keys of one validator being distinct, this is the only arrangement
    of the declared properties in that order, whatever order they were
    declared in.  The order shows: the keys reported as missing and those
    reported as not allowed are listed in it, and when every declared
    property is required and absent the missing keys are all the keys, in
    that order. *)
Theorem properties_processed_by_weight_then_key
    (d : data) (validator : validator) (keys : list string) (st : wstate)
    (unknown : list string) (st1 : wstate)
    (entries : list property) (unknownKeys : list string) (st2 : wstate) :
  NoDup (map fst (default [] (vprop d_properties validator))) ->
  organize E d keys [] st = (Ok unknown, st1) ->
  build_properties E d (default [] (vprop d_properties validator)) unknown st1
  = (Ok (entries, unknownKeys), st2) ->
  let declared := map (fun kv => (default 0%Z (vprop d_weight kv.2), kv.1))
                    (default [] (vprop d_properties validator)) in
  exists processed,
    Permutation processed entries
    /\ Permutation (map kw processed) declared
    /\ StronglySorted kw_before (map kw processed)
    /\ (forall arrangement,
          Permutation arrangement declared -> StronglySorted kw_before arrangement ->
          arrangement = map kw processed)
    /\ normalize_structured E normalize_rec d validator keys st
       = (let! (missingRequired, notAllowed) := evaluate_in_order (result d) processed in
          wret (missingRequired, notAllowed, unknownKeys)) st2
    /\ (forall missingRequired notAllowed unknownKeys' st',
          normalize_structured E normalize_rec d validator keys st
          = Some (Ok (missingRequired, notAllowed, unknownKeys'), st') ->
          sublist missingRequired (map key_of processed)
          /\ sublist notAllowed (map key_of processed)
          /\ unknownKeys' = unknownKeys)
    /\ (Forall required_and_absent entries ->
        normalize_structured E normalize_rec d validator keys st
        = Some (Ok (map key_of processed, [], unknownKeys), st2)).
Proof.
  intros Hd Ho Hb declared.
  set (processed := array_sort compare_properties entries).
  destruct (build_properties_kw _ _ _ _ _ _ _ _ Hb) as [Hkw Hnamed].
  assert (Hpe : Permutation processed entries) by apply array_sort_perm.
  assert (Hperm : Permutation (map kw processed) declared).
  { subst declared. rewrite <- Hkw. now apply Permutation_map. }
  assert (Hsorted : StronglySorted kw_before (map kw processed)).
  { subst processed. apply array_sort_sorted; [exact Hnamed|].
    replace (map (fun p => (kw p).2) entries) with (map snd (map kw entries))
      by (rewrite map_map; reflexivity).
    rewrite Hkw, map_map. simpl. exact Hd. }
  assert (Hwalk : normalize_structured E normalize_rec d validator keys st
                  = wbind (normalize_properties E normalize_rec (result d) processed ([], []))
                      (fun '(missingRequired, notAllowed) =>
                         wret (missingRequired, notAllowed, unknownKeys)) st2).
  { unfold normalize_structured, wbind at 1, lift at 1. rewrite Ho.
    unfold wbind at 1, lift at 1. rewrite Hb. reflexivity. }
  exists processed. split; [exact Hpe|]. split; [exact Hperm|]. split; [exact Hsorted|].
  split; [|split; [|split]].
  - intros arrangement Pa Sa. apply sorted_perm_unique; auto. now rewrite Pa, Hperm.
  - assert (Hev : evaluate_in_order (result d) processed st2
                  = normalize_properties E normalize_rec (result d) processed ([], []) st2)
      by (unfold evaluate_in_order; now rewrite evaluate_from).
    rewrite Hwalk. unfold wbind. now rewrite Hev.
  - intros m n u st' H. rewrite Hwalk in H.
    apply wbind_Ok_inv in H as ([m0 n0] & s & Hp & H). injection H as <- <- <- _.
    apply normalize_properties_adds in Hp as (dm & dn & -> & -> & Sm & Sn). auto.
  - intros Hall. rewrite Hwalk. unfold wbind.
    rewrite normalize_properties_missing; [reflexivity|].
    eapply Permutation_Forall; [symmetry; exact Hpe | exact Hall].
Qed.

End ProcessingOrder.

(** ** Instances *)

Definition weighted (type : string) (weight : option Z) : validator :=
  VDescriptor
    {| d_type := Some (Literal (TOne type)); d_enum := None; d_items := VUndefined;
       d_additionalProperties := VUndefined; d_properties := None;
       d_allowed := None; d_default := None; d_ignored := None;
       d_required := None; d_errors := None; d_weight := weight |}.

Definition with_properties (props : list (string * validator)) : validator :=
  VDescriptor
    {| d_type := Some (Literal (TOne "object")); d_enum := None; d_items := VUndefined;
       d_additionalProperties := VUndefined; d_properties := Some props;
       d_allowed := None; d_default := None; d_ignored := None;
       d_required := None; d_errors := None; d_weight := None |}.

(** The language and the utilities of the examples.  ToString, ToNumber and
    ToPropertyKey are exact on the values the examples apply them to:
    [undefined], [null], the booleans, NaN and the natural numbers below
    2^53, the strings made of at most 15 decimal digits, the empty string
    and the strings that are no numeric literal, and plain objects (one that
    owns a property [toString], which holds no function, has no primitive
    value).  The examples convert no array, read no name that
    [Object.prototype] defines, copy nothing, and state no text that
    [util.smart] makes. *)
Definition natural_of (n : float) : option Z :=
  match Prim2SF n with
  | S754_zero _ => Some 0%Z
  | S754_finite false m e =>
      if (0 <=? e)%Z then Some (Z.pos m * 2 ^ e)%Z
      else if (Z.land (Z.pos m) (Z.ones (- e)) =? 0)%Z then Some (Z.shiftr (Z.pos m) (- e))
      else None
  | _ => None
  end.

Definition show_value (v : jsval) : string :=
  match v with
  | JPrim PUndefined => "undefined"
  | JPrim PNull => "null"
  | JPrim (PBool b) => if b then "true" else "false"
  | JPrim (PNum n) =>
      match natural_of n with
      | Some z => NilZero.string_of_uint (N.to_uint (Z.to_N z))
      | None => "NaN"
      end
  | JPrim (PStr s) => s
  | JRef _ => "[object Object]"
  end.

Definition number_of_string (x : string) : float :=
  if String.eqb x "" then PrimFloat.zero
  else
    match NilZero.uint_of_string x with
    | Some u =>
        if Nat.leb (String.length x) 15
        then PrimFloat.of_uint63 (Uint63.of_Z (Z.of_N (N.of_uint u)))
        else PrimFloat.nan
    | None => PrimFloat.nan
    end.

Definition env_of (defs : heap) (context : string -> option validator) : Env :=
  {| defs := defs; context := context;
     util_smart := show_value;
     util_copy := fun v h => (v, h);
     to_string := show_value |}.

(** The root context of a version 3 document whose definition is the first
    object of the raw definition, and the state a walk starts in. *)
Definition root_state : wstate :=
  {| w_objs := [OObject []]; w_map := ∅; w_errors := []; w_warnings := []; w_types := [] |}.

Definition root_data (v : validator) : data :=
  {| definition := JRef (Def 0); definitionType := "object"; exception := []; key := None;
     major := 3; minor := 0; patch := 0; parent := []; result := JRef (Obj 0);
     validator_of := v; warn := [] |}.

(** *** A fragment of the Schema validator *)

Definition js_lang : Lang :=
  {| string_to_number := number_of_string;
     object_to_number := fun _ _ => PrimFloat.nan;
     to_property_key := show_value;
     key_converts := fun s v =>
       match v with
       | JRef r =>
           match deref s r with
           | Some (OObject props) => negb (bool_decide (is_Some (assoc "toString" props)))
           | _ => true
           end
       | JPrim _ => true
       end;
     inherited := fun _ _ _ => None |}.

(** [({ parent }) => parent.definition.type === 'object'] *)
Definition parent_type_is (defs : heap) (type : string) : callback bool :=
  fun data =>
    match cb_parents data with
    | parent_frame :: _ =>
        let* t := get_property {| s_defs := defs; s_objs := w_objs (cb_state data) |}
                    (f_definition parent_frame) "type" in
        ret (strict_equal t (JPrim (PStr type)))
    | [] => throw "TypeError: Cannot read property 'definition' of undefined"
    end.

Definition described (type : string) (items additionalProperties : validator)
    (allowed : option (field bool)) (enum : option (field (list jsval)))
    (weight : option Z) : validator :=
  VDescriptor
    {| d_type := Some (Literal (TOne type)); d_enum := enum; d_items := items;
       d_additionalProperties := additionalProperties; d_properties := None;
       d_allowed := allowed; d_default := None; d_ignored := None;
       d_required := None; d_errors := None; d_weight := weight |}.

(** The entries of the Schema validator's [properties] for [allOf],
    [oneOf], [properties] and [type], as for version 3. *)
Definition schema_properties (defs : heap) : list (string * validator) :=
  [ ("allOf", described "array" (VEnforcerRef "Schema" VUndefined) VUndefined None None None);
    ("oneOf",
     described "array" (VEnforcerRef "Schema" VUndefined) VUndefined
       (Some (Callback (fun data => ret (Nat.eqb (cb_major data) 3)))) None None);
    ("properties",
     described "object" VUndefined (VEnforcerRef "Schema" VUndefined)
       (Some (Callback (parent_type_is defs "object"))) None (Some (-5)%Z));
    ("type",
     described "string" VUndefined VUndefined None
       (Some (Callback (fun _ =>
          ret (map (fun s => JPrim (PStr s))
                 ["array"; "boolean"; "integer"; "number"; "object"; "string"]))))
       (Some (-10)%Z)) ].

Definition schema_fragment (defs : heap) : validator :=
  VFunction (fun _ => ret (VDescriptor
    {| d_type := Some (Literal (TOne "object"));
       d_enum := None; d_items := VUndefined; d_additionalProperties := VUndefined;
       d_properties := Some (schema_properties defs);
       d_allowed := None; d_default := None; d_ignored := None; d_required := None;
       d_errors := Some (schema_errors js_lang defs);
       d_weight := None |})).

Definition schema_env (defs : heap) : Env :=
  env_of defs (fun name => if String.eqb name "Schema" then Some (schema_fragment defs) else None).

(** *** One object under two keys that expect different types *)

Definition shared_defs : heap :=
  [ OObject [("a", JRef (Def 1)); ("b", JRef (Def 1))]; OObject [] ].

Definition shared_validator : validator :=
  with_properties [("a", weighted "object" None); ("b", weighted "array" None)].

Definition shared_env : Env := env_of shared_defs (fun _ => None).


(** The same object with the expectations the other way round: the first
    encounter, under [a], fails its type check and enters nothing in
    [map], so the second, under [b], is not answered from [map]: it gets the
    result of its own context, [Obj 2], which is the one [map] then holds. *)
Definition shared_validator' : validator :=
  with_properties [("a", weighted "array" None); ("b", weighted "object" None)].

Example failed_encounter_is_not_cached :
  exists st',
    normalize shared_env 2 (root_data shared_validator') root_state
    = Some (Ok (JRef (Obj 0)), st')
    /\ w_map st' !! Def 1 = Some (JRef (Obj 2))
    /\ own_property (store_of shared_env st') (JRef (Obj 0)) "a" = Some undefined
    /\ own_property (store_of shared_env st') (JRef (Obj 0)) "b" = Some (JRef (Obj 2))
    /\ w_errors st'
       = [([KName "a"],
           "Value must be an array. Received: " +:+ util_smart shared_env (JRef (Def 1)))].
Proof. eexists. split; [vm_compute; reflexivity|]. vm_compute. repeat split. Qed.

(** *** The cyclic definition of the specification's first scenario *)

Definition cycle_defs : heap :=
  [ OObject [("type", JPrim (PStr "object")); ("properties", JRef (Def 1))];
    OObject [("self", JRef (Def 0))] ].

Definition cycle_schema : validator := schema_fragment cycle_defs.

Definition cycle_env : Env := schema_env cycle_defs.

Lemma cycle_closed : closed cycle_env.
Proof.
  intros a o H. destruct a as [|[|a]]; simpl in H; inversion H; subst;
    repeat constructor; simpl; lia.
Defined.

Lemma cycle_good : good cycle_env (root_data cycle_schema).
Proof. split; [simpl; lia | split; [reflexivity | reflexivity]]. Defined.


(** The cycle collapses: the result of the schema holds [properties], whose
    [self] is the result of the schema again. *)
Example cycle_collapses :
  exists st',
    normalize cycle_env 3 (root_data cycle_schema) root_state = Some (Ok (JRef (Obj 0)), st')
    /\ own_property (store_of cycle_env st') (JRef (Obj 0)) "properties" = Some (JRef (Obj 1))
    /\ own_property (store_of cycle_env st') (JRef (Obj 1)) "self" = Some (JRef (Obj 0))
    /\ w_errors st' = [].
Proof. eexists. split; [vm_compute; reflexivity|]. vm_compute. repeat split. Qed.

(** *** Two objects with the same members *)

Definition twins_defs : heap :=
  [ OObject [("x", JPrim (PNum 1))]; OObject [("x", JPrim (PNum 1))] ].

Definition twins_validator : validator :=
  VDescriptor
    {| d_type := None; d_enum := Some (Literal [JRef (Def 1)]); d_items := VUndefined;
       d_additionalProperties := VBoolean true; d_properties := None;
       d_allowed := None; d_default := None; d_ignored := None;
       d_required := None; d_errors := None; d_weight := None |}.

Definition twins_env : Env := env_of twins_defs (fun _ => None).

(** C2 as stated fails: the definition is member-wise equal to the one
    allowed value and is not that object; the enum message is attached. *)
Lemma enum_member_wise_counterexample :
  deep_equal 2 (store_of twins_env root_state) (JRef (Def 0)) (JRef (Def 1)) = true
  /\ exists st',
       normalize twins_env 2 (root_data twins_validator) root_state
       = Some (Ok (JRef (Obj 0)), st')
       /\ w_errors st'
          = [([], enum_message twins_env [JRef (Def 1)] (JRef (Def 0)))].
Proof. split; [reflexivity|]. eexists. split; [vm_compute; reflexivity|]. reflexivity. Qed.

Definition letters_validator : validator :=
  VDescriptor
    {| d_type := None;
       d_enum := Some (Literal [JPrim (PStr "a"); JPrim (PStr "b")]);
       d_items := VUndefined;
       d_additionalProperties := VUndefined; d_properties := None;
       d_allowed := None; d_default := None; d_ignored := None;
       d_required := None; d_errors := None; d_weight := None |}.

Definition letter_data (s : string) : data :=
  {| definition := JPrim (PStr s); definitionType := "string"; exception := [KName "type"];
     key := Some (KName "type"); major := 3; minor := 0; patch := 0; parent := [];
     result := JPrim (PStr s); validator_of := letters_validator; warn := [KName "type"] |}.

(** *** An array whose validator says nothing about its items *)

Definition items_defs : heap :=
  [ OArray [JRef (Def 1)]; OObject [("x", JPrim (PNum 1))] ].

Definition items_env : Env := env_of items_defs (fun _ => None).

Definition items_state : wstate :=
  {| w_objs := [OArray []]; w_map := ∅; w_errors := []; w_warnings := []; w_types := [] |}.

Definition items_data : data :=
  {| definition := JRef (Def 0); definitionType := "array"; exception := []; key := None;
     major := 3; minor := 0; patch := 0; parent := []; result := JRef (Obj 0);
     validator_of := weighted "array" None; warn := [] |}.

(** C4 as stated fails: the item is the object [{x: 1}] at [Def 1]; its
    validator, [validator.items], is [undefined]; what is returned for it,
    and stored in the result, is a new object without members. *)
Lemma falsy_validator_counterexample :
  exists d st st',
    childData items_env items_data (KIndex 0) VUndefined items_state = (Ok d, st)
    /\ definition d = JRef (Def 1)
    /\ runChildValidator items_env (normalize items_env 1) d st
       = Some (Ok (JRef (Obj 1)), st')
    /\ deref (store_of items_env st') (Def 1) = Some (OObject [("x", JPrim (PNum 1))])
    /\ deref (store_of items_env st') (Obj 1) = Some (OObject [])
    /\ exists st'',
         normalize items_env 2 items_data items_state = Some (Ok (JRef (Obj 0)), st'')
         /\ deref (store_of items_env st'') (Obj 0) = Some (OArray [JRef (Obj 1)])
         /\ deref (store_of items_env st'') (Obj 1) = Some (OObject []).
Proof.
  eexists _, _, _. split; [vm_compute; reflexivity|].
  split; [reflexivity|]. split; [vm_compute; reflexivity|].
  split; [reflexivity|]. split; [reflexivity|].
  eexists. split; [vm_compute; reflexivity|]. split; reflexivity.
Qed.

Lemma falsy_validator_witness :
  exists d st,
    childData items_env items_data (KIndex 0) VUndefined items_state = (Ok d, st)
    /\ runChildValidator items_env (normalize items_env 1) d st = Some (Ok (result d), st)
    /\ result d = JRef (Obj 1)
    /\ w_objs st !! 1 = Some (OObject []).
Proof.
  eexists _, _. split; [vm_compute; reflexivity|].
  destruct (runChildValidator_falsy_validator items_env (normalize items_env 1)
              items_data (KIndex 0) VUndefined items_state _ _ VUndefined _
              eq_refl eq_refl eq_refl) as (Hrun & _ & Hobject).
  split; [exact Hrun|]. split; reflexivity.
Defined.

(** *** The order of the declared properties *)

Definition typed_defs : heap := [ OObject [("type", JPrim (PStr "object"))] ].

Definition ordered_entries : list property :=
  match build_properties (schema_env typed_defs) (root_data (schema_fragment typed_defs))
          (schema_properties typed_defs) [] root_state with
  | (Ok (entries, _), _) => entries
  | _ => []
  end.

(** Three required properties, declared out of order, and an object that
    has none of them. *)
Definition required (weight : option Z) : validator :=
  VDescriptor
    {| d_type := Some (Literal (TOne "string")); d_enum := None; d_items := VUndefined;
       d_additionalProperties := VUndefined; d_properties := None;
       d_allowed := None; d_default := None; d_ignored := None;
       d_required := Some (Literal true); d_errors := None; d_weight := weight |}.

Definition demanding : validator :=
  with_properties
    [("zeta", required None); ("alpha", required None); ("mid", required (Some (-5)%Z))].

Definition bare_env : Env := env_of [OObject []] (fun _ => None).

(** The elements of [properties] made for them. *)
Definition demanded : list property :=
  match build_properties bare_env (root_data demanding)
          (default [] (vprop d_properties demanding)) [] root_state with
  | (Ok (entries, _), _) => entries
  | _ => []
  end.

Lemma property_order_witness :
  normalize_structured bare_env (normalize bare_env 0) (root_data demanding) demanding []
    root_state
  = Some (Ok (["mid"; "alpha"; "zeta"], [], []), root_state).
Proof.
  destruct (properties_processed_by_weight_then_key bare_env (normalize bare_env 0)
              (root_data demanding) demanding [] root_state [] root_state demanded []
              root_state)
    as (processed & _ & _ & _ & Hunique & _ & _ & Hall).
  - apply (bool_decide_unpack _). vm_compute. reflexivity.
  - reflexivity.
  - vm_compute. reflexivity.
  - rewrite Hall.
    + assert (Hk : map key_of processed = map snd (map kw processed))
        by (rewrite map_map; reflexivity).
      rewrite Hk, <- (Hunique [(-5, "mid"); (0, "alpha"); (0, "zeta")]%Z); [reflexivity | |].
      * apply (Permutation_rev [(-5, "mid"); (0, "alpha"); (0, "zeta")]%Z).
      * repeat constructor; solve [left; simpl; lia | right; split; reflexivity].
    + repeat constructor; eexists; repeat split.
Defined.

(** The message of that walk lists the missing keys in the order they
    were evaluated in. *)
Example missing_required_in_order :
  exists st',
    normalize bare_env 1 (root_data demanding) root_state = Some (Ok (JRef (Obj 0)), st')
    /\ w_errors st' = [([], "Missing required properties: mid, alpha, zeta")].
Proof. eexists. split; [vm_compute; reflexivity | reflexivity]. Qed.

Example schema_properties_order :
  map kw (array_sort compare_properties ordered_entries)
  = [(-10, "type"); (-5, "properties"); (0, "allOf"); (0, "oneOf")]%Z.
Proof. reflexivity. Qed.

(** *** Bounds *)

(** The context the [errors] callback is called with once the result
    [{minimum: 5, maximum: 5, exclusiveMinimum: true}] has been built. *)
Definition bounds_data : cbdata :=
  {| cb_frame :=
       {| f_definition := JRef (Obj 0); f_definitionType := "object"; f_exception := [];
          f_key := None; f_result := JRef (Obj 0); f_warn := [] |};
     cb_parents := []; cb_major := 3; cb_minor := 0; cb_patch := 0;
     cb_state :=
       {| w_objs := [OObject [("minimum", JPrim (PNum 5)); ("maximum", JPrim (PNum 5));
                             ("exclusiveMinimum", JPrim (PBool true))]];
          w_map := ∅; w_errors := []; w_warnings := []; w_types := [] |} |}.


(** *** A check that throws *)

Definition composite_defs : heap :=
  [ OObject [("type", JPrim (PStr "object")); ("properties", JPrim (PNum 5));
             ("allOf", JRef (Def 1)); ("oneOf", JRef (Def 2))];
    OArray []; OArray [] ].

(** C8 fails on the version 3 schema
    [{ type: 'object', properties: 5, allOf: [], oneOf: [] }]: the result has
    [allOf] and [oneOf], and an own [properties] that is [undefined];
    reading its keys throws inside the [errors] callback, [fn] records the
    throw, and the composites are never counted. *)
Theorem composites_unreported_after_throw :
  exists st',
    normalize (schema_env composite_defs) 4 (root_data (schema_fragment composite_defs))
      root_state
    = Some (Ok (JRef (Obj 0)), st')
    /\ composites_of (store_of (schema_env composite_defs) st') (JRef (Obj 0))
       = ["allOf"; "oneOf"]
    /\ own_property (store_of (schema_env composite_defs) st') (JRef (Obj 0)) "properties"
       = Some undefined
    /\ ~ In ([], composites_message ["allOf"; "oneOf"]) (w_errors st')
    /\ map fst (w_errors st') = [[KName "properties"]; []]
    /\ In ([], "Unexpected error encountered: TypeError: Cannot convert undefined or null to object")
         (w_errors st').
Proof.
  eexists. split; [vm_compute; reflexivity|].
  split; [reflexivity|]. split; [reflexivity|].
  split; [|split; [reflexivity | right; left; reflexivity]].
  intros [H|[H|[]]]; discriminate H.
Qed.

Definition composite_defs' : heap :=
  [ OObject [("type", JPrim (PStr "object"));
             ("allOf", JRef (Def 1)); ("oneOf", JRef (Def 2))];
    OArray []; OArray [] ].

(** Without the offending [properties] the message is there. *)
Example composites_reported :
  exists st',
    normalize (schema_env composite_defs') 4 (root_data (schema_fragment composite_defs'))
      root_state
    = Some (Ok (JRef (Obj 0)), st')
    /\ w_errors st' = [([], "Cannot have multiple composites: allOf, oneOf")].
Proof. eexists. split; [vm_compute; reflexivity|]. reflexivity. Qed.

(** *** A callback that throws *)

Definition throwing : callback bool := fun _ => throw "Error: boom".

Lemma caught_callback_witness :
  fn (Callback throwing) (root_data VUndefined) root_state
  = (Ok None, add_messages [([], "Unexpected error encountered: Error: boom")] [] root_state).
Proof.
  exact (proj2 (proj2 (normalize_never_throws (schema_env []))) bool throwing
           (root_data VUndefined) root_state "Error: boom"
           {| r_errors := []; r_warnings := [] |} eq_refl).
Defined.

(** *** A schema without a discriminator *)

Definition pet_defs : heap :=
  [ OObject [("components", JRef (Def 1))]; OObject [("schemas", JRef (Def 2))];
    OObject [("Cat", JRef (Def 3))]; OObject [("type", JPrim (PStr "object"))];
    OObject [("petType", JPrim (PStr "Cat"))] ].

Lemma discriminate_witness :
  discriminate js_lang {| s_defs := pet_defs; s_objs := [] |}
    {| sn_major := JPrim (PNum 3); sn_openapi := JRef (Def 0); sn_discriminator := undefined |}
    (JRef (Def 4)) (JPrim (PBool true)) tt
  = (Ok (Schema_only undefined), tt).
Proof.
  exact (discriminate_without_discriminator js_lang {| s_defs := pet_defs; s_objs := [] |}
           {| sn_major := JPrim (PNum 3); sn_openapi := JRef (Def 0);
              sn_discriminator := undefined |}
           (JRef (Def 4)) (JPrim (PBool true)) eq_refl).
Defined.

(** * Part III: further properties *)

(** ** More on the populate injectors *)

Section InjectorFacts.
Import Injector.

(** The character every reference of an injector starts with. *)
Definition opener (k : replacement) : ascii :=
  match k with
  | Colon => ":"%char
  | DoubleHandlebar | Handlebar => "{"%char
  end.

(** [value.indexOf(c) === -1] *)
Fixpoint lacks (c : ascii) (s : string) : bool :=
  match s with
  | "" => true
  | String a s' => negb (Ascii.eqb a c) && lacks c s'
  end.

(** A name as the three expressions capture it. *)
Definition is_name (n : string) : bool :=
  match n with
  | "" => false
  | String c n' => is_name_start c && forallb is_name_char (list_ascii_of_string n')
  end.

Lemma single_pass_undefined r data s k :
  (forall n, data n = None) -> single_pass r data s k = skipn_string k s.
Proof.
  intros Hd. revert k. induction s as [|c s IH]; intros [|k]; simpl; auto.
  destruct (match_at r (String c s)) as [[whole name]|] eqn:Hm.
  - rewrite Hd, IH.
    destruct (match_at_app _ _ _ _ Hm) as [[t Ht] Hlen].
    destruct whole as [|w whole]; [simpl in Hlen; lia|].
    rewrite append_cons in Ht. injection Ht as -> ->.
    rewrite append_cons. simpl. rewrite Nat.sub_0_r.
    now rewrite skipn_string_app.
  - now rewrite IH.
Qed.

Lemma match_at_lacks k s : lacks (opener k) s = true -> match_at (rx_of k) s = None.
Proof.
  destruct s as [|c s]; [now destruct k|].
  cbn [lacks]. intros H. apply andb_true_iff in H as [H _]. apply negb_true_iff in H.
  rewrite Ascii.eqb_sym in H.
  unfold match_at.
  destruct k; cbn [opener] in H;
    cbn [rx_of rx_open colon handlebar doubleHandlebar strip]; rewrite H; reflexivity.
Qed.

Lemma single_pass_lacks k data s :
  lacks (opener k) s = true -> single_pass (rx_of k) data s 0 = s.
Proof.
  induction s as [|c s IH]; [reflexivity|]. intros H.
  cbn [single_pass]. rewrite (match_at_lacks k _ H).
  cbn [lacks] in H. apply andb_true_iff in H as [_ H]. now rewrite IH.
Qed.

Lemma match_at_other k c s : Ascii.eqb (opener k) c = false -> match_at (rx_of k) (String c s) = None.
Proof.
  intros H. unfold match_at.
  destruct k; cbn [opener] in H;
    cbn [rx_of rx_open colon handlebar doubleHandlebar strip]; rewrite H; reflexivity.
Qed.

Lemma single_pass_lacks_app k data pre s :
  lacks (opener k) pre = true ->
  single_pass (rx_of k) data (pre +:+ s) 0 = pre +:+ single_pass (rx_of k) data s 0.
Proof.
  induction pre as [|c pre IH]; [reflexivity|].
  cbn [lacks]. intros H. apply andb_true_iff in H as [Hc H]. apply negb_true_iff in Hc.
  rewrite Ascii.eqb_sym in Hc.
  rewrite !append_cons. cbn [single_pass]. rewrite (match_at_other k c _ Hc).
  now rewrite IH.
Qed.

Lemma prefix_append p t : String.prefix p (p +:+ t) = true.
Proof.
  induction p as [|a p IH]; [now destruct t|].
  rewrite append_cons. simpl. destruct (ascii_dec a a); [exact IH | congruence].
Qed.

(** What may follow the closing text of a reference: nothing, or a
    character the name cannot continue with. *)
Definition ends_name (s : string) : bool :=
  match s with
  | "" => true
  | String c _ => negb (is_name_char c)
  end.

Lemma match_rest_exact close n t :
  forallb is_name_char (list_ascii_of_string n) = true ->
  ends_name (close +:+ t) = true ->
  match_rest close (n +:+ close +:+ t) = Some n.
Proof.
  intros Hn He. induction n as [|a n IH].
  - rewrite append_nil_l.
    destruct (close +:+ t) as [|c u] eqn:Hu.
    + destruct close; [reflexivity | rewrite append_cons in Hu; discriminate].
    + cbn [match_rest]. cbn [ends_name] in He. apply negb_true_iff in He. rewrite He.
      rewrite <- Hu. now rewrite prefix_append.
  - cbn [list_ascii_of_string forallb] in Hn. apply andb_true_iff in Hn as [Ha Hn].
    rewrite append_cons. cbn [match_rest]. rewrite Ha, (IH Hn). reflexivity.
Qed.

Lemma strip_append p t : strip p (p +:+ t) = Some t.
Proof.
  induction p as [|a p IH]; [now destruct t|].
  rewrite append_cons. cbn [strip]. now rewrite Ascii.eqb_refl.
Qed.

Lemma match_at_reference k name t :
  is_name name = true ->
  ends_name (rx_close (rx_of k) +:+ t) = true ->
  match_at (rx_of k) (rx_open (rx_of k) +:+ name +:+ rx_close (rx_of k) +:+ t)
  = Some (rx_open (rx_of k) +:+ name +:+ rx_close (rx_of k), name).
Proof.
  intros Hn He. destruct name as [|c n]; [discriminate|].
  cbn [is_name] in Hn. apply andb_true_iff in Hn as [Hc Hn].
  unfold match_at. rewrite strip_append, append_cons, Hc.
  now rewrite (match_rest_exact _ _ _ Hn He).
Qed.

Lemma buildInjector_single_pass r value data :
  buildInjector r value data = Some (single_pass r data value 0).
Proof. unfold buildInjector. rewrite loop_single_pass by lia. reflexivity. Qed.

Lemma single_pass_reference k data name t :
  is_name name = true ->
  ends_name (rx_close (rx_of k) +:+ t) = true ->
  let reference := rx_open (rx_of k) +:+ name +:+ rx_close (rx_of k) in
  single_pass (rx_of k) data (reference +:+ t) 0
  = match data name with Some v => v | None => reference end
    +:+ single_pass (rx_of k) data t 0.
Proof.
  intros Hn He reference.
  pose proof (match_at_reference k name t Hn He) as Hm. fold reference in Hm.
  assert (Hs : reference +:+ t
               = rx_open (rx_of k) +:+ name +:+ rx_close (rx_of k) +:+ t).
  { unfold reference. now rewrite !append_assoc. }
  rewrite <- Hs in Hm.
  destruct reference as [|c u] eqn:Hr.
  { destruct k, name; discriminate. }
  rewrite append_cons in Hm |- *. cbn [single_pass]. rewrite Hm.
  f_equal. rewrite single_pass_skip. simpl. rewrite Nat.sub_0_r.
  now rewrite skipn_string_app.
Qed.

(** X1: an injector given parameters that are all undefined returns the
    template as it is, every reference left verbatim. *)
Theorem injector_without_parameters (k : replacement) (value : string) (data : params) :
  (forall name, data name = None) ->
  populateInjectors k value data = Some value.
Proof.
  intros Hd. unfold populateInjectors.
  rewrite buildInjector_single_pass, single_pass_undefined by exact Hd. reflexivity.
Qed.

(** X2: a template in which the character that opens a reference of the
    injector (the colon, or the opening brace) does not occur is returned
    unchanged, whatever the parameters hold. *)
Theorem injector_without_opener (k : replacement) (value : string) (data : params) :
  lacks (opener k) value = true ->
  populateInjectors k value data = Some value.
Proof.
  intros H. unfold populateInjectors.
  now rewrite buildInjector_single_pass, single_pass_lacks.
Qed.

(** X3: a template made of a text without the opening character, a
    reference to [name] and a rest is answered by the text, the parameter's
    value (the reference itself when the parameter is undefined) and what
    the injector makes of the rest alone: the value written out takes no
    part in what follows.  For the colon injector the rest must not continue
    the name. *)
Theorem injector_reference (k : replacement) (before name after : string) (data : params) :
  lacks (opener k) before = true ->
  is_name name = true ->
  ends_name (rx_close (rx_of k) +:+ after) = true ->
  let reference := rx_open (rx_of k) +:+ name +:+ rx_close (rx_of k) in
  exists rest,
    populateInjectors k after data = Some rest
    /\ populateInjectors k (before +:+ reference +:+ after) data
       = Some (before +:+ match data name with Some v => v | None => reference end +:+ rest).
Proof.
  intros Hb Hn He reference. exists (single_pass (rx_of k) data after 0).
  unfold populateInjectors. rewrite !buildInjector_single_pass. split; [reflexivity|].
  rewrite single_pass_lacks_app by exact Hb.
  unfold reference. now rewrite single_pass_reference.
Qed.

End InjectorFacts.

Import Injector.

Definition greeting : params :=
  fun name => if String.eqb name "who" then Some "{who}" else None.

Lemma injector_without_parameters_witness :
  populateInjectors Handlebar "Hello {who}, {{x}} :y" (fun _ => None)
  = Some "Hello {who}, {{x}} :y".
Proof. exact (injector_without_parameters Handlebar _ _ (fun _ => eq_refl)). Defined.

Lemma injector_without_opener_witness :
  populateInjectors Handlebar "Hello :who" greeting = Some "Hello :who".
Proof. exact (injector_without_opener Handlebar "Hello :who" greeting eq_refl). Defined.

Lemma injector_reference_witness :
  exists rest,
    populateInjectors Handlebar "! {who}" greeting = Some rest
    /\ populateInjectors Handlebar "Hello {who}! {who}" greeting
       = Some ("Hello " +:+ "{who}" +:+ rest).
Proof.
  exact (injector_reference Handlebar "Hello " "who" "! {who}" greeting
           eq_refl eq_refl eq_refl).
Defined.

(** ** More on the data type registry *)

Section RegistryFacts.

Lemma assoc_assoc_set_same {A} k (v : A) l : assoc k (assoc_set k v l) = Some v.
Proof.
  induction l as [|[k' v'] l IH]; simpl; [now rewrite String.eqb_refl|].
  destruct (String.eqb k k') eqn:K; simpl; [now rewrite String.eqb_refl | now rewrite K].
Qed.

Lemma assoc_assoc_set_other {A} k k' (v : A) l :
  k' <> k -> assoc k' (assoc_set k v l) = assoc k' l.
Proof.
  intros Hk. apply String.eqb_neq in Hk.
  induction l as [|[k0 v0] l IH]; simpl; [now rewrite Hk|].
  destruct (String.eqb k k0) eqn:K; simpl.
  - apply String.eqb_eq in K. subst k0. now rewrite Hk.
  - now rewrite IH.
Qed.

Lemma assoc_set_keys {A} k (v : A) l :
  assoc k l <> None -> map fst (assoc_set k v l) = map fst l.
Proof.
  induction l as [|[k' v'] l IH]; simpl; [congruence|].
  destruct (String.eqb k k') eqn:K; simpl.
  - apply String.eqb_eq in K. now subst.
  - intros H. now rewrite IH.
Qed.

(** What one call leaves of the registry, whatever it returns: the formats
    are as they were unless the call got as far as storing, and the
    constructors only grow. *)
Lemma add_constructor_incl fn r o r' :
  add_constructor fn r = (o, r') ->
  dataTypes r' = dataTypes r /\ warnings r' = warnings r /\ console r' = console r
  /\ incl (constructors r) (constructors r').
Proof.
  unfold add_constructor. destruct fn as [id|v]; intros H; inversion H; subst; simpl.
  - repeat split. unfold set_add. destruct (existsb _ _); [apply incl_refl|].
    apply incl_appl, incl_refl.
  - repeat split. apply incl_refl.
Qed.

Lemma add_constructors_incl fns r o r' :
  forEach fns add_constructor r = (o, r') ->
  dataTypes r' = dataTypes r /\ warnings r' = warnings r /\ console r' = console r
  /\ incl (constructors r) (constructors r').
Proof.
  revert r. induction fns as [|fn fns IH]; intros r; simpl.
  - intros H. inversion H; subst. repeat split. apply incl_refl.
  - unfold bind. destruct (add_constructor fn r) as [[[]|e] r1] eqn:H1.
    + intros H. apply IH in H as (Hd & Hw & Hc & Hi).
      apply add_constructor_incl in H1 as (Hd1 & Hw1 & Hc1 & Hi1).
      repeat split; try congruence. eapply incl_tran; eauto.
    + intros H. inversion H; subst. now apply add_constructor_incl in H1.
Qed.

Lemma dataTypes_has_assoc r k :
  dataTypes_has r k = true -> exists formats, assoc k (dataTypes r) = Some formats.
Proof. unfold dataTypes_has. destruct (assoc k (dataTypes r)); [eauto | discriminate]. Qed.

(** The steps of a call before the definition is stored. *)
Definition checks (type fmt : string) (definition : dt_definition) : M registry unit :=
  match definition with
  | DNull => ret tt
  | DNotObject => throw invalid_definition
  | DObject o =>
      if negb (is_function (dt_deserialize o))
         || negb (is_function (dt_serialize o))
         || negb (is_function (dt_validate o))
         || (handler_truthy (dt_random o) && negb (is_function (dt_random o)))
      then throw invalid_definition
      else
        match dt_constructors o with
        | CArray fns => forEach fns add_constructor
        | COther => throw "TypeError: definition.constructors.forEach is not a function"
        | CFalsy => warn_missing_constructors type fmt
        end
  end.

Lemma checks_dataTypes type fmt definition r o r' :
  checks type fmt definition r = (o, r') ->
  dataTypes r' = dataTypes r /\ incl (constructors r) (constructors r')
  /\ (forall e, o = Throw e -> warnings r' = warnings r /\ console r' = console r).
Proof.
  unfold checks. destruct definition as [| |obj].
  - intros H. inversion H; subst. repeat split; auto using incl_refl.
  - intros H. inversion H; subst. repeat split; auto using incl_refl.
  - destruct (_ || _).
    { intros H. inversion H; subst. repeat split; auto using incl_refl. }
    destruct (dt_constructors obj) as [|fns|].
    + unfold warn_missing_constructors. destruct (bool_decide _); intros H; inversion H; subst;
        simpl; repeat split; auto using incl_refl; try congruence; try (apply incl_refl).
    + intros H. apply add_constructors_incl in H as (Hd & Hw & Hc & Hi). auto.
    + intros H. inversion H; subst. repeat split; auto using incl_refl.
Qed.

(** A call is its input checks, [checks], and the assignment. *)
Lemma defineDataTypeFormat_steps type fmt definition r :
  dataTypes_has r type = true -> fmt <> "" -> dataTypes_has r fmt = false ->
  defineDataTypeFormat type (JPrim (PStr fmt)) definition r
  = (let* _ := checks type fmt definition in
     store_definition type fmt
       {| st_definition := match definition with DObject o => Some o | _ => None end;
          st_type := type; st_format := fmt |}) r.
Proof.
  intros Ht Hf Hn. unfold defineDataTypeFormat. rewrite Ht, Hn. cbn [negb truthy].
  apply String.eqb_neq in Hf. rewrite Hf. reflexivity.
Qed.

(** Why a call was refused before any check of the definition. *)
Lemma defineDataTypeFormat_cases type format definition r :
  (exists e, defineDataTypeFormat type format definition r = (Throw e, r))
  \/ (exists fmt, format = JPrim (PStr fmt) /\ dataTypes_has r type = true
                  /\ fmt <> "" /\ dataTypes_has r fmt = false).
Proof.
  unfold defineDataTypeFormat.
  destruct (dataTypes_has r type) eqn:Ht; cbn [negb]; [|eauto].
  destruct format as [[| | | |fmt]|]; eauto.
  cbn [truthy]. destruct (String.eqb fmt "") eqn:Hf; cbn [negb]; [eauto|].
  destruct (dataTypes_has r fmt) eqn:Hn; [eauto|].
  right. exists fmt. apply String.eqb_neq in Hf. auto.
Qed.

Lemma store_definition_Ok type fmt stored r :
  dataTypes_has r type = true ->
  exists r', store_definition type fmt stored r = (Ok tt, r')
    /\ constructors r' = constructors r /\ warnings r' = warnings r /\ console r' = console r
    /\ map fst (dataTypes r') = map fst (dataTypes r)
    /\ (if String.eqb fmt "__proto__" then
          dataTypes r' = dataTypes r
          /\ prototypes r' = <[type := stored]> (prototypes r)
        else
          lookup_format r' type fmt = Some stored
          /\ (forall type' fmt', (type', fmt') <> (type, fmt) ->
                lookup_format r' type' fmt' = lookup_format r type' fmt')
          /\ prototypes r' = prototypes r).
Proof.
  intros Ht. destruct (dataTypes_has_assoc _ _ Ht) as [formats Hf].
  unfold store_definition. rewrite Hf.
  destruct (String.eqb fmt "__proto__").
  { eexists. split; [reflexivity|]. simpl. repeat split. }
  eexists. split; [reflexivity|]. simpl.
  repeat split.
  - apply assoc_set_keys. congruence.
  - unfold lookup_format. simpl. rewrite assoc_assoc_set_same. apply lookup_insert_eq.
  - intros type' fmt' Hne. unfold lookup_format. simpl.
    destruct (decide (type' = type)) as [->|Hty].
    + rewrite assoc_assoc_set_same, Hf. apply lookup_insert_ne. congruence.
    + now rewrite assoc_assoc_set_other.
Qed.

Lemma checks_prototypes type fmt definition r o r' :
  checks type fmt definition r = (o, r') -> prototypes r' = prototypes r.
Proof.
  assert (Hadd : forall fns r0 o0 r1,
             forEach fns add_constructor r0 = (o0, r1) -> prototypes r1 = prototypes r0).
  { induction fns as [|fn fns IH]; intros r0 o0 r1; simpl.
    - unfold ret. now intros [= <- <-].
    - unfold bind. destruct fn as [id|v]; simpl.
      + intros H. now rewrite (IH _ _ _ H).
      + now intros [= <- <-]. }
  unfold checks. destruct definition as [| |obj]; try (intros H; now inversion H).
  destruct (_ || _); [intros H; now inversion H|].
  destruct (dt_constructors obj) as [|fns|].
  - unfold warn_missing_constructors. destruct (bool_decide _); intros H; now inversion H.
  - apply Hadd.
  - intros H. now inversion H.
Qed.

Lemma defineDataTypeFormat_types type format definition r o r' :
  defineDataTypeFormat type format definition r = (o, r') ->
  map fst (dataTypes r') = map fst (dataTypes r).
Proof.
  destruct (defineDataTypeFormat_cases type format definition r)
    as [[e He]|(fmt & -> & Ht & Hf & Hn)].
  - rewrite He. intros H. now inversion H.
  - rewrite defineDataTypeFormat_steps by assumption. unfold bind.
    destruct (checks type fmt definition r) as [[[]|e] r1] eqn:Hc;
      apply checks_dataTypes in Hc as (Hd & _ & _).
    + assert (Ht1 : dataTypes_has r1 type = true) by (unfold dataTypes_has; now rewrite Hd).
      destruct (store_definition_Ok type fmt
                  {| st_definition := match definition with DObject o => Some o | _ => None end;
                     st_type := type; st_format := fmt |} r1 Ht1)
        as (r2 & -> & _ & _ & _ & Hk & _).
      intros H. inversion H; subst. now rewrite Hk, Hd.
    + intros H. inversion H; subst. now rewrite Hd.
Qed.

(** The registries the closure of [statics] can be in. *)
Inductive reachable : registry -> Prop :=
| reachable_initial : reachable initial_registry
| reachable_call type format definition r o r' :
    reachable r ->
    defineDataTypeFormat type format definition r = (o, r') ->
    reachable r'.

Definition type_names : list string := ["boolean"; "integer"; "number"; "string"].

(** X4: after a call of [defineDataTypeFormat] that returns, the format is
    a non-empty string and the object made of the definition given (nothing,
    for [null]), the type and the format has been assigned to
    [dataTypes[type][format]].  For a format other than [__proto__] that
    object is then the own property [format] of [dataTypes[type]], every
    other pair of type and format owns what it owned before, and no
    prototype has changed.  For the format [__proto__] no object of
    [dataTypes] has gained or lost a property: the object has become the
    prototype of [dataTypes[type]] instead. *)
Theorem registration_round_trip
    (type : string) (format : jsval) (definition : dt_definition) (r r' : registry) :
  defineDataTypeFormat type format definition r = (Ok tt, r') ->
  exists fmt,
    format = JPrim (PStr fmt) /\ fmt <> ""
    /\ let stored :=
         {| st_definition := match definition with DObject o => Some o | _ => None end;
            st_type := type; st_format := fmt |} in
       if String.eqb fmt "__proto__" then
         dataTypes r' = dataTypes r
         /\ prototypes r' = <[type := stored]> (prototypes r)
       else
         lookup_format r' type fmt = Some stored
         /\ (forall type' fmt', (type', fmt') <> (type, fmt) ->
               lookup_format r' type' fmt' = lookup_format r type' fmt')
         /\ prototypes r' = prototypes r.
Proof.
  destruct (defineDataTypeFormat_cases type format definition r)
    as [[e He]|(fmt & -> & Ht & Hf & Hn)].
  - rewrite He. discriminate.
  - rewrite defineDataTypeFormat_steps by assumption. unfold bind.
    destruct (checks type fmt definition r) as [[[]|e] r1] eqn:Hc; [|discriminate].
    pose proof (checks_prototypes _ _ _ _ _ _ Hc) as Hp.
    apply checks_dataTypes in Hc as (Hd & _ & _).
    assert (Ht1 : dataTypes_has r1 type = true) by (unfold dataTypes_has; now rewrite Hd).
    destruct (store_definition_Ok type fmt
                {| st_definition := match definition with DObject o => Some o | _ => None end;
                   st_type := type; st_format := fmt |} r1 Ht1)
      as (r2 & -> & _ & _ & _ & _ & Hl).
    intros H. inversion H; subst r2. exists fmt. split; [reflexivity|]. split; [exact Hf|].
    cbv zeta. destruct (String.eqb fmt "__proto__").
    + destruct Hl as [Hl1 Hl2]. split; congruence.
    + destruct Hl as (Hl & Hframe & Hl2). repeat split; [exact Hl | | congruence].
      intros type' fmt' Hne. rewrite (Hframe _ _ Hne). unfold lookup_format. now rewrite Hd.
Qed.

(** X5: a call of [defineDataTypeFormat] that throws leaves [dataTypes],
    the warnings and the console as they were; the set of constructors may
    have grown, and has lost nothing. *)
Theorem failed_registration_stores_nothing
    (type : string) (format : jsval) (definition : dt_definition) (r r' : registry)
    (e : string) :
  defineDataTypeFormat type format definition r = (Throw e, r') ->
  dataTypes r' = dataTypes r /\ warnings r' = warnings r /\ console r' = console r
  /\ incl (constructors r) (constructors r').
Proof.
  destruct (defineDataTypeFormat_cases type format definition r)
    as [[e' He]|(fmt & -> & Ht & Hf & Hn)].
  - rewrite He. intros H. inversion H; subst. repeat split. apply incl_refl.
  - rewrite defineDataTypeFormat_steps by assumption. unfold bind.
    destruct (checks type fmt definition r) as [[[]|e'] r1] eqn:Hc;
      apply checks_dataTypes in Hc as (Hd & Hi & Hw).
    + assert (Ht1 : dataTypes_has r1 type = true) by (unfold dataTypes_has; now rewrite Hd).
      destruct (store_definition_Ok type fmt
                  {| st_definition := match definition with DObject o => Some o | _ => None end;
                     st_type := type; st_format := fmt |} r1 Ht1)
        as (r2 & -> & _).
      discriminate.
    + intros H. inversion H; subst. destruct (Hw _ eq_refl). auto.
Qed.

(** X6: a definition whose [constructors] hold a value that is not a
    function is refused and not stored, yet the functions listed before that
    value have been added to the set of constructors by then, and stay. *)
Theorem rejected_constructor_keeps_earlier_ones
    (type fmt : string) (o : dt_object) (fns rest : list handler) (v : jsval) (r : registry) :
  dataTypes_has r type = true -> fmt <> "" -> dataTypes_has r fmt = false ->
  is_function (dt_deserialize o) = true ->
  is_function (dt_serialize o) = true ->
  is_function (dt_validate o) = true ->
  handler_truthy (dt_random o) = false ->
  dt_constructors o = CArray (fns ++ HValue v :: rest) ->
  Forall (fun h => is_function h = true) fns ->
  exists e r',
    defineDataTypeFormat type (JPrim (PStr fmt)) (DObject o) r = (Throw e, r')
    /\ dataTypes r' = dataTypes r
    /\ (forall id, In (HFunction id) fns -> In id (constructors r')).
Proof.
  intros Ht Hf Hn Hd Hs Hv Hr Hc Hfns.
  rewrite defineDataTypeFormat_steps by assumption. unfold bind, checks.
  rewrite Hd, Hs, Hv, Hr, Hc. cbn [negb orb andb].
  assert (Hrun : forall r0, exists e r1,
             forEach (fns ++ HValue v :: rest) add_constructor r0 = (Throw e, r1)
             /\ dataTypes r1 = dataTypes r0
             /\ (forall id, In (HFunction id) fns -> In id (constructors r1))).
  { clear - Hfns. induction Hfns as [|fn fns Hfn _ IH]; intros r0.
    - simpl. unfold bind. simpl. eexists _, _. split; [reflexivity|]. split; [reflexivity|].
      intros id [].
    - destruct fn as [id0|]; [|discriminate]. simpl. unfold bind. simpl.
      destruct (IH {| dataTypes := dataTypes r0; prototypes := prototypes r0;
                      constructors := set_add id0 (constructors r0);
                      warnings := warnings r0; console := console r0 |})
        as (e & r1 & Hrun & Hdt & Hin).
      rewrite Hrun. exists e, r1. split; [reflexivity|]. split; [exact Hdt|].
      intros id [Heq|Hi]; [|auto]. injection Heq as ->.
      apply add_constructors_incl in Hrun as (_ & _ & _ & Hincl). apply Hincl. simpl.
      unfold set_add. destruct (existsb (Nat.eqb id) (constructors r0)) eqn:Hex.
      + apply existsb_exists in Hex as (x & Hx & Hxe). apply Nat.eqb_eq in Hxe. now subst.
      + apply in_or_app. right. now left. }
  destruct (Hrun r) as (e & r1 & -> & Hdt & Hin). eauto.
Qed.

(** X7: whatever calls of [defineDataTypeFormat] were made, returning or
    throwing, the keys of [dataTypes] are boolean, integer, number and
    string, in this order; so [dataTypes.hasOwnProperty(k)] holds of these
    four names and of nothing else. *)
Theorem reachable_types_are_fixed (r : registry) :
  reachable r ->
  map fst (dataTypes r) = type_names
  /\ (forall k, dataTypes_has r k = true <-> In k type_names).
Proof.
  intros Hr.
  assert (Hk : map fst (dataTypes r) = type_names).
  { induction Hr as [|type format definition r o r' _ IH H]; [reflexivity|].
    now rewrite (defineDataTypeFormat_types _ _ _ _ _ _ H). }
  split; [exact Hk|]. intros k. unfold dataTypes_has. rewrite <- Hk. clear.
  induction (dataTypes r) as [|[k' v] l IH]; simpl; [split; [discriminate | tauto]|].
  destruct (String.eqb k k') eqn:K.
  - apply String.eqb_eq in K. subst. tauto.
  - apply String.eqb_neq in K. rewrite IH. split; [tauto | intros [H|H]; congruence].
Qed.

End RegistryFacts.

(** The registry after (string, date) has been defined. *)
Definition after_date : registry :=
  snd (defineDataTypeFormat "string" (JPrim (PStr "date")) (DObject (date_codec 0))
         initial_registry).

(** The registry after (string, __proto__) has been defined. *)
Definition after_proto : registry :=
  snd (defineDataTypeFormat "string" (JPrim (PStr "__proto__")) (DObject (date_codec 0))
         initial_registry).

Lemma registration_round_trip_witness :
  (exists fmt,
     JPrim (PStr "date") = JPrim (PStr fmt) /\ fmt <> ""
     /\ let stored :=
          {| st_definition := Some (date_codec 0); st_type := "string"; st_format := fmt |} in
        if String.eqb fmt "__proto__" then
          dataTypes after_date = dataTypes initial_registry
          /\ prototypes after_date = <["string" := stored]> (prototypes initial_registry)
        else
          lookup_format after_date "string" fmt = Some stored
          /\ (forall type' fmt', (type', fmt') <> ("string", fmt) ->
                lookup_format after_date type' fmt' = lookup_format initial_registry type' fmt')
          /\ prototypes after_date = prototypes initial_registry)
  /\ (exists fmt,
        JPrim (PStr "__proto__") = JPrim (PStr fmt) /\ fmt <> ""
        /\ let stored :=
             {| st_definition := Some (date_codec 0); st_type := "string"; st_format := fmt |} in
           if String.eqb fmt "__proto__" then
             dataTypes after_proto = dataTypes initial_registry
             /\ prototypes after_proto = <["string" := stored]> (prototypes initial_registry)
           else
             lookup_format after_proto "string" fmt = Some stored
             /\ (forall type' fmt', (type', fmt') <> ("string", fmt) ->
                   lookup_format after_proto type' fmt'
                   = lookup_format initial_registry type' fmt')
             /\ prototypes after_proto = prototypes initial_registry).
Proof.
  split.
  - exact (registration_round_trip "string" (JPrim (PStr "date")) (DObject (date_codec 0))
             initial_registry after_date eq_refl).
  - exact (registration_round_trip "string" (JPrim (PStr "__proto__")) (DObject (date_codec 0))
             initial_registry after_proto eq_refl).
Defined.

(** The format [__proto__] is accepted, and [dataTypes.string] owns no
    property of that name afterwards. *)
Example proto_registration :
  fst (defineDataTypeFormat "string" (JPrim (PStr "__proto__")) (DObject (date_codec 0))
         initial_registry) = Ok tt
  /\ lookup_format after_proto "string" "__proto__" = None
  /\ prototypes after_proto !! "string"
     = Some {| st_definition := Some (date_codec 0); st_type := "string";
               st_format := "__proto__" |}.
Proof. repeat split. Qed.

(** A codec whose second constructor is not a function. *)
Definition half_built : dt_object :=
  {| dt_deserialize := HFunction 0;
     dt_serialize := HFunction 1;
     dt_validate := HFunction 2;
     dt_random := HValue undefined;
     dt_constructors := CArray [HFunction 7; HValue (JPrim (PStr "Date"))] |}.

(** The registry after the refused registration of [half_built]. *)
Definition after_half_built : registry :=
  snd (defineDataTypeFormat "string" (JPrim (PStr "date")) (DObject half_built)
         initial_registry).

Lemma failed_registration_witness :
  dataTypes after_half_built = dataTypes initial_registry
  /\ warnings after_half_built = warnings initial_registry
  /\ console after_half_built = console initial_registry
  /\ incl (constructors initial_registry) (constructors after_half_built).
Proof.
  exact (failed_registration_stores_nothing "string" (JPrim (PStr "date")) (DObject half_built)
           initial_registry after_half_built
           "Invalid constructor specified. Expected a function, received: " eq_refl).
Defined.

Lemma rejected_constructor_witness :
  exists e r',
    defineDataTypeFormat "string" (JPrim (PStr "date")) (DObject half_built) initial_registry
    = (Throw e, r')
    /\ dataTypes r' = dataTypes initial_registry
    /\ (forall id, In (HFunction id) [HFunction 7] -> In id (constructors r')).
Proof.
  refine (rejected_constructor_keeps_earlier_ones "string" "date" half_built
            [HFunction 7] [] (JPrim (PStr "Date")) initial_registry
            eq_refl _ eq_refl eq_refl eq_refl eq_refl eq_refl eq_refl _).
  - discriminate.
  - repeat constructor.
Defined.

Lemma reachable_types_witness :
  map fst (dataTypes after_date) = type_names
  /\ (forall k, dataTypes_has after_date k = true <-> In k type_names).
Proof.
  exact (reachable_types_are_fixed after_date
           (reachable_call "string" (JPrim (PStr "date")) (DObject (date_codec 0))
              initial_registry (Ok tt) after_date reachable_initial eq_refl)).
Defined.

(** ** The composite check *)

Section CompositeCheck.

Variable L : Lang.

(** A step that returns after adding error messages that all satisfy [Q],
    on every path where [ok] holds of the report so far. *)
Lemma runs_forEach Q {A} (l : list A) (body : A -> M report unit) :
  Forall (fun x => runs Q (body x)) l -> runs Q (forEach l body).
Proof.
  induction 1 as [|x l Hx _ IH]; [apply runs_ret|].
  intros r. cbn [forEach].
  destruct (runs_bind Q (body x) (fun _ => forEach l body) r Hx) as (l1 & -> & H1).
  destruct (IH {| r_errors := (r_errors r ++ l1)%list; r_warnings := r_warnings r |})
    as (l2 & -> & H2).
  exists (l1 ++ l2)%list. cbn [r_errors r_warnings]. rewrite app_assoc.
  split; [reflexivity | now apply Forall_app].
Qed.

Lemma runs_then Q (c : M report unit) (k : unit -> M report unit) :
  runs Q c -> runs Q (k tt) -> runs Q (bind c k).
Proof.
  intros Hc Hk r. destruct (runs_bind Q c k r Hc) as (l1 & -> & H1).
  destruct (Hk {| r_errors := (r_errors r ++ l1)%list; r_warnings := r_warnings r |})
    as (l2 & -> & H2).
  exists (l1 ++ l2)%list. cbn [r_errors r_warnings]. rewrite app_assoc.
  split; [reflexivity | now apply Forall_app].
Qed.

(** [v === undefined || v === null] *)
Definition nullish (v : jsval) : bool :=
  match v with
  | JPrim PUndefined | JPrim PNull => true
  | _ => false
  end.

Lemma get_property_defined {S} s v k (st : S) :
  nullish v = false ->
  get_property s v k st = (Ok (default undefined (own_property s v k)), st).
Proof.
  intros H. unfold get_property, ret.
  destruct v as [[| | | |]|]; try discriminate; now destruct (own_property _ _ k).
Qed.

(** The schemas under [properties] can be read: [properties] is absent, or
    it is an object none of whose values is [undefined] or [null]. *)
Definition readable_properties (s : store) (result : jsval) : Prop :=
  match own_property s result "properties" with
  | None => True
  | Some (JRef a) =>
      exists props, deref s a = Some (OObject props)
                    /\ Forall (fun kv => nullish kv.2 = false) props
  | Some (JPrim _) => False
  end.

Lemma assoc_In {A} k (l : list (string * A)) :
  In k (map fst l) -> exists v, assoc k l = Some v /\ In (k, v) l.
Proof.
  induction l as [|[k' v'] l IH]; simpl; [tauto|].
  destruct (String.eqb k k') eqn:K.
  - apply String.eqb_eq in K. subst. eauto.
  - intros [H|H]; [apply String.eqb_neq in K; congruence|].
    destruct (IH H) as (v & Hv & Hin). eauto.
Qed.

Section Returning.

Variable Q : path * string -> Prop.
Variables (s : store) (p : path) (r0 : ref).

Lemma check_min_max_returns name :
  Q (p, min_max_message name) -> runs Q (check_min_max L s p (JRef r0) name).
Proof.
  intros HQ r. unfold check_min_max, bind. rewrite !get_property_ref.
  apply runs_if; [|apply runs_ret]. now apply runs_emit.
Qed.

Lemma check_required_returns :
  Q (p, "There are more required properties than is allows by " +:+ dq +:+ "maxProperties"
          +:+ dq +:+ " contraint") ->
  runs Q (check_required L s p (JRef r0)).
Proof.
  intros HQ r. unfold check_required, bind. rewrite get_property_ref.
  destruct (truthy (default undefined (own_property s (JRef r0) "required"))) eqn:T;
    cbn [andb]; [|apply runs_ret].
  destruct (hasOwnProperty s (JRef r0) "maxProperties"); cbn [andb]; [|apply runs_ret].
  cbv beta iota.
  rewrite (get_property_truthy _ _ _ _ T), get_property_ref.
  apply runs_if; [|apply runs_ret].
  now apply runs_emit.
Qed.

Lemma check_minimum_returns :
  (forall a b, Q (p, minimum_message a b)) -> runs Q (check_minimum L s p (JRef r0)).
Proof.
  intros HQ r. unfold check_minimum, bind. rewrite !get_property_ref.
  apply runs_if; [|apply runs_ret]. apply runs_emit, HQ.
Qed.

Lemma check_properties_returns :
  readable_properties s (JRef r0) ->
  (forall q, Q (q, "Cannot be marked as both readOnly and writeOnly")) ->
  runs Q (check_properties s p (JRef r0)).
Proof.
  intros Hp HQ r. unfold check_properties, hasOwnProperty. unfold readable_properties in Hp.
  destruct (own_property s (JRef r0) "properties") as [v|] eqn:Hv; [|apply runs_ret].
  destruct v as [|a]; [contradiction|]. destruct Hp as (props & Hd & Hall).
  unfold bind at 1. rewrite get_property_ref, Hv.
  change (default undefined (Some (JRef a))) with (JRef a).
  unfold bind at 1. unfold object_keys. cbv beta iota. rewrite Hd. unfold ret at 1.
  apply runs_forEach. apply Forall_forall. intros key Hkey.
  apply list_elem_of_In in Hkey.
  destruct (assoc_In _ _ Hkey) as (v & Hassoc & Hin).
  rewrite Forall_forall in Hall. apply list_elem_of_In in Hin.
  specialize (Hall _ Hin). simpl in Hall.
  intros r1. unfold bind. rewrite get_property_ref.
  assert (Hown : own_property s (JRef a) key = Some v).
  { unfold own_property. now rewrite Hd. }
  rewrite Hown. change (default undefined (Some v)) with v.
  rewrite (get_property_defined _ _ _ _ Hall).
  destruct (truthy _); [|apply runs_ret].
  rewrite (get_property_defined _ _ _ _ Hall).
  apply runs_if; [|apply runs_ret]. apply runs_emit, HQ.
Qed.

End Returning.

(** A message that is not the composites message. *)
Definition apart (m : path * string) : Prop :=
  String.prefix "Cannot have multiple composites: " (snd m) = false.

(** X8: when the schemas under [properties] of a result can be read
    ([properties] is absent, or an object none of whose values is undefined
    or null), the [errors] callback of the Schema validator returns, and it
    attaches "Cannot have multiple composites: ..." exactly when the result
    has more than one of allOf, anyOf, oneOf and not: once, at the path of
    the schema, listing the composites present in that order. *)
Theorem composites_reported_when_reached (defs : heap) (data : cbdata) (r0 : ref) :
  let s := {| s_defs := defs; s_objs := w_objs (cb_state data) |} in
  let p := f_exception (cb_frame data) in
  let composites := composites_of s (JRef r0) in
  let outcome := schema_errors L defs data {| r_errors := []; r_warnings := [] |} in
  f_result (cb_frame data) = JRef r0 ->
  readable_properties s (JRef r0) ->
  fst outcome = Ok tt
  /\ (1 < length composites -> In (p, composites_message composites) (r_errors (snd outcome)))
  /\ (forall q text,
        In (q, text) (r_errors (snd outcome)) ->
        String.prefix "Cannot have multiple composites: " text = true ->
        1 < length composites /\ q = p /\ text = composites_message composites).
Proof.
  intros s p composites outcome Hres Hread.
  assert (Hfirst : runs apart
            (let* _ := check_min_max L s p (JRef r0) "Items" in
             let* _ := check_min_max L s p (JRef r0) "Length" in
             let* _ := check_min_max L s p (JRef r0) "Properties" in
             let* _ := check_required L s p (JRef r0) in
             let* _ := check_minimum L s p (JRef r0) in
             check_properties s p (JRef r0))).
  { repeat apply runs_then.
    - apply check_min_max_returns. reflexivity.
    - apply check_min_max_returns. reflexivity.
    - apply check_min_max_returns. reflexivity.
    - apply check_required_returns. reflexivity.
    - apply check_minimum_returns. intros a b. unfold apart, minimum_message.
      now destruct (truthy a || truthy b).
    - apply check_properties_returns; [exact Hread|]. reflexivity. }
  assert (Hout : exists l,
             outcome
             = (Ok tt,
                {| r_errors :=
                     (l ++ if Nat.ltb 1 (length composites)
                           then [(p, composites_message composites)] else [])%list;
                   r_warnings := [] |})
             /\ Forall apart l).
  { destruct (Hfirst {| r_errors := []; r_warnings := [] |}) as (l & Hl & HQ).
    exists l. split; [|exact HQ].
    subst outcome. unfold schema_errors. rewrite Hres. fold s p.
    unfold bind in Hl |- *.
    repeat match type of Hl with
           | context [check_min_max L s p (JRef r0) ?n ?r] =>
               destruct (check_min_max L s p (JRef r0) n r) as [[[]|?] ?]; [|discriminate Hl]
           | context [check_required L s p (JRef r0) ?r] =>
               destruct (check_required L s p (JRef r0) r) as [[[]|?] ?]; [|discriminate Hl]
           | context [check_minimum L s p (JRef r0) ?r] =>
               destruct (check_minimum L s p (JRef r0) r) as [[[]|?] ?]; [|discriminate Hl]
           end.
    rewrite Hl. unfold check_composites. fold composites.
    destruct (Nat.ltb 1 (length composites)); cbn [app r_errors r_warnings].
    - reflexivity.
    - unfold ret. now rewrite app_nil_r. }
  destruct Hout as (l & -> & HQ). cbn [fst snd r_errors].
  split; [reflexivity|]. split.
  - intros Hlen. apply Nat.ltb_lt in Hlen. rewrite Hlen.
    apply in_or_app. right. now left.
  - intros q text Hin Hpre. apply in_app_or in Hin as [Hin|Hin].
    + rewrite Forall_forall in HQ. apply list_elem_of_In in Hin.
      specialize (HQ _ Hin). unfold apart in HQ. simpl in HQ. congruence.
    + destruct (Nat.ltb 1 (length composites)) eqn:Hlen; [|contradiction].
      apply Nat.ltb_lt in Hlen. destruct Hin as [Hin|[]]. inversion Hin. auto.
Qed.

End CompositeCheck.

(** ** Bounds that are not numbers *)

Section Bounds.

Variable L : Lang.

Lemma is_nan_Prim2SF x : PrimFloat.is_nan x = true -> Prim2SF x = S754_nan.
Proof.
  unfold PrimFloat.is_nan. rewrite FloatAxioms.eqb_spec. intros H. apply negb_true_iff in H.
  destruct (Prim2SF x) as [sg|sg| |sg m e]; try reflexivity; exfalso.
  - destruct sg; discriminate H.
  - destruct sg; discriminate H.
  - unfold SFeqb, SFcompare in H. rewrite Z.compare_refl, Pos.compare_refl in H.
    destruct sg; discriminate H.
Qed.

Lemma nan_compares x y :
  PrimFloat.is_nan x = true ->
  PrimFloat.ltb x y = false /\ PrimFloat.ltb y x = false /\ PrimFloat.eqb x y = false.
Proof.
  intros H. apply is_nan_Prim2SF in H. rewrite !FloatAxioms.ltb_spec, FloatAxioms.eqb_spec, H.
  repeat split; unfold SFltb, SFeqb, SFcompare; destruct (Prim2SF y); reflexivity.
Qed.

(** X9: [minMaxValid] refuses two bounds that are both defined when one
    of them does not convert to a number (its conversion is NaN), whatever
    the other bound and the exclusive flags are. *)
Theorem minMaxValid_not_a_number
    (s : store) (minimum maximum exclusiveMinimum exclusiveMaximum : jsval) :
  strict_equal minimum undefined = false ->
  strict_equal maximum undefined = false ->
  PrimFloat.is_nan (to_number L s minimum) || PrimFloat.is_nan (to_number L s maximum) = true ->
  minMaxValid L s minimum maximum exclusiveMinimum exclusiveMaximum = false.
Proof.
  intros Hmin Hmax Hnan. unfold minMaxValid. rewrite Hmin, Hmax. cbn [orb].
  apply orb_true_iff in Hnan as [H|H].
  - destruct (nan_compares _ (to_number L s maximum) H) as (-> & _ & ->).
    now rewrite andb_false_r.
  - destruct (nan_compares _ (to_number L s minimum) H) as (_ & -> & He).
    assert (Heq : PrimFloat.eqb (to_number L s minimum) (to_number L s maximum) = false).
    { apply is_nan_Prim2SF in H. rewrite FloatAxioms.eqb_spec, H.
      unfold SFeqb, SFcompare. now destruct (Prim2SF (to_number L s minimum)). }
    rewrite Heq. now rewrite andb_false_r.
Qed.

End Bounds.

(** ** More on the walk *)

Section WalkFacts.

Variable E : Env.

(** *** Steps that only attach messages *)

(** [c] leaves the objects and [map] as they are. *)
Definition silent {A} (c : M wstate A) : Prop :=
  forall st, w_objs (c st).2 = w_objs st /\ w_map (c st).2 = w_map st.

Lemma silent_ret {A} (a : A) : silent (ret a).
Proof. now intros st. Qed.

Lemma silent_throw {A} err : silent (@throw wstate A err).
Proof. now intros st. Qed.

Lemma silent_bind {A B} (c : M wstate A) (k : A -> M wstate B) :
  silent c -> (forall a, silent (k a)) -> silent (bind c k).
Proof.
  intros Hc Hk st. unfold bind. destruct (Hc st) as [Ho Hm].
  destruct (c st) as [[a|err] st1]; simpl in *; [|now split].
  destruct (Hk a st1) as [Ho' Hm']. split; congruence.
Qed.

Lemma silent_message p text : silent (message p text).
Proof. now intros st. Qed.

Lemma silent_call {A} (f : callback A) d : silent (call f d).
Proof. intros st. unfold call. now destruct (f (cbdata_of d st) _). Qed.

Lemma silent_fn {A} (value : field A) d : silent (fn value d).
Proof.
  unfold fn. destruct value as [a|f]; [apply silent_ret|].
  apply silent_bind; [apply silent_call|]. intros [a|err]; [apply silent_ret|].
  apply silent_bind; [apply silent_message | intros; apply silent_ret].
Qed.

Lemma silent_fn_validator v d : silent (fn_validator v d).
Proof.
  unfold fn_validator. destruct v; try apply silent_ret.
  apply silent_bind; [apply silent_fn | intros; apply silent_ret].
Qed.

Lemma silent_prop {A} (get : descriptor -> option A) v : silent (prop get v).
Proof. unfold prop. destruct v; auto using silent_ret, silent_throw. Qed.

Lemma silent_validateType ty d : silent (validateType E ty d).
Proof.
  unfold validateType. apply silent_bind; [apply silent_prop|]. intros [t|]; [|apply silent_ret].
  destruct (type_truthy t && _); [|apply silent_ret].
  apply silent_bind; [apply silent_fn|]. intros m.
  apply silent_bind; [now intros st|]. intros matches.
  destruct (existsb _ matches); [apply silent_ret|].
  apply silent_bind.
  - assert (Hpop : silent (pop_type m)).
    { intros st. unfold pop_type. now destruct m as [[| |a]|]. }
    destruct matches as [|? [|? [|? ?]]]; auto using silent_ret.
  - intros _. apply silent_bind; [apply silent_message | intros; apply silent_ret].
Qed.

Lemma silent_check_enum v d : silent (check_enum E v d).
Proof.
  unfold check_enum. apply silent_bind; [apply silent_prop|]. intros [e|]; [|apply silent_ret].
  apply silent_bind; [apply silent_fn|]. intros [m|]; [|apply silent_throw].
  destruct (includes _ _); [apply silent_ret | apply silent_message].
Qed.

Lemma silent_run_errors errors d v : silent (run_errors errors d v).
Proof.
  unfold run_errors, fn_errors. destruct errors; [|apply silent_ret].
  apply silent_bind; [apply silent_fn | intros; apply silent_ret].
Qed.

(** What the [catch] makes of the [try] block. *)
Lemma normalize_S fuel d st :
  normalize E (S fuel) d st
  = match normalize_try E (normalize E fuel) d st with
    | Some (Ok v, st') => Some (Ok v, st')
    | Some (Throw err, st') =>
        Some (Ok (result d), add_messages [(exception d, unexpected err)] [] st')
    | None => None
    end.
Proof. reflexivity. Qed.

(** Run the next step of a walk made of steps that only attach messages. *)
Ltac silent_step lemma :=
  lazymatch goal with
  | |- context [wbind (lift ?c) ?k ?st] =>
      let Ho := fresh "Ho" in
      let Hm := fresh "Hm" in
      let o := fresh "o" in
      let st1 := fresh "st" in
      let Hc := fresh "Hc" in
      change (wbind (lift c) k st)
        with (match c st with
              | (Ok a, st') => k a st'
              | (Throw err, st') => Some (Throw err, st')
              end);
      destruct (lemma st) as [Ho Hm];
      destruct (c st) as [o st1] eqn:Hc;
      cbn [fst snd] in Ho, Hm
  end.

(** X10: a context whose definition is a boolean, a number or a string,
    and whose result is that definition (as [childData] makes it), is
    normalized without a recursive call, creating no object and leaving
    [map] alone, and the value returned is the definition itself, whatever
    the enum check and the [errors] callback report or throw; only a failed
    type check makes it [undefined]. *)
Theorem scalar_passes_through (fuel : nat) (d : data) (p : prim) (st : wstate) :
  definition d = JPrim p ->
  result d = definition d ->
  In (definitionType d) ["boolean"; "number"; "string"] ->
  exists v st',
    normalize E (S fuel) d st = Some (Ok v, st')
    /\ w_objs st' = w_objs st /\ w_map st' = w_map st
    /\ (v = definition d
        \/ (v = undefined
            /\ exists st1 st2, validateType E (definitionType d) d st1 = (Ok false, st2))).
Proof.
  intros Hdef Hres Hty. rewrite normalize_S. unfold normalize_try.
  assert (Hcatch : forall err st1,
             w_objs st1 = w_objs st -> w_map st1 = w_map st ->
             exists v st',
               Some (Ok (result d), add_messages [(exception d, unexpected err)] [] st1)
               = Some (Ok v, st')
               /\ w_objs st' = w_objs st /\ w_map st' = w_map st
               /\ (v = definition d
                   \/ (v = undefined
                       /\ exists st1 st2,
                            validateType E (definitionType d) d st1 = (Ok false, st2)))).
  { intros err st1 Ho Hm. eexists _, _. split; [reflexivity|]. simpl. auto. }
  silent_step (silent_fn_validator (validator_of d) d).
  destruct o as [validator|err]; [|now apply Hcatch].
  silent_step (silent_validateType (definitionType d) d).
  destruct o as [valid|err]; [|apply Hcatch; congruence].
  destruct valid; cbn [negb].
  2:{ eexists _, _. split; [reflexivity|]. repeat split; try congruence.
      right. split; [reflexivity|]. eauto. }
  assert (Hguard : cycle_guard d st1 = (Ok None, st1)).
  { unfold cycle_guard. now rewrite Hdef. }
  change (wbind (lift (cycle_guard d)) ?k st1)
    with (match cycle_guard d st1 with
          | (Ok a, st') => k a st'
          | (Throw err, st') => Some (Throw err, st')
          end).
  rewrite Hguard. cbv beta iota.
  silent_step (silent_check_enum validator d).
  destruct o as [[]|err]; [|apply Hcatch; congruence].
  assert (Hdispatch : forall st', dispatch E (normalize E fuel) d validator st'
                                  = Some (Ok (definition d), st')).
  { intros st'. unfold dispatch.
    destruct Hty as [<-|[<-|[<-|[]]]]; reflexivity. }
  unfold wbind at 1. rewrite Hdispatch.
  silent_step (@silent_prop (callback unit) d_errors validator).
  destruct o as [errors|err]; [|apply Hcatch; congruence].
  silent_step (silent_run_errors errors (set_result (definition d) d) (definition d)).
  destruct o as [[]|err]; [|apply Hcatch; congruence].
  eexists _, _. split; [reflexivity|]. repeat split; try congruence. now left.
Qed.

Lemma lift_Ok_inv {A} (c : M wstate A) st a st' :
  lift c st = Some (Ok a, st') -> c st = (Ok a, st').
Proof. unfold lift. now intros [= ->]. Qed.

Lemma dispatch_cases normalize_rec d validator st res st' :
  dispatch E normalize_rec d validator st = Some (Ok res, st') ->
  res = result d \/ res = definition d.
Proof.
  unfold dispatch.
  destruct (String.eqb _ "array").
  { intros H. apply wbind_Ok_inv in H as (? & ? & _ & [= <- _]). now left. }
  destruct (String.eqb _ "object").
  { intros H. apply wbind_Ok_inv in H as (? & ? & _ & [= <- _]). now left. }
  destruct (_ || _).
  { intros [= <- _]. now right. }
  intros H. apply wbind_Ok_inv in H as (? & ? & _ & [= <- _]). now left.
Qed.

(** X11: what [normalize] returns is [undefined], or the result of its
    context, or the definition of its context, or the truthy value [map]
    held for the definition when the call started; no callback of the
    validator can put another value in its place. *)
Theorem normalize_result_cases (fuel : nat) (d : data) (st : wstate) (v : jsval) (st' : wstate) :
  normalize E fuel d st = Some (Ok v, st') ->
  v = undefined
  \/ v = result d
  \/ v = definition d
  \/ (exists r, definition d = JRef r /\ w_map st !! r = Some v /\ truthy v = true).
Proof.
  destruct fuel as [|fuel]; [discriminate|]. rewrite normalize_S.
  destruct (normalize_try E (normalize E fuel) d st) as [[[v0|err] st0]|] eqn:Htry;
    [|intros [= <- _]; auto | discriminate].
  intros [= <- <-]. unfold normalize_try in Htry.
  apply wbind_Ok_inv in Htry as (validator & st1 & H1 & Htry). apply lift_Ok_inv in H1.
  apply wbind_Ok_inv in Htry as (valid & st2 & H2 & Htry). apply lift_Ok_inv in H2.
  destruct valid; cbn [negb] in Htry; [|injection Htry as <- _; auto].
  apply wbind_Ok_inv in Htry as (existing & st3 & H3 & Htry). apply lift_Ok_inv in H3.
  assert (Hmap : w_map st2 = w_map st).
  { pose proof (silent_fn_validator (validator_of d) d st) as [_ Ha].
    pose proof (silent_validateType (definitionType d) d st1) as [_ Hb].
    rewrite H1 in Ha. rewrite H2 in Hb. simpl in Ha, Hb. congruence. }
  destruct existing as [known|].
  - injection Htry as <- _. right; right; right.
    unfold cycle_guard in H3. destruct (definition d) as [|r]; [discriminate|].
    exists r. rewrite <- Hmap. split; [reflexivity|].
    destruct (w_map st2 !! r) as [existing|]; [|discriminate].
    destruct (truthy existing) eqn:T; [|discriminate].
    injection H3 as <- _. auto.
  - apply wbind_Ok_inv in Htry as (? & st4 & _ & Htry).
    apply wbind_Ok_inv in Htry as (res & st5 & Hd & Htry).
    apply wbind_Ok_inv in Htry as (? & st6 & _ & Htry).
    apply wbind_Ok_inv in Htry as (? & st7 & _ & Htry).
    injection Htry as <- _.
    destruct (dispatch_cases _ _ _ _ _ _ Hd) as [-> | ->]; auto.
Qed.

(** *** Extension properties *)

Lemma assoc_assoc_set_eq {A} k k' (v : A) l :
  assoc k' (assoc_set k v l) = if String.eqb k' k then Some v else assoc k' l.
Proof.
  induction l as [|[k0 v0] l IH]; simpl.
  - destruct (String.eqb k' k); reflexivity.
  - destruct (String.eqb k k0) eqn:K; simpl.
    + apply String.eqb_eq in K. subst k0. now destruct (String.eqb k' k).
    + rewrite IH. destruct (String.eqb k' k) eqn:K'; [|reflexivity].
      apply String.eqb_eq in K'. subst k'. now rewrite K.
Qed.

Lemma set_objs_same st : set_objs (w_objs st) st = st.
Proof. now destruct st. Qed.

Lemma organize_run (d : data) (b a : addr) (props : list (string * jsval)) (keys : list string) :
  definition d = JRef (Def b) ->
  defs E !! b = Some (OObject props) ->
  result d = JRef (Obj a) ->
  forall unknownKeys rprops st,
    w_objs st !! a = Some (OObject rprops) ->
    exists rprops',
      organize E d keys unknownKeys st
      = (Ok (unknownKeys ++ List.filter (fun k => negb (rxExtension_test k)) keys)%list,
         set_objs (<[a := OObject rprops']> (w_objs st)) st)
      /\ forall k,
           assoc k rprops'
           = if rxExtension_test k && existsb (String.eqb k) keys
             then Some (default undefined (assoc k props))
             else assoc k rprops.
Proof.
  intros Hdef Hb Hres. induction keys as [|key keys IH]; intros u rprops st Ha.
  - exists rprops. cbn [organize List.filter existsb]. rewrite app_nil_r.
    rewrite list_insert_id by exact Ha. rewrite set_objs_same. split; [reflexivity|].
    intros k. now rewrite andb_false_r.
  - cbn [organize List.filter existsb]. destruct (rxExtension_test key) eqn:X; cbn [negb].
    + unfold bind at 1.
      assert (Hget : get_key E (definition d) (KName key) st
                     = (Ok (default undefined (assoc key props)), st)).
      { rewrite Hdef. unfold get_key, get_property, own_property, ret. simpl. rewrite Hb.
        now destruct (assoc key props). }
      rewrite Hget. unfold bind at 1. unfold set_property. rewrite Hres, Ha.
      set (v := default undefined (assoc key props)).
      set (st1 := set_objs (<[a := OObject (assoc_set key v rprops)]> (w_objs st)) st).
      assert (Ha1 : w_objs st1 !! a = Some (OObject (assoc_set key v rprops))).
      { subst st1. simpl. apply list_lookup_insert_eq. now apply lookup_lt_Some in Ha. }
      destruct (IH u _ st1 Ha1) as (rprops' & -> & Hk).
      exists rprops'. split.
      * subst st1. unfold set_objs. simpl. now rewrite list_insert_insert_eq.
      * intros k. rewrite Hk, assoc_assoc_set_eq.
        destruct (String.eqb k key) eqn:K; cbn [orb].
        -- apply String.eqb_eq in K. subst k. rewrite X. cbn [andb].
           now destruct (existsb _ keys).
        -- reflexivity.
    + destruct (IH (u ++ [key])%list rprops st Ha) as (rprops' & -> & Hk).
      exists rprops'. rewrite <- app_assoc. split; [reflexivity|].
      intros k. rewrite Hk. destruct (String.eqb k key) eqn:K; cbn [orb]; [|reflexivity].
      apply String.eqb_eq in K. subst k. rewrite X. reflexivity.
Qed.

(** X12: lines 131-137, on a definition object and a result object:
    every key of the definition matching the extension pattern is set on the
    result to the very value the definition holds (neither walked nor
    copied), the other properties of the result stay as they were, nothing
    else in the state changes, and the keys not matching the pattern are the
    unknown keys, in the order of the definition. *)
Theorem extension_properties_are_copied
    (d : data) (b a : addr) (props rprops : list (string * jsval)) (st : wstate) :
  definition d = JRef (Def b) ->
  defs E !! b = Some (OObject props) ->
  result d = JRef (Obj a) ->
  w_objs st !! a = Some (OObject rprops) ->
  exists rprops',
    organize E d (map fst props) [] st
    = (Ok (List.filter (fun k => negb (rxExtension_test k)) (map fst props)),
       set_objs (<[a := OObject rprops']> (w_objs st)) st)
    /\ forall k,
         assoc k rprops'
         = match assoc k props with
           | Some v => if rxExtension_test k then Some v else assoc k rprops
           | None => assoc k rprops
           end.
Proof.
  intros Hdef Hb Hres Ha.
  destruct (organize_run d b a props (map fst props) Hdef Hb Hres [] rprops st Ha)
    as (rprops' & Hrun & Hk).
  exists rprops'. split; [exact Hrun|]. intros k. rewrite Hk.
  assert (Hin : existsb (String.eqb k) (map fst props)
                = match assoc k props with Some _ => true | None => false end).
  { clear. induction props as [|[k' v'] l IH]; [reflexivity|]. simpl.
    destruct (String.eqb k k'); [reflexivity | exact IH]. }
  rewrite Hin. destruct (assoc k props); [|now rewrite andb_false_r].
  now rewrite andb_true_r.
Qed.

End WalkFacts.

(** ** Messages are only added *)

Section MessagesKept.

Variable E : Env.



(** The messages of [st] are still there in [st'], in their places. *)
Definition keeps (st st' : wstate) : Prop :=
  w_errors st `prefix_of` w_errors st' /\ w_warnings st `prefix_of` w_warnings st'.

Lemma keeps_refl st : keeps st st.
Proof. split; reflexivity. Qed.

Lemma keeps_trans st1 st2 st3 : keeps st1 st2 -> keeps st2 st3 -> keeps st1 st3.
Proof. intros [H1 H2] [H3 H4]. split; etransitivity; eassumption. Qed.

Lemma keeps_add_messages errs warns st : keeps st (add_messages errs warns st).
Proof. split; simpl; now apply prefix_app_r. Qed.

Lemma keeps_same st st' :
  w_errors st' = w_errors st -> w_warnings st' = w_warnings st -> keeps st st'.
Proof. intros H1 H2. split; [rewrite H1 | rewrite H2]; reflexivity. Qed.

Definition mkeeps {A} (c : M wstate A) : Prop := forall st, keeps st (c st).2.

Definition wkeeps {A} (c : W A) : Prop :=
  forall st o st', c st = Some (o, st') -> keeps st st'.

Lemma mkeeps_ret {A} (a : A) : mkeeps (ret a).
Proof. intros st. apply keeps_refl. Qed.

Lemma mkeeps_throw {A} err : mkeeps (@throw wstate A err).
Proof. intros st. apply keeps_refl. Qed.

Lemma mkeeps_bind {A B} (c : M wstate A) (k : A -> M wstate B) :
  mkeeps c -> (forall a, mkeeps (k a)) -> mkeeps (bind c k).
Proof.
  intros Hc Hk st. unfold bind. specialize (Hc st).
  destruct (c st) as [[a|err] st1]; simpl in *; [|exact Hc].
  eapply keeps_trans; [exact Hc | apply Hk].
Qed.

Lemma mkeeps_message p text : mkeeps (message p text).
Proof. intros st. apply keeps_add_messages. Qed.

Lemma mkeeps_forEach {A} (l : list A) (body : A -> M wstate unit) :
  (forall x, mkeeps (body x)) -> mkeeps (forEach l body).
Proof.
  intros H. induction l as [|x l IH]; simpl; [apply mkeeps_ret|].
  apply mkeeps_bind; auto.
Qed.

Lemma mkeeps_call {A} (f : callback A) d : mkeeps (call f d).
Proof.
  intros st. unfold call. destruct (f (cbdata_of d st) _) as [o rep].
  apply keeps_add_messages.
Qed.

(** Follow the shape of a step down to the steps already known. *)
Ltac mkeeps_auto :=
  first
    [ assumption
    | apply mkeeps_ret
    | apply mkeeps_throw
    | apply mkeeps_message
    | apply mkeeps_call
    | apply mkeeps_bind; [mkeeps_auto | intros ?; mkeeps_auto]
    | lazymatch goal with
      | |- mkeeps (if ?b then _ else _) => destruct b; mkeeps_auto
      | |- mkeeps (match ?x with _ => _ end) => destruct x; mkeeps_auto
      end
    | solve [auto]
    | idtac ].

(** Steps on the objects or on [map]: the messages are not touched. *)
Ltac mkeeps_state_fn :=
  intros st;
  repeat lazymatch goal with
         | |- context [match ?x with _ => _ end] => destruct x
         end;
  now apply keeps_same.

Lemma mkeeps_fn {A} (value : field A) d : mkeeps (fn value d).
Proof. unfold fn. mkeeps_auto. Qed.

Lemma mkeeps_fn_validator v d : mkeeps (fn_validator v d).
Proof. unfold fn_validator. pose proof (@mkeeps_fn validator). mkeeps_auto. Qed.

Lemma mkeeps_prop {A} (get : descriptor -> option A) v : mkeeps (prop get v).
Proof. unfold prop. mkeeps_auto. Qed.

Lemma mkeeps_prop_validator get v : mkeeps (prop_validator get v).
Proof. unfold prop_validator. mkeeps_auto. Qed.

Lemma mkeeps_pop_type m : mkeeps (pop_type m).
Proof. intros st. unfold pop_type. destruct m as [[| |a]|]; now apply keeps_same. Qed.

Lemma mkeeps_validateType ty d : mkeeps (validateType E ty d).
Proof.
  unfold validateType. apply mkeeps_bind; [apply mkeeps_prop|]. intros [t|]; [|apply mkeeps_ret].
  destruct (type_truthy t && _); [|apply mkeeps_ret].
  apply mkeeps_bind; [apply mkeeps_fn|]. intros m.
  apply mkeeps_bind; [intros st; apply keeps_refl|]. intros matches.
  pose proof (mkeeps_pop_type m). mkeeps_auto.
Qed.

Lemma mkeeps_check_enum v d : mkeeps (check_enum E v d).
Proof.
  unfold check_enum. pose proof (@mkeeps_fn (list jsval)).
  pose proof (@mkeeps_prop (field (list jsval))). mkeeps_auto.
Qed.

Lemma mkeeps_flag_holds f d : mkeeps (flag_holds f d).
Proof. unfold flag_holds. pose proof (@mkeeps_fn bool). mkeeps_auto. Qed.

Lemma mkeeps_allowed_of v d : mkeeps (allowed_of v d).
Proof.
  unfold allowed_of. pose proof (@mkeeps_fn bool). pose proof (@mkeeps_prop (field bool)).
  mkeeps_auto.
Qed.

Lemma mkeeps_run_errors errors d v : mkeeps (run_errors errors d v).
Proof. unfold run_errors, fn_errors. pose proof (@mkeeps_fn unit). mkeeps_auto. Qed.

Lemma mkeeps_report_keys d m n u : mkeeps (report_keys d m n u).
Proof. unfold report_keys. mkeeps_auto. Qed.

Lemma mkeeps_alloc o : mkeeps (alloc o).
Proof. intros st. now apply keeps_same. Qed.

Lemma mkeeps_push target v : mkeeps (push target v).
Proof. unfold push. mkeeps_state_fn. Qed.

Lemma mkeeps_set_property target k v : mkeeps (set_property target k v).
Proof. unfold set_property. mkeeps_state_fn. Qed.

Lemma mkeeps_array_indices v : mkeeps (array_indices E v).
Proof. unfold array_indices. mkeeps_state_fn. Qed.

Lemma mkeeps_keys_of v : mkeeps (keys_of E v).
Proof. unfold keys_of, object_keys, ret, throw. mkeeps_state_fn. Qed.

Lemma mkeeps_get_key v k : mkeeps (get_key E v k).
Proof. unfold get_key, get_property, ret, throw. mkeeps_state_fn. Qed.

Lemma mkeeps_cycle_guard d : mkeeps (cycle_guard d).
Proof. unfold cycle_guard. mkeeps_state_fn. Qed.

Lemma mkeeps_object_assign target source : mkeeps (object_assign E target source).
Proof.
  unfold object_assign.
  assert (H : mkeeps (let* ks := keys_of E source in
                      forEach ks (fun k =>
                        let* v := get_key E source (KName k) in
                        set_property target k v))).
  { apply mkeeps_bind; [apply mkeeps_keys_of|]. intros ks.
    apply mkeeps_forEach. intros k.
    apply mkeeps_bind; [apply mkeeps_get_key | intros; apply mkeeps_set_property]. }
  destruct source as [[| | | |]|]; auto using mkeeps_ret.
Qed.

Lemma mkeeps_util_copy v :
  mkeeps (fun st => let '(c, h) := util_copy E v (w_objs st) in (Ok c, set_objs h st)).
Proof. intros st. destruct (util_copy E v (w_objs st)). now apply keeps_same. Qed.

Lemma mkeeps_childData d k v : mkeeps (childData E d k v).
Proof.
  unfold childData. apply mkeeps_bind; [apply mkeeps_get_key|]. intros x st.
  match goal with |- keeps st (?c st).2 => assert (H : mkeeps c); [|exact (H st)] end.
  pose proof mkeeps_alloc. mkeeps_auto.
Qed.

Lemma mkeeps_organize d keys u : mkeeps (organize E d keys u).
Proof.
  revert u. induction keys as [|k keys IH]; intros u; simpl; [apply mkeeps_ret|].
  pose proof mkeeps_get_key. pose proof mkeeps_set_property. mkeeps_auto.
Qed.

Lemma mkeeps_build_properties d props u : mkeeps (build_properties E d props u).
Proof.
  revert u. induction props as [|[k v] props IH]; intros u; simpl; [apply mkeeps_ret|].
  apply mkeeps_bind; [apply mkeeps_childData|]. intros child.
  apply mkeeps_bind; [apply mkeeps_prop|]. intros weight.
  apply mkeeps_bind; [apply IH|]. intros [properties unknownKeys]. apply mkeeps_ret.
Qed.

Lemma wkeeps_wret {A} (a : A) : wkeeps (wret a).
Proof. intros st o st' [= <- <-]. apply keeps_refl. Qed.

Lemma wkeeps_lift {A} (c : M wstate A) : mkeeps c -> wkeeps (lift c).
Proof. intros H st o st' [= Hc]. specialize (H st). now rewrite Hc in H. Qed.

Lemma wkeeps_wbind {A B} (c : W A) (k : A -> W B) :
  wkeeps c -> (forall a, wkeeps (k a)) -> wkeeps (wbind c k).
Proof.
  intros Hc Hk st o st'. unfold wbind.
  destruct (c st) as [[[a|err] st1]|] eqn:Ec; [| |discriminate].
  - intros H. eapply keeps_trans; [exact (Hc _ _ _ Ec) | exact (Hk _ _ _ _ H)].
  - intros [= <- <-]. exact (Hc _ _ _ Ec).
Qed.

Lemma wkeeps_wforEach {A} (l : list A) (body : A -> W unit) :
  (forall x, wkeeps (body x)) -> wkeeps (wforEach l body).
Proof.
  intros H. induction l as [|x l IH]; simpl; [apply wkeeps_wret|].
  apply wkeeps_wbind; auto.
Qed.

Create HintDb keeps.

Hint Resolve mkeeps_ret mkeeps_throw mkeeps_message mkeeps_fn_validator mkeeps_prop
  mkeeps_prop_validator mkeeps_validateType mkeeps_check_enum mkeeps_flag_holds
  mkeeps_allowed_of mkeeps_run_errors mkeeps_report_keys mkeeps_push mkeeps_set_property
  mkeeps_array_indices mkeeps_keys_of mkeeps_get_key mkeeps_cycle_guard mkeeps_object_assign
  mkeeps_util_copy mkeeps_childData mkeeps_organize mkeeps_build_properties : keeps.

(** What [normalize] does after the enum check (lines 86-211). *)
Definition after_enum (normalize_rec : data -> W jsval) (d : data) (validator : validator)
    : W jsval :=
  let! result := dispatch E normalize_rec d validator in
  let! errors := lift (prop d_errors validator) in
  let! _ := lift (run_errors errors (set_result result d) result) in
  wret result.

Section Step.

Variable normalize_rec : data -> W jsval.
Hypothesis Hrec : forall d, wkeeps (normalize_rec d).

(** Follow the shape of the walk down to the recursive calls. *)
Ltac wkeeps_auto :=
  first
    [ assumption
    | apply Hrec
    | apply wkeeps_wret
    | lazymatch goal with
      | H : forall d, wkeeps (runChildValidator _ _ d) |- wkeeps (runChildValidator _ _ _) =>
          apply H
      | H : forall d v ks n, wkeeps (normalize_additional _ _ d v ks n)
        |- wkeeps (normalize_additional _ _ _ _ _ _) => apply H
      | H : forall t ps acc, wkeeps (normalize_properties _ _ t ps acc)
        |- wkeeps (normalize_properties _ _ _ _ _) => apply H
      | H : forall d v, wkeeps (normalize_array _ _ d v) |- wkeeps (normalize_array _ _ _ _) =>
          apply H
      | H : forall d v, wkeeps (normalize_object _ _ d v) |- wkeeps (normalize_object _ _ _ _) =>
          apply H
      end
    | apply wkeeps_lift; solve [auto with keeps | apply mkeeps_fn]
    | apply wkeeps_wbind; [wkeeps_auto | intros ?; wkeeps_auto]
    | lazymatch goal with
      | |- wkeeps (if ?b then _ else _) => destruct b; wkeeps_auto
      | |- wkeeps (match ?x with _ => _ end) => destruct x; wkeeps_auto
      end
    | idtac ].

Lemma wkeeps_runChildValidator d : wkeeps (runChildValidator E normalize_rec d).
Proof. unfold runChildValidator, construct. wkeeps_auto. Qed.

Lemma wkeeps_normalize_array d v : wkeeps (normalize_array E normalize_rec d v).
Proof.
  unfold normalize_array. apply wkeeps_wbind; [wkeeps_auto|]. intros indices.
  apply wkeeps_wforEach. intros i. pose proof wkeeps_runChildValidator. wkeeps_auto.
Qed.

Lemma wkeeps_normalize_additional d v keys notAllowed :
  wkeeps (normalize_additional E normalize_rec d v keys notAllowed).
Proof.
  revert notAllowed. induction keys as [|k keys IH]; intros notAllowed; simpl;
    [apply wkeeps_wret|].
  apply wkeeps_wbind; [|intros n; apply IH].
  unfold normalize_additional_key. pose proof wkeeps_runChildValidator. wkeeps_auto.
Qed.

Lemma wkeeps_normalize_property target p acc :
  wkeeps (normalize_property E normalize_rec target p acc).
Proof.
  unfold normalize_property. destruct acc as [m n].
  apply wkeeps_wbind; [wkeeps_auto|]. intros allowed.
  apply wkeeps_wbind.
  - destruct (vprop d_default _) as [dflt|]; [|apply wkeeps_wret].
    destruct (_ && _); [|apply wkeeps_wret].
    apply wkeeps_wbind; [wkeeps_auto|]. intros v st o st' [= <- <-]. apply keeps_refl.
  - intros data. pose proof wkeeps_runChildValidator. wkeeps_auto.
Qed.

Lemma wkeeps_normalize_properties target properties acc :
  wkeeps (normalize_properties E normalize_rec target properties acc).
Proof.
  revert acc. induction properties as [|p properties IH]; intros acc; simpl;
    [apply wkeeps_wret|].
  apply wkeeps_wbind; [apply wkeeps_normalize_property | intros acc'; apply IH].
Qed.

Lemma wkeeps_normalize_object d v : wkeeps (normalize_object E normalize_rec d v).
Proof.
  unfold normalize_object, normalize_structured.
  pose proof wkeeps_normalize_additional. pose proof wkeeps_normalize_properties.
  wkeeps_auto.
Qed.

Lemma wkeeps_normalize_try d : wkeeps (normalize_try E normalize_rec d).
Proof.
  unfold normalize_try, dispatch, unknown_data_type.
  pose proof wkeeps_normalize_array. pose proof wkeeps_normalize_object.
  wkeeps_auto.
Qed.

Lemma wkeeps_after_enum d v : wkeeps (after_enum normalize_rec d v).
Proof.
  unfold after_enum, dispatch, unknown_data_type.
  pose proof wkeeps_normalize_array. pose proof wkeeps_normalize_object.
  wkeeps_auto.
Qed.

End Step.

Lemma wkeeps_normalize fuel d : wkeeps (normalize E fuel d).
Proof.
  revert d. induction fuel as [|fuel IH]; intros d st o st'; [discriminate|].
  simpl. destruct (normalize_try E (normalize E fuel) d st) as [[[v|err] st1]|] eqn:T;
    [| |discriminate]; intros [= <- <-].
  - exact (wkeeps_normalize_try _ IH d _ _ _ T).
  - eapply keeps_trans; [exact (wkeeps_normalize_try _ IH d _ _ _ T)|].
    apply keeps_add_messages.
Qed.

(** X13: [normalize] only adds messages: the errors and the warnings
    attached before the call are still there after it, unchanged and in
    their places, followed by those the call attached. *)
Theorem normalize_keeps_messages
    (fuel : nat) (d : data) (st : wstate) (v : jsval) (st' : wstate) :
  normalize E fuel d st = Some (Ok v, st') ->
  (exists errors, w_errors st' = (w_errors st ++ errors)%list)
  /\ (exists warnings, w_warnings st' = (w_warnings st ++ warnings)%list).
Proof. intros H. exact (wkeeps_normalize fuel d st (Ok v) st' H). Qed.

(** *** The enum check within [normalize] *)

(** C2, amended: on a context whose validator provides an enum list,
    [normalize] makes no enum check after a type check that failed, and none
    on a definition it answers from [map].  Otherwise the list is evaluated
    and, unless that threw, the enum message is attached at the current
    path, before anything below the node is walked, if and only if the list
    does not include the definition, as [Array.prototype.includes] finds
    it: an element that is the same value, which for an object or an array
    means that very object.  The messages of the walk below come after
    it. *)
Theorem normalize_checks_enum_by_identity
    (fuel : nat) (d : data) (st : wstate) (validator : validator) (st1 : wstate)
    (e : field (list jsval)) :
  fn_validator (validator_of d) d st = (Ok validator, st1) ->
  vprop d_enum validator = Some e ->
  (forall st2,
      validateType E (definitionType d) d st1 = (Ok false, st2) ->
      normalize E (S fuel) d st = Some (Ok undefined, st2))
  /\ (forall st2 known st3,
        validateType E (definitionType d) d st1 = (Ok true, st2) ->
        cycle_guard d st2 = (Ok (Some known), st3) ->
        normalize E (S fuel) d st = Some (Ok known, st2))
  /\ (forall st2 st3 matches st4,
        validateType E (definitionType d) d st1 = (Ok true, st2) ->
        cycle_guard d st2 = (Ok None, st3) ->
        fn e d st3 = (Ok (Some matches), st4) ->
        let attached :=
          if includes matches (definition d) then []
          else [(exception d, enum_message E matches (definition d))] in
        normalize_try E (normalize E fuel) d st
        = after_enum (normalize E fuel) d validator (add_messages attached [] st4)
        /\ forall v st',
             normalize E (S fuel) d st = Some (Ok v, st') ->
             exists later, w_errors st' = (w_errors st4 ++ attached ++ later)%list)
  /\ (forall st2 st3 st4,
        validateType E (definitionType d) d st1 = (Ok true, st2) ->
        cycle_guard d st2 = (Ok None, st3) ->
        fn e d st3 = (Ok None, st4) ->
        exists err,
          normalize E (S fuel) d st
          = Some (Ok (result d), add_messages [(exception d, unexpected err)] [] st4))
  /\ (forall matches v,
        includes matches v = true
        <-> Exists (fun m => same_value_zero m v = true) matches)
  /\ (forall matches r, includes matches (JRef r) = true <-> In (JRef r) matches).
Proof.
  intros Hf He.
  assert (Hd : exists d0, validator = VDescriptor d0 /\ d_enum d0 = Some e).
  { destruct validator; try discriminate He. eauto. }
  destruct Hd as (d0 & -> & Hd0).
  assert (Hstart : forall valid st2,
             validateType E (definitionType d) d st1 = (Ok valid, st2) ->
             normalize_try E (normalize E fuel) d st
             = (if negb valid then wret undefined
                else
                  let! existing := lift (cycle_guard d) in
                  match existing with
                  | Some known => wret known
                  | None =>
                      let! _ := lift (check_enum E (VDescriptor d0) d) in
                      after_enum (normalize E fuel) d (VDescriptor d0)
                  end) st2).
  { intros valid st2 Hv. unfold normalize_try, wbind at 1 2, lift at 1 2.
    now rewrite Hf, Hv. }
  assert (Hcheck : forall st3, check_enum E (VDescriptor d0) d st3
                               = match fn e d st3 with
                                 | (Ok (Some matches), st4) =>
                                     if includes matches (definition d) then (Ok tt, st4)
                                     else message (exception d)
                                            (enum_message E matches (definition d)) st4
                                 | (Ok None, st4) =>
                                     (Throw "TypeError: Cannot read property 'includes' of undefined",
                                      st4)
                                 | (Throw err, st4) => (Throw err, st4)
                                 end).
  { intros st3. unfold check_enum, bind at 1, prop, ret. rewrite Hd0. unfold bind.
    destruct (fn e d st3) as [[[matches|]|err] st4]; try reflexivity.
    now destruct (includes matches (definition d)). }
  split; [|split; [|split; [|split; [|split]]]].
  - intros st2 Hv. rewrite normalize_S, (Hstart _ _ Hv). reflexivity.
  - intros st2 known st3 Hv Hg. rewrite normalize_S, (Hstart _ _ Hv). cbn [negb].
    unfold wbind, lift. rewrite Hg.
    assert (st3 = st2) as ->; [|reflexivity].
    unfold cycle_guard in Hg. destruct (definition d) as [|r]; [discriminate|].
    destruct (w_map st2 !! r) as [x|]; [|discriminate].
    destruct (truthy x); now inversion Hg.
  - intros st2 st3 matches st4 Hv Hg Hm attached.
    assert (Heq : normalize_try E (normalize E fuel) d st
                  = after_enum (normalize E fuel) d (VDescriptor d0)
                      (add_messages attached [] st4)).
    { rewrite (Hstart _ _ Hv). cbn [negb]. unfold wbind at 1, lift at 1. rewrite Hg.
      unfold wbind at 1, lift at 1. rewrite Hcheck, Hm. subst attached.
      destruct (includes matches (definition d)); [|reflexivity].
      unfold add_messages. rewrite !app_nil_r. now destruct st4. }
    split; [exact Heq|]. intros v st' Hn. rewrite normalize_S, Heq in Hn.
    assert (Hk : keeps (add_messages attached [] st4) st').
    { destruct (after_enum (normalize E fuel) d (VDescriptor d0) (add_messages attached [] st4))
        as [[[v0|err] st0]|] eqn:Ha; [| |discriminate].
      - injection Hn as <- <-.
        exact (wkeeps_after_enum _ (wkeeps_normalize fuel) d _ _ _ _ Ha).
      - injection Hn as _ <-.
        eapply keeps_trans; [exact (wkeeps_after_enum _ (wkeeps_normalize fuel) d _ _ _ _ Ha)|].
        apply keeps_add_messages. }
    destruct Hk as [[later Hl] _]. exists later. rewrite Hl. simpl. now rewrite <- app_assoc.
  - intros st2 st3 st4 Hv Hg Hm. eexists.
    rewrite normalize_S, (Hstart _ _ Hv). cbn [negb]. unfold wbind at 1, lift at 1. rewrite Hg.
    unfold wbind at 1, lift at 1. rewrite Hcheck, Hm. reflexivity.
  - intros matches v. apply includes_Exists.
  - intros matches r. unfold includes. rewrite existsb_exists. split.
    + intros (m & Hin & Hm). destruct m as [p|r']; [now destruct p|].
      simpl in Hm. apply bool_decide_eq_true in Hm. now subst.
    + intros Hin. exists (JRef r). split; [exact Hin|]. simpl. now apply bool_decide_eq_true.
Qed.

End MessagesKept.

Lemma enum_check_witness :
  (normalize_try twins_env (normalize twins_env 0) (letter_data "b") root_state
   = after_enum twins_env (normalize twins_env 0) (letter_data "b") letters_validator
       (add_messages [] [] root_state)
   /\ forall v st',
        normalize twins_env 1 (letter_data "b") root_state = Some (Ok v, st') ->
        exists later, w_errors st' = (w_errors root_state ++ [] ++ later)%list)
  /\ (normalize_try twins_env (normalize twins_env 0) (letter_data "c") root_state
      = after_enum twins_env (normalize twins_env 0) (letter_data "c") letters_validator
          (add_messages
             [([KName "type"],
               enum_message twins_env [JPrim (PStr "a"); JPrim (PStr "b")] (JPrim (PStr "c")))]
             [] root_state)
      /\ forall v st',
           normalize twins_env 1 (letter_data "c") root_state = Some (Ok v, st') ->
           exists later,
             w_errors st'
             = (w_errors root_state
                  ++ [([KName "type"],
                       enum_message twins_env [JPrim (PStr "a"); JPrim (PStr "b")]
                         (JPrim (PStr "c")))]
                  ++ later)%list).
Proof.
  split.
  - exact (proj1 (proj2 (proj2 (normalize_checks_enum_by_identity twins_env 0 (letter_data "b")
                                  root_state letters_validator root_state
                                  (Literal [JPrim (PStr "a"); JPrim (PStr "b")])
                                  eq_refl eq_refl)))
             root_state root_state [JPrim (PStr "a"); JPrim (PStr "b")] root_state
             eq_refl eq_refl eq_refl).
  - exact (proj1 (proj2 (proj2 (normalize_checks_enum_by_identity twins_env 0 (letter_data "c")
                                  root_state letters_validator root_state
                                  (Literal [JPrim (PStr "a"); JPrim (PStr "b")])
                                  eq_refl eq_refl)))
             root_state root_state [JPrim (PStr "a"); JPrim (PStr "b")] root_state
             eq_refl eq_refl eq_refl).
Defined.

(** The enum messages of these two runs: none, and the one for [c]. *)
Example enum_check_runs :
  (exists st', normalize twins_env 1 (letter_data "b") root_state
               = Some (Ok (JPrim (PStr "b")), st')
               /\ w_errors st' = [])
  /\ (exists st', normalize twins_env 1 (letter_data "c") root_state
                  = Some (Ok (JPrim (PStr "c")), st')
                  /\ w_errors st'
                     = [([KName "type"],
                         "Value must be one of: a, b. Received: "
                           +:+ util_smart twins_env (JPrim (PStr "c")))]).
Proof. split; eexists; (split; [vm_compute; reflexivity | reflexivity]). Qed.

(** ** More on [discriminate] *)

Section DiscriminateFacts.

Variable L : Lang.

Lemma read_truthy {S} s v k (st : S) :
  truthy v = true -> read L s v k st = (Ok (read_property L s v k), st).
Proof. intros H. unfold read, ret. now destruct v as [[| | | |]|]. Qed.

Lemma property_key_converts {S} s k (st : S) :
  key_converts L s k = true -> property_key L s k st = (Ok (to_property_key L k), st).
Proof. intros H. unfold property_key. now rewrite H. Qed.

Lemma read_at_converts {S} s o k (st : S) :
  key_converts L s k = true ->
  read_at L s o k st = (Ok (read_property L s o (to_property_key L k)), st).
Proof. intros H. unfold read_at, bind. now rewrite property_key_converts. Qed.

Lemma and_at_converts {S} s o k (st : S) :
  key_converts L s k = true -> exists v, and_at L s o k st = (Ok v, st).
Proof.
  intros H. unfold and_at. destruct (truthy o); [|unfold ret; eauto].
  rewrite read_at_converts by assumption. eauto.
Qed.

Lemma call_hasOwnProperty_plain {S} x s o k (st : S) :
  own_property s o "hasOwnProperty" = None ->
  key_converts L s k = true ->
  call_hasOwnProperty L x s o k st = (Ok (hasOwnProperty s o (to_property_key L k)), st).
Proof.
  intros H Hk. unfold call_hasOwnProperty, bind. now rewrite H, property_key_converts.
Qed.

Lemma call_hasOwnProperty_shadowed {S} x s o k (st : S) :
  own_property s o "hasOwnProperty" <> None ->
  call_hasOwnProperty L x s o k st = (Throw (not_a_function x), st).
Proof. intros H. unfold call_hasOwnProperty. now destruct (own_property s o "hasOwnProperty"). Qed.

(** The name found when nothing throws. *)
Definition name_of (s : store) (discriminator value k : jsval) : jsval :=
  if truthy discriminator && truthy value && hasOwnProperty s value (to_property_key L k)
  then read_property L s value (to_property_key L k)
  else undefined.

Lemma discriminator_name_plain {S} s discriminator value k (st : S) :
  (truthy value = true -> own_property s value "hasOwnProperty" = None) ->
  key_converts L s k = true ->
  discriminator_name L s discriminator value k st = (Ok (name_of s discriminator value k), st).
Proof.
  intros H Hk. unfold discriminator_name, name_of.
  destruct (truthy discriminator); cbn [andb]; [|reflexivity].
  destruct (truthy value); cbn [andb]; [|reflexivity].
  unfold bind. rewrite (call_hasOwnProperty_plain _ _ _ _ _ (H eq_refl) Hk).
  destruct (hasOwnProperty _ _ _); [|reflexivity].
  now rewrite read_at_converts.
Qed.

(** The property of a value that names its schema. *)
Definition discriminator_key (s : store) (this : schema_node) : jsval :=
  if strict_equal (sn_major this) (JPrim (PNum 2)) then sn_discriminator this
  else if strict_equal (sn_major this) (JPrim (PNum 3)) then
    read_property L s (sn_discriminator this) "propertyName"
  else undefined.



End DiscriminateFacts.

(** ** The options of [populate] and [random] (Schema.js, lines 111-131 and 158-172)

    Both methods start by completing and checking the [options] object they
    are given, which they write to.  What follows in them ([runPopulate],
    [runRandom]) is not among the sources. *)

Section Options.

Variable L : Lang.

(** [util.isInteger] (util.js is not among the sources). *)
Variable isInteger : jsval -> bool.

(** An argument: a plain object, as [util.isPlainObject] knows them (an
    object whose prototype is [Object.prototype]), given by its own
    properties, which hold data, or any other value. *)
Inductive argument :=
| Plain (props : list (string * jsval))
| Other (v : jsval).

(** [if (!options.hasOwnProperty(k)) options[k] = v].  The test is a method
    call: on options that own a property [hasOwnProperty], which holds no
    function, it throws. *)
Definition set_default (k : string) (v : jsval) (options : list (string * jsval))
    : completion (list (string * jsval)) :=
  match assoc "hasOwnProperty" options with
  | Some _ => Throw (not_a_function "options")
  | None =>
      match assoc k options with
      | Some _ => Ok options
      | None => Ok (assoc_set k v options)
      end
  end.

Definition populate_defaults : list (string * jsval) :=
  [ ("copy", JPrim (PBool false)); ("conditions", JPrim (PBool true));
    ("defaults", JPrim (PBool true)); ("depth", JPrim (PNum 100));
    ("replacement", JPrim (PStr "handlebar")); ("templateDefaults", JPrim (PBool true));
    ("templates", JPrim (PBool true)); ("variables", JPrim (PBool true)) ].

Definition random_defaults : list (string * jsval) :=
  [ ("additionalPropertiesPossibility", JPrim (PNum 0)); ("arrayVariation", JPrim (PNum 4));
    ("copy", JPrim (PBool false)); ("defaultPossibility", JPrim (PNum 0.25));
    ("definedPropertyPossibility", JPrim (PNum 0x1.999999999999ap-1)); ("maxDepth", JPrim (PNum 10));
    ("numberVariation", JPrim (PNum 1000)); ("uniqueItemRetry", JPrim (PNum 5)) ].

(** The statements that set the defaults, one after another. *)
Definition with_defaults (defaults options : list (string * jsval))
    : completion (list (string * jsval)) :=
  fold_left (fun c kv => match c with
                         | Ok o => set_default kv.1 kv.2 o
                         | Throw e => Throw e
                         end) defaults (Ok options).

(** The options these statements make when none of them throws. *)
Definition completed (defaults options : list (string * jsval)) : list (string * jsval) :=
  fold_left (fun o kv => match assoc kv.1 o with
                         | Some _ => o
                         | None => assoc_set kv.1 kv.2 o
                         end) defaults options.

(** [populateInjectors.hasOwnProperty(name)] and [populateInjectors[name]] *)
Definition injector_named (name : string) : option Injector.replacement :=
  if String.eqb name "colon" then Some Injector.Colon
  else if String.eqb name "doubleHandlebar" then Some Injector.DoubleHandlebar
  else if String.eqb name "handlebar" then Some Injector.Handlebar
  else None.

(** What [populate] has when it calls [runPopulate]: [params], [options]
    as completed, the function stored as [options.injector] and
    [options.depth - 1]. *)
Record populate_setup := {
  ps_params : list (string * jsval);
  ps_options : list (string * jsval);
  ps_injector : Injector.replacement;
  ps_depth : float;
}.

(** [if (!options || !util.isPlainObject(options)) throw ...], after the
    default value [{}] of the parameter has replaced [undefined]. *)
Definition plain_options (options : argument) : completion (list (string * jsval)) :=
  match options with
  | Other (JPrim PUndefined) => Ok []
  | Other _ => Throw "Invalid options specified. Must be a plain object"
  | Plain given => Ok given
  end.

(** Lines 112-131 of [populate]. *)
Definition populate_options (s : store) (params options : argument)
    : completion populate_setup :=
  match
    match params with
    | Other (JPrim PUndefined) | Other (JPrim PNull) => Ok []
    | Other _ => Throw "Invalid params specified. Must be a plain object"
    | Plain props => Ok props
    end
  with
  | Throw e => Throw e
  | Ok params =>
      match plain_options options with
      | Throw e => Throw e
      | Ok given =>
          match with_defaults populate_defaults given with
          | Throw e => Throw e
          | Ok options =>
              let depth := default undefined (assoc "depth" options) in
              let replacement := default undefined (assoc "replacement" options) in
              if negb (isInteger depth) || js_gt L s (JPrim (PNum 0)) depth then
                Throw "Invalid depth specified. Expected a non-negative integer"
              else if negb (key_converts L s replacement) then
                Throw "TypeError: Cannot convert object to primitive value"
              else
                match injector_named (to_property_key L replacement) with
                | None =>
                    Throw ("Invalid replacement type specified. Expected one of: "
                             +:+ String.concat ", " ["colon"; "doubleHandlebar"; "handlebar"])
                | Some injector =>
                    Ok {| ps_params := params; ps_options := options; ps_injector := injector;
                          ps_depth := PrimFloat.sub (to_number L s depth) 1 |}
                end
          end
      end
  end.

(** [x < 0 || x > 1] *)
Definition out_of_range (s : store) (x : jsval) : bool :=
  js_gt L s (JPrim (PNum 0)) x || js_gt L s x (JPrim (PNum 1)).

Definition possibility_message (name : string) : string :=
  "The option " +:+ dq +:+ name +:+ dq +:+ " must be between 0 and 1 inclusive".

(** Lines 159-172 of [random]: the options as completed. *)
Definition random_options (s : store) (options : argument)
    : completion (list (string * jsval)) :=
  match plain_options options with
  | Throw e => Throw e
  | Ok given =>
      match with_defaults random_defaults given with
      | Throw e => Throw e
      | Ok options =>
          let read k := default undefined (assoc k options) in
          if out_of_range s (read "additionalPropertiesPossibility") then
            Throw (possibility_message "additionalPropertiesPossibility")
          else if out_of_range s (read "defaultPossibility") then
            Throw (possibility_message "defaultPossibility")
          else if out_of_range s (read "definedPropertyPossibility") then
            Throw (possibility_message "definedPropertyPossibility")
          else Ok options
      end
  end.

Lemma assoc_set_default k' k (v : jsval) options :
  assoc k' (match assoc k options with Some _ => options | None => assoc_set k v options end)
  = match assoc k' options with
    | Some x => Some x
    | None => if String.eqb k' k then Some v else None
    end.
Proof.
  destruct (assoc k options) as [x|] eqn:Hk.
  - destruct (assoc k' options) eqn:Hk'; [reflexivity|].
    destruct (String.eqb k' k) eqn:K; [|reflexivity].
    apply String.eqb_eq in K. congruence.
  - rewrite assoc_assoc_set_eq. destruct (String.eqb k' k) eqn:K.
    + apply String.eqb_eq in K. subst. now rewrite Hk.
    + now destruct (assoc k' options).
Qed.

(** A completed option is the one given, if it was given, whatever it
    holds, and the default otherwise. *)
Lemma assoc_completed k defaults options :
  assoc k (completed defaults options)
  = match assoc k options with
    | Some x => Some x
    | None => assoc k defaults
    end.
Proof.
  unfold completed. revert options.
  induction defaults as [|[k0 v0] defaults IH]; intros options; simpl.
  - now destruct (assoc k options).
  - rewrite IH, assoc_set_default. simpl.
    destruct (assoc k options); [reflexivity|]. now destruct (String.eqb k k0).
Qed.

Lemma defaults_thrown defaults e :
  fold_left (fun c kv => match c with
                         | Ok o => set_default kv.1 kv.2 o
                         | Throw e => Throw e
                         end) defaults (Throw e) = Throw e.
Proof. induction defaults as [|kv defaults IH]; [reflexivity | exact IH]. Qed.

(** Options that own a property [hasOwnProperty] stop the first default. *)
Lemma with_defaults_shadowed defaults options :
  defaults <> [] -> assoc "hasOwnProperty" options <> None ->
  with_defaults defaults options = Throw (not_a_function "options").
Proof.
  intros Hd Hown. destruct defaults as [|[k v] defaults]; [congruence|].
  unfold with_defaults. cbn [fold_left fst snd]. unfold set_default.
  destruct (assoc "hasOwnProperty" options); [apply defaults_thrown | congruence].
Qed.

Lemma with_defaults_Ok defaults options o :
  with_defaults defaults options = Ok o -> o = completed defaults options.
Proof.
  unfold with_defaults, completed. revert options.
  induction defaults as [|[k v] defaults IH]; intros options; cbn [fold_left fst snd].
  - now intros [= <-].
  - unfold set_default at 2. destruct (assoc "hasOwnProperty" options).
    + now rewrite defaults_thrown.
    + destruct (assoc k options); apply IH.
Qed.

Lemma with_defaults_plain defaults options :
  assoc "hasOwnProperty" options = None -> assoc "hasOwnProperty" defaults = None ->
  with_defaults defaults options = Ok (completed defaults options).
Proof.
  unfold with_defaults, completed. revert options.
  induction defaults as [|[k v] defaults IH]; intros options Ho Hd; cbn [fold_left fst snd].
  - reflexivity.
  - cbn [assoc] in Hd. destruct (String.eqb "hasOwnProperty" k) eqn:K; [discriminate|].
    unfold set_default at 2. rewrite Ho.
    assert (Ho' : assoc "hasOwnProperty"
                    (match assoc k options with
                     | Some _ => options
                     | None => assoc_set k v options
                     end) = None) by now rewrite assoc_set_default, Ho, K.
    destruct (assoc k options); now apply IH.
Qed.

(** X16: when the option handling of [populate] succeeds on a plain
    options object, every option given is kept as given, whatever it holds,
    and every option not given has its default; the depth is an integer by
    [util.isInteger] and not below 0, the injector is the one the
    replacement option names, [runPopulate] gets the depth less 1, and the
    parameters are those given, or none when they were undefined or null. *)
Theorem populate_options_completed
    (s : store) (params : argument) (given : list (string * jsval)) (setup : populate_setup) :
  populate_options s params (Plain given) = Ok setup ->
  let option k := default undefined (assoc k (ps_options setup)) in
  (forall k, assoc k (ps_options setup)
             = match assoc k given with
               | Some v => Some v
               | None => assoc k populate_defaults
               end)
  /\ isInteger (option "depth") = true
  /\ js_gt L s (JPrim (PNum 0)) (option "depth") = false
  /\ injector_named (to_property_key L (option "replacement")) = Some (ps_injector setup)
  /\ ps_depth setup = PrimFloat.sub (to_number L s (option "depth")) 1
  /\ ps_params setup = match params with Plain props => props | Other _ => [] end.
Proof.
  unfold populate_options.
  destruct (match params with
            | Plain props => Ok props
            | Other (JPrim PUndefined) | Other (JPrim PNull) => Ok []
            | Other _ => Throw "Invalid params specified. Must be a plain object"
            end) as [ps|e] eqn:Hp; [|discriminate].
  cbn [plain_options].
  destruct (with_defaults populate_defaults given) as [options|e] eqn:Hw; [|discriminate].
  apply with_defaults_Ok in Hw. subst options.
  destruct (negb _ || _) eqn:Hdepth; [discriminate|].
  destruct (negb (key_converts _ _ _)); [discriminate|].
  destruct (injector_named _) as [injector|] eqn:Hinj; [|discriminate].
  intros H.
  pose proof (f_equal (fun c => match c with Ok x => x | Throw _ => setup end) H) as Hs.
  cbv beta iota in Hs. subst setup. clear H.
  cbn [ps_options ps_injector ps_depth ps_params].
  apply orb_false_iff in Hdepth as [Hint Hneg]. apply negb_false_iff in Hint.
  split; [intros k; exact (assoc_completed k populate_defaults given)|].
  repeat split; auto.
  destruct params as [props|[[| | | |]|]]; try discriminate Hp; now injection Hp.
Qed.

Lemma js_gt_number s x y :
  js_gt L s (JPrim (PNum x)) y = PrimFloat.ltb (to_number L s y) x
  /\ js_gt L s y (JPrim (PNum x)) = PrimFloat.ltb x (to_number L s y).
Proof. unfold js_gt. destruct y as [[| | | |]|]; split; reflexivity. Qed.

Lemma out_of_range_not_a_number s x :
  PrimFloat.is_nan (to_number L s x) = true -> out_of_range s x = false.
Proof.
  intros H. unfold out_of_range.
  destruct (js_gt_number s 0 x) as [-> _]. destruct (js_gt_number s 1 x) as [_ ->].
  destruct (nan_compares _ 0%float H) as (-> & _ & _).
  destruct (nan_compares _ 1%float H) as (_ & -> & _). reflexivity.
Qed.

(** The possibilities [random] checks. *)
Definition possibilities : list string :=
  ["additionalPropertiesPossibility"; "defaultPossibility"; "definedPropertyPossibility"].

(** X17: the tests [options.hasOwnProperty(...)] of [random] are method
    calls, so options that own a property [hasOwnProperty] make it throw a
    [TypeError].  On options that own none, [random] accepts its options
    when each possibility option given is a primitive that converts to NaN:
    the range check only refuses a value below 0 or above 1, and a value
    that is not a number is neither.  Every option given is then kept as
    given, and every option not given has its default. *)
Theorem random_accepts_not_a_number (s : store) (given : list (string * jsval)) :
  (assoc "hasOwnProperty" given <> None ->
   random_options s (Plain given) = Throw (not_a_function "options"))
  /\ (assoc "hasOwnProperty" given = None ->
      Forall (fun k => match assoc k given with
                       | Some v =>
                           is_object v = false /\ PrimFloat.is_nan (to_number L s v) = true
                       | None => True
                       end) possibilities ->
      exists options,
        random_options s (Plain given) = Ok options
        /\ forall k, assoc k options
                     = match assoc k given with
                       | Some v => Some v
                       | None => assoc k random_defaults
                       end).
Proof.
  split.
  - intros Hown. unfold random_options. cbn [plain_options].
    now rewrite with_defaults_shadowed.
  - intros Hplain H. unfold random_options. cbn [plain_options].
    rewrite (with_defaults_plain random_defaults given Hplain eq_refl).
    assert (Hok : forall k, In k possibilities ->
              out_of_range s (default undefined (assoc k (completed random_defaults given)))
              = false).
    { intros k Hk. rewrite Forall_forall in H. apply list_elem_of_In in Hk as Hk'.
      specialize (H _ Hk'). cbv beta in H. rewrite assoc_completed.
      destruct (assoc k given) as [v|]; [apply out_of_range_not_a_number, H|].
      unfold out_of_range.
      destruct Hk as [<-|[<-|[<-|[]]]]; reflexivity. }
    rewrite !Hok by (unfold possibilities; simpl; tauto).
    eexists. split; [reflexivity|]. intros k. apply assoc_completed.
Qed.

End Options.

(** *** Further instances *)

(** The result [{ allOf: [], oneOf: [], properties: { name: {...} } }]. *)
Definition composite_data : cbdata :=
  {| cb_frame :=
       {| f_definition := JRef (Obj 0); f_definitionType := "object"; f_exception := [];
          f_key := None; f_result := JRef (Obj 0); f_warn := [] |};
     cb_parents := []; cb_major := 3; cb_minor := 0; cb_patch := 0;
     cb_state :=
       {| w_objs := [ OObject [("allOf", JRef (Obj 1)); ("oneOf", JRef (Obj 2));
                               ("properties", JRef (Obj 3))];
                      OArray []; OArray [];
                      OObject [("name", JRef (Obj 4))];
                      OObject [("type", JPrim (PStr "string"))] ];
          w_map := ∅; w_errors := []; w_warnings := []; w_types := [] |} |}.

Lemma composites_reported_witness :
  let s := {| s_defs := []; s_objs := w_objs (cb_state composite_data) |} in
  let outcome := schema_errors js_lang [] composite_data {| r_errors := []; r_warnings := [] |} in
  fst outcome = Ok tt
  /\ (1 < length (composites_of s (JRef (Obj 0))) ->
      In ([], composites_message (composites_of s (JRef (Obj 0)))) (r_errors (snd outcome)))
  /\ (forall q text,
        In (q, text) (r_errors (snd outcome)) ->
        String.prefix "Cannot have multiple composites: " text = true ->
        1 < length (composites_of s (JRef (Obj 0))) /\ q = []
        /\ text = composites_message (composites_of s (JRef (Obj 0)))).
Proof.
  refine (composites_reported_when_reached js_lang [] composite_data (Obj 0) eq_refl _).
  unfold readable_properties. simpl. eexists. split; [reflexivity|]. repeat constructor.
Defined.

Lemma minMaxValid_not_a_number_witness :
  minMaxValid js_lang {| s_defs := []; s_objs := [] |}
    (JPrim (PStr "low")) (JPrim (PNum 5)) undefined undefined = false.
Proof.
  exact (minMaxValid_not_a_number js_lang {| s_defs := []; s_objs := [] |}
           (JPrim (PStr "low")) (JPrim (PNum 5)) undefined undefined
           eq_refl eq_refl eq_refl).
Defined.

Lemma scalar_passes_through_witness :
  exists v st',
    normalize twins_env 1 (letter_data "c") root_state = Some (Ok v, st')
    /\ w_objs st' = w_objs root_state /\ w_map st' = w_map root_state
    /\ (v = JPrim (PStr "c")
        \/ (v = undefined
            /\ exists st1 st2,
                 validateType twins_env "string" (letter_data "c") st1 = (Ok false, st2))).
Proof.
  refine (scalar_passes_through twins_env 0 (letter_data "c") (PStr "c") root_state
            eq_refl eq_refl _).
  simpl. tauto.
Defined.

(** The state a walk ends in. *)
Definition final_state (r : option (completion jsval * wstate)) : wstate :=
  match r with
  | Some (_, st) => st
  | None => root_state
  end.

Definition cycle_final : wstate :=
  final_state (normalize cycle_env 3 (root_data cycle_schema) root_state).

Lemma normalize_result_witness :
  JRef (Obj 0) = undefined
  \/ JRef (Obj 0) = result (root_data cycle_schema)
  \/ JRef (Obj 0) = definition (root_data cycle_schema)
  \/ (exists r, definition (root_data cycle_schema) = JRef r
                /\ w_map root_state !! r = Some (JRef (Obj 0))
                /\ truthy (JRef (Obj 0)) = true).
Proof.
  refine (normalize_result_cases cycle_env 3 (root_data cycle_schema) root_state
            (JRef (Obj 0)) cycle_final _).
  vm_compute. reflexivity.
Defined.

Definition tagged_defs : heap :=
  [ OObject [("x-tag", JPrim (PStr "a")); ("type", JPrim (PStr "string"));
             ("x-", JPrim (PStr "b"))] ].

Lemma extension_properties_witness :
  exists rprops',
    organize (env_of tagged_defs (fun _ => None)) (root_data VUndefined)
      ["x-tag"; "type"; "x-"] [] root_state
    = (Ok ["type"; "x-"], set_objs (<[0 := OObject rprops']> (w_objs root_state)) root_state)
    /\ forall k,
         assoc k rprops'
         = match assoc k [("x-tag", JPrim (PStr "a")); ("type", JPrim (PStr "string"));
                          ("x-", JPrim (PStr "b"))] with
           | Some v => if rxExtension_test k then Some v else assoc k []
           | None => assoc k []
           end.
Proof.
  exact (extension_properties_are_copied (env_of tagged_defs (fun _ => None))
           (root_data VUndefined) 0 0
           [("x-tag", JPrim (PStr "a")); ("type", JPrim (PStr "string"));
            ("x-", JPrim (PStr "b"))] [] root_state eq_refl eq_refl eq_refl eq_refl).
Defined.

Definition composite_final : wstate :=
  final_state (normalize (schema_env composite_defs) 4
                 (root_data (schema_fragment composite_defs)) root_state).

Lemma normalize_keeps_messages_witness :
  (exists errors, w_errors composite_final = (w_errors root_state ++ errors)%list)
  /\ (exists warnings, w_warnings composite_final = (w_warnings root_state ++ warnings)%list).
Proof.
  refine (normalize_keeps_messages (schema_env composite_defs) 4
            (root_data (schema_fragment composite_defs)) root_state (JRef (Obj 0))
            composite_final _).
  vm_compute. reflexivity.
Defined.

(** A version 3 schema that discriminates on [petType], and a pet whose
    own property [hasOwnProperty] is the number 1. *)
Definition pet_store : store :=
  {| s_defs := pet_defs;
     s_objs := [OObject [("propertyName", JPrim (PStr "petType"))];
                OObject [("petType", JPrim (PStr "Cat"));
                         ("hasOwnProperty", JPrim (PNum PrimFloat.one))]] |}.

Definition pet_schema : schema_node :=
  {| sn_major := JPrim (PNum 3); sn_openapi := JRef (Def 0); sn_discriminator := JRef (Obj 0) |}.

(** The same discriminator in a version 2 document. *)
Definition pet_schema_2 : schema_node :=
  {| sn_major := JPrim (PNum 2); sn_openapi := JRef (Def 0);
     sn_discriminator := JPrim (PStr "petType") |}.


Example discriminate_finds_schema :
  discriminate js_lang pet_store pet_schema (JRef (Def 4)) undefined tt
  = (Ok (Schema_only (JRef (Def 3))), tt).
Proof. reflexivity. Qed.


(** An integer test on numbers for the examples: a binary float is an
    integer when it is zero, or when its exponent cuts no set bit off its
    mantissa. *)
Definition is_integer (v : jsval) : bool :=
  match v with
  | JPrim (PNum n) =>
      match Prim2SF n with
      | S754_zero _ => true
      | S754_finite _ m e => (0 <=? e)%Z || (Z.land (Zpos m) (Z.ones (- e)) =? 0)%Z
      | _ => false
      end
  | _ => false
  end.

Definition colon_options : list (string * jsval) :=
  [("replacement", JPrim (PStr "colon")); ("copy", undefined)].

Definition colon_setup : populate_setup :=
  {| ps_params := [("name", JPrim (PStr "Ada"))];
     ps_options := completed populate_defaults colon_options;
     ps_injector := Injector.Colon;
     ps_depth := 99 |}.

Lemma populate_options_witness :
  let option k := default undefined (assoc k (ps_options colon_setup)) in
  (forall k, assoc k (ps_options colon_setup)
             = match assoc k colon_options with
               | Some v => Some v
               | None => assoc k populate_defaults
               end)
  /\ is_integer (option "depth") = true
  /\ js_gt js_lang {| s_defs := []; s_objs := [] |} (JPrim (PNum 0)) (option "depth") = false
  /\ injector_named (to_property_key js_lang (option "replacement")) = Some Injector.Colon
  /\ ps_depth colon_setup
     = PrimFloat.sub (to_number js_lang {| s_defs := []; s_objs := [] |} (option "depth")) 1
  /\ ps_params colon_setup = [("name", JPrim (PStr "Ada"))].
Proof.
  exact (populate_options_completed js_lang is_integer {| s_defs := []; s_objs := [] |}
           (Plain [("name", JPrim (PStr "Ada"))]) colon_options colon_setup eq_refl).
Defined.

(** Options whose [defaultPossibility] is not a number, and options that
    own a property [hasOwnProperty]. *)
Definition often : list (string * jsval) :=
  [("defaultPossibility", JPrim (PNum PrimFloat.nan))].

Definition shadowing : list (string * jsval) :=
  [("hasOwnProperty", JPrim (PNum 1))].

Lemma random_accepts_witness :
  random_options js_lang {| s_defs := []; s_objs := [] |} (Plain shadowing)
  = Throw (not_a_function "options")
  /\ exists options,
       random_options js_lang {| s_defs := []; s_objs := [] |} (Plain often) = Ok options
       /\ forall k, assoc k options
                    = match assoc k often with
                      | Some v => Some v
                      | None => assoc k random_defaults
                      end.
Proof.
  split.
  - refine (proj1 (random_accepts_not_a_number js_lang {| s_defs := []; s_objs := [] |}
                     shadowing) _).
    discriminate.
  - refine (proj2 (random_accepts_not_a_number js_lang {| s_defs := []; s_objs := [] |}
                     often) eq_refl _).
    repeat constructor.
Defined.
